(** * Drive2Chat: the document-to-answer pipeline of [app.py]

    A shallow embedding of the indexing and query pipeline
    ([chunk_text], [get_embedding], [read_file], [process_drive_files],
    [search_qdrant], [generate_answer]) together with the properties the
    specification states about it.

    Python text is a [string] (one [ascii] per character), Python
    integers are [Z], list indices are [nat].  The external services
    (Drive, the embedding and generation models, the vector store) are
    oracles gathered in a record [World]; every call to one of them is
    recorded in a trace, and a call that raises is an oracle returning
    [None]. *)

From Stdlib Require Import ZArith QArith Lia List Bool Ascii String.
From stdpp Require Import base list gmap strings.

Open Scope Z_scope.

(** ** Python values and exceptions *)

(** The exceptions the pipeline can meet: a failure of an external call,
    and the [ValueError] raised by [range] on a zero step and by
    [np.mean] on rows of unequal length. *)
Inductive Exn : Type :=
| ServiceError
| ValueError.

(** The outcome of evaluating a Python expression or a function body. *)
Inductive Res (A : Type) : Type :=
| Ret (a : A)
| Raise (e : Exn).
Arguments Ret {A} a.
Arguments Raise {A} e.

(** [len(s)] *)
Definition len (s : string) : nat := String.length s.

(** [s[i:j]] for [0 <= i] and [0 <= j]: the characters at positions
    [i .. j-1] that exist; empty when [j <= i]. *)
Definition slice (s : string) (i j : nat) : string :=
  substring i (j - i) s.

(** [''.join(parts)] *)
Fixpoint join (parts : list string) : string :=
  match parts with
  | [] => EmptyString
  | p :: ps => String.append p (join ps)
  end.

(** ** [chunk_text] *)

(** The values [i, i+step, ...] below [stop]; [fuel] bounds the number
    of values produced. *)
Fixpoint range_from (fuel i stop step : nat) : list nat :=
  match fuel with
  | O => []
  | S fuel' =>
      if (i <? stop)%nat then i :: range_from fuel' (i + step) stop step
      else []
  end.

(** [range(0, stop, step)] for [stop >= 0]: a zero step raises, a
    negative step gives the empty range, and a positive step gives at
    most [stop] values. *)
Definition py_range0 (stop : nat) (step : Z) : Res (list nat) :=
  if step =? 0 then Raise ValueError
  else if step <? 0 then Ret []
  else Ret (range_from stop 0 stop (Z.to_nat step)).

(** [[text[i:i+max_chars] for i in range(0, len(text), max_chars)]] *)
Definition chunk_text (text : string) (max_chars : Z) : Res (list string) :=
  match py_range0 (len text) max_chars with
  | Raise e => Raise e
  | Ret starts =>
      Ret (map (fun i => slice text i (i + Z.to_nat max_chars)) starts)
  end.

(** The default [max_chars=30000]. *)
Definition DEFAULT_MAX_CHARS : Z := 30000.

(** [ceil(a / b)] on integers, for a positive [b]. *)
Definition ceil_div (a b : Z) : Z := (a + b - 1) / b.


(** [s.strip()]: Python's white space among the characters below 256. *)
Definition isspace (c : ascii) : bool :=
  let n := nat_of_ascii c in
  ((9 <=? n) && (n <=? 13) || (28 <=? n) && (n <=? 32)
   || (n =? 133) || (n =? 160))%nat.

Fixpoint lstrip (s : string) : string :=
  match s with
  | EmptyString => EmptyString
  | String c s' => if isspace c then lstrip s' else s
  end.

Fixpoint rstrip (s : string) : string :=
  match s with
  | EmptyString => EmptyString
  | String c s' =>
      match rstrip s' with
      | EmptyString => if isspace c then EmptyString else String c EmptyString
      | r => String c r
      end
  end.

Definition strip (s : string) : string := rstrip (lstrip s).

(** [s.startswith(p)] *)
Definition startswith (s p : string) : bool := String.prefix p s.

(** [d.get(key, dflt)] once the dictionary has answered [value]. *)
Definition get_or (value : option string) (dflt : string) : string :=
  match value with
  | Some v => v
  | None => dflt
  end.

(** The truth value of a string: non-empty. *)
Definition truthy (s : string) : bool :=
  match s with EmptyString => false | String _ _ => true end.

(** The line feed of the source's multi-line literals. *)
Definition nl : string := String (ascii_of_nat 10) EmptyString.

(** ** The built-in [hash] on strings

    CPython's hash of a [str] (version 3.11: SipHash-1-3 over the
    characters, one byte each for text below code point 256), keyed by a
    secret that the interpreter draws when the process starts.  With
    [PYTHONHASHSEED=n] for [n > 0] the secret comes from a linear
    congruential generator seeded with [n]; with [PYTHONHASHSEED=0] it
    is zero; without the variable it is random. *)
Module CPython.

Definition mask64 (x : Z) : Z := x mod 2 ^ 64.

Definition rotl64 (x b : Z) : Z :=
  mask64 (Z.lor (Z.shiftl x b) (Z.shiftr x (64 - b))).

Definition half_round (a b c d s t : Z) : Z * Z * Z * Z :=
  let a := mask64 (a + b) in
  let c := mask64 (c + d) in
  let b := Z.lxor (rotl64 b s) a in
  let d := Z.lxor (rotl64 d t) c in
  let a := rotl64 a 32 in
  (a, b, c, d).

Definition single_round (v : Z * Z * Z * Z) : Z * Z * Z * Z :=
  let '(v0, v1, v2, v3) := v in
  let '(v0, v1, v2, v3) := half_round v0 v1 v2 v3 13 16 in
  let '(v2, v1, v0, v3) := half_round v2 v1 v0 v3 17 21 in
  (v0, v1, v2, v3).

(** Little-endian bytes to a number. *)
Fixpoint le_bytes (bytes : list Z) : Z :=
  match bytes with
  | [] => 0
  | b :: rest => b + 256 * le_bytes rest
  end.

Definition absorb (v : Z * Z * Z * Z) (m : Z) : Z * Z * Z * Z :=
  let '(v0, v1, v2, v3) := v in
  let '(v0, v1, v2, v3) := single_round (v0, v1, v2, Z.lxor v3 m) in
  (Z.lxor v0 m, v1, v2, v3).

(** The full words of eight bytes, then the bytes left over. *)
Fixpoint absorb_words (bytes : list Z) (v : Z * Z * Z * Z)
  : (Z * Z * Z * Z) * list Z :=
  match bytes with
  | b0 :: b1 :: b2 :: b3 :: b4 :: b5 :: b6 :: b7 :: rest =>
      absorb_words rest (absorb v (le_bytes [b0; b1; b2; b3; b4; b5; b6; b7]))
  | _ => (v, bytes)
  end.

Definition siphash13 (k0 k1 : Z) (bytes : list Z) : Z :=
  let v := (Z.lxor k0 0x736f6d6570736575, Z.lxor k1 0x646f72616e646f6d,
            Z.lxor k0 0x6c7967656e657261, Z.lxor k1 0x7465646279746573) in
  let '(v, tail) := absorb_words bytes v in
  let b := Z.lor (mask64 (Z.shiftl (Z.of_nat (List.length bytes)) 56)) (le_bytes tail) in
  let '(v0, v1, v2, v3) := absorb v b in
  let v2 := Z.lxor v2 0xff in
  let '(v0, v1, v2, v3) :=
    single_round (single_round (single_round (v0, v1, v2, v3))) in
  Z.lxor (Z.lxor v0 v1) (Z.lxor v2 v3).

(** [n] bytes of the generator started at [x]. *)
Fixpoint lcg_urandom (n : nat) (x : Z) : list Z :=
  match n with
  | O => []
  | S n' =>
      let x' := (x * 214013 + 2531011) mod 2 ^ 32 in
      Z.land (Z.shiftr x' 16) 0xff :: lcg_urandom n' x'
  end.

(** The two key words of a process started with [PYTHONHASHSEED=seed]. *)
Definition hash_secret (seed : Z) : Z * Z :=
  if seed =? 0 then (0, 0)
  else
    let bytes := lcg_urandom 16 seed in
    (le_bytes (firstn 8 bytes), le_bytes (skipn 8 bytes)).

(** [hash(s)] in that process, as a signed number; [-1] is never
    returned. *)
Definition str_hash (seed : Z) (s : string) : Z :=
  let bytes := map (fun c => Z.of_nat (nat_of_ascii c)) (list_ascii_of_string s) in
  match bytes with
  | [] => 0
  | _ =>
      let '(k0, k1) := hash_secret seed in
      let h := siphash13 k0 k1 bytes in
      let h := if h <? 2 ^ 63 then h else h - 2 ^ 64 in
      if h =? -1 then -2 else h
  end.

End CPython.

(** ** Numbers and vectors *)

(** The floating-point numbers of numpy, through the operations the
    pipeline uses: the constant [0.0], addition, division by a count
    and the test [x == 0]. *)
Class Float (F : Type) : Type := {
  fzero : F;
  fadd : F -> F -> F;
  fdiv_count : F -> nat -> F;
  fis_zero : F -> bool;
  fis_zero_zero : fis_zero fzero = true
}.

#[export] Instance Q_Float : Float Q := {|
  fzero := 0%Q;
  fadd := Qplus;
  fdiv_count x n := (x / inject_Z (Z.of_nat n))%Q;
  fis_zero x := Qeq_bool x 0%Q;
  fis_zero_zero := eq_refl
|}.

(** ** Configuration *)

Definition VECTOR_SIZE : nat := 768.

(** [abs(hash(file_id)) % (10**18)] takes its bound from here. *)
Definition POINT_ID_BOUND : Z := 10 ^ 18.

Definition MIN_CONTENT_LENGTH : nat := 20.
Definition SNIPPET_SIZE : nat := 3000.
Definition MAX_CONTEXT : nat := Z.to_nat 8000.
Definition LIST_PAGE_SIZE : nat := 100.
Definition DEFAULT_TOP_K : nat := 3.

Definition allowed_types : list string :=
  [ "application/vnd.google-apps.document";
    "application/vnd.google-apps.spreadsheet";
    "application/vnd.google-apps.presentation";
    "application/pdf";
    "application/vnd.openxmlformats-officedocument.wordprocessingml.document";
    "text/plain" ]%string.

Definition NATIVE_PREFIX : string := "application/vnd.google-apps".

Definition FALLBACK_ANSWER : string := "Could not generate a clear answer.".
Definition ERROR_ANSWER : string :=
  "An error occurred while generating the answer.".

(** ** Data *)

(** One entry of the Drive listing: a dictionary whose keys [id],
    [name] and [mimeType] may be absent. *)
Record Item : Type := {
  item_id : option string;
  item_name : option string;
  item_mimeType : option string
}.

Record Payload : Type := {
  name : string;
  content : string
}.

Section Pipeline.

Context {F : Type} `{Float F}.

(** [np.zeros(n)] *)
Definition np_zeros (n : nat) : list F := repeat fzero n.

(** [np.all(v == 0)] *)
Definition np_all_zero (v : list F) : bool := forallb fis_zero v.

(** Element-wise sum of two rows of the same length. *)
Fixpoint vadd (a b : list F) : list F :=
  match a, b with
  | x :: a', y :: b' => fadd x y :: vadd a' b'
  | _, _ => []
  end.

(** [np.mean(rows, axis=0)] on a non-empty list of rows: numpy builds
    a two-dimensional array, which raises [ValueError] when the rows
    differ in length, adds the rows in order and divides by their
    number. *)
Definition np_mean_axis0 (first : list F) (rest : list (list F))
  : Res (list F) :=
  if forallb (fun r => (length r =? length first)%nat) rest then
    Ret (map (fun x => fdiv_count x (S (length rest)))
             (fold_left vadd rest first))
  else Raise ValueError.



Record PointStruct : Type := {
  id : Z;
  vector : list F;
  payload : Payload
}.

Record ScoredPoint : Type := {
  sp_id : Z;
  score : F;
  sp_payload : Payload
}.

(** The [text] attribute of a generation response: absent, raising
    when read, or a string. *)
Inductive TextAttr : Type :=
| TextMissing
| TextRaises
| TextIs (s : string).

(** What the program prints. *)
Inductive Msg : Type :=
| MsgEmbeddingError
| MsgReadError (file_id : string)
| MsgProcessing (idx total : nat) (file_name : string)
| MsgSkipNoId (file_name : string)
| MsgSkipSmall (file_name : string)
| MsgNoValidEmbeddings (file_name : string)
| MsgProcessed (file_name : string)
| MsgErrorProcessing
| MsgInvalidQueryEmbedding
| MsgSearchError
| MsgErrorGenerating.

(** The calls to the external services, and the prints. *)
Inductive Event : Type :=
| EvList (pageSize : nat) (pageToken : option nat)
| EvExport (fileId : string) (mimeType : string)
| EvGetMedia (fileId : string)
| EvEmbed (text : string)
| EvUpsert (p : PointStruct)
| EvSearch (query_vector : list F) (limit : nat)
| EvGenerate (prompt : string)
| EvPrint (m : Msg).

(** The vector store's collection [drive_docs]: points by identifier. *)
Definition Store : Type := gmap Z PointStruct.

(** The process and the services around it.  Every oracle takes the
    number of events that came before the call, so that the same call
    may succeed at one moment and fail at another; [None] is a call
    that raises.
    - [py_hash] is the built-in [hash] on strings of this process;
    - [drive_files] are the non-trashed files of the account in the
      order of the listing, and a listing request returns the first
      [pageSize] of them;
    - [drive_export] and [drive_get] give the decoded text of a
      completed download ([decode("utf-8", errors='ignore')]);
    - [embed_content] gives [result['embedding']];
    - [qdrant_keeps] is what the collection keeps of the vector of an
      upserted point: [drive_docs] is created with [Distance.COSINE],
      and for that distance the store keeps the vector scaled to unit
      length, not the vector it was sent. *)
Record World : Type := {
  py_hash : string -> Z;
  drive_files : list Item;
  drive_list_raises : nat -> bool;
  drive_export : nat -> string -> option string;
  drive_get : nat -> string -> option string;
  embed_content : nat -> string -> option (list F);
  upsert_raises : nat -> PointStruct -> bool;
  qdrant_keeps : list F -> list F;
  qdrant_search : nat -> Store -> list F -> nat -> option (list ScoredPoint);
  generate_content : nat -> string -> option TextAttr
}.

(** ** Computations: events, a store and exceptions *)

Record Out (A : Type) : Type := {
  res : Res A;
  events : list Event;
  store_after : Store
}.
Arguments res {A} o.
Arguments events {A} o.
Arguments store_after {A} o.

(** A computation starts after [now] events with a store. *)
Definition M (A : Type) : Type := nat -> Store -> Out A.

Definition ret {A : Type} (a : A) : M A :=
  fun _ s => {| res := Ret a; events := []; store_after := s |}.

Definition raise {A : Type} (e : Exn) : M A :=
  fun _ s => {| res := Raise e; events := []; store_after := s |}.

Definition bind {A B : Type} (m : M A) (k : A -> M B) : M B :=
  fun now s =>
    let o := m now s in
    match res o with
    | Raise e =>
        {| res := Raise e; events := events o; store_after := store_after o |}
    | Ret a =>
        let o' := k a (now + length (events o))%nat (store_after o) in
        {| res := res o'; events := events o ++ events o';
           store_after := store_after o' |}
    end.

(** [try: m  except Exception as e: handler e] *)
Definition try_except {A : Type} (m : M A) (handler : Exn -> M A) : M A :=
  fun now s =>
    let o := m now s in
    match res o with
    | Ret a => o
    | Raise e =>
        let o' := handler e (now + length (events o))%nat (store_after o) in
        {| res := res o'; events := events o ++ events o';
           store_after := store_after o' |}
    end.

Definition emit (e : Event) : M unit :=
  fun _ s => {| res := Ret tt; events := [e]; store_after := s |}.

Definition print (m : Msg) : M unit := emit (EvPrint m).

(** A call to a service: the event, then the oracle's answer at the
    moment of the call. *)
Definition call {A : Type} (e : Event) (oracle : nat -> Store -> option A) : M A :=
  fun now s =>
    {| res := match oracle now s with Some a => Ret a | None => Raise ServiceError end;
       events := [e]; store_after := s |}.

Definition set_store (f : Store -> Store) : M unit :=
  fun _ s => {| res := Ret tt; events := []; store_after := f s |}.

End Pipeline.

Arguments res {F A} o.
Arguments events {F A} o.
Arguments store_after {F A} o.
Arguments World F : clear implicits.
Arguments Event F : clear implicits.
Arguments PointStruct F : clear implicits.
Arguments ScoredPoint F : clear implicits.
Arguments Store F : clear implicits.
Arguments M F A : clear implicits.
Arguments Out F A : clear implicits.

Declare Scope py_scope.
Delimit Scope py_scope with py.
Notation "x <- c1 ;; c2" := (bind c1 (fun x => c2))
  (at level 100, c1 at next level, right associativity) : py_scope.
Notation "c1 ;; c2" := (bind c1 (fun _ => c2))
  (at level 100, right associativity) : py_scope.

(** ** The pipeline *)

Section Functions.

Context {F : Type} `{Float F}.
Variable w : World F.

Local Open Scope py_scope.
Local Open Scope string_scope.

Definition lift {A : Type} (r : Res A) : M F A :=
  match r with
  | Ret a => ret a
  | Raise e => raise e
  end.

(** [get_embedding(text)].  The result is a Python value that the
    callers compare with [None]; the function itself returns an array
    on both paths. *)
Definition get_embedding (text : string) : M F (option (list F)) :=
  try_except
    (result <- call (EvEmbed text) (fun now _ => embed_content w now text);;
     ret (Some result))
    (fun _ =>
       print MsgEmbeddingError;;
       ret (Some (np_zeros VECTOR_SIZE))).

(** [read_file(file_id, mime_type, service)] *)
Definition read_file (file_id mime_type : string) : M F string :=
  try_except
    (raw <- (if startswith mime_type NATIVE_PREFIX
             then call (EvExport file_id "text/plain")
                       (fun now _ => drive_export w now file_id)
             else call (EvGetMedia file_id)
                       (fun now _ => drive_get w now file_id));;
     ret (strip raw))
    (fun _ =>
       print (MsgReadError file_id);;
       ret "").

(** The loop [for chunk in chunks] that fills [embeddings]. *)
Fixpoint embed_chunks (chunks : list string) (embeddings : list (list F))
  : M F (list (list F)) :=
  match chunks with
  | [] => ret embeddings
  | chunk :: rest =>
      embedding <- get_embedding chunk;;
      embed_chunks rest
        match embedding with
        | Some v => embeddings ++ [v]
        | None => embeddings
        end
  end.

(** [abs(hash(file_id)) % (10**18)] *)
Definition point_id (file_id : string) : Z :=
  Z.abs (py_hash w file_id) mod POINT_ID_BOUND.

(** The point as the collection keeps it: the identifier and the
    payload as they were sent, the vector as [qdrant_keeps] makes it. *)
Definition stored (p : PointStruct F) : PointStruct F :=
  {| id := id p; vector := qdrant_keeps w (vector p); payload := payload p |}.

(** [qdrant_client.upsert(collection_name=COLLECTION_NAME, points=[p])] *)
Definition qdrant_upsert (p : PointStruct F) : M F unit :=
  call (EvUpsert p)
       (fun now _ => if upsert_raises w now p then None else Some tt);;
  set_store (fun s => <[id p := stored p]> s).

(** [PointStruct(id=point_id, vector=avg_embedding,
    payload={"name": file_name, "content": content[:3000]})] *)
Definition make_point (file_id file_name text : string)
    (avg_embedding : list F) : PointStruct F :=
  {| id := point_id file_id;
     vector := avg_embedding;
     payload := {| name := file_name;
                   content := slice text 0 SNIPPET_SIZE |} |}.

(** The end of the loop body, from [if not embeddings] on. *)
Definition index_document (file_id file_name text : string)
    (embeddings : list (list F)) : M F unit :=
  match embeddings with
  | [] => print (MsgNoValidEmbeddings file_name)
  | first :: rest =>
      avg_embedding <- lift (np_mean_axis0 first rest);;
      qdrant_upsert (make_point file_id file_name text avg_embedding);;
      print (MsgProcessed file_name)
  end.

(** [item.get("name", "unnamed")] *)
Definition item_file_name (item : Item) : string :=
  get_or (item_name item) "unnamed".

(** [item.get("mimeType") not in allowed_types], negated. *)
Definition mime_allowed (mime : option string) : bool :=
  match mime with
  | Some t => existsb (String.eqb t) allowed_types
  | None => false
  end.

(** The body of [for idx, item in enumerate(items, 1)]; returning is
    [continue] or the end of the body. *)
Definition process_item (total idx : nat) (item : Item) : M F unit :=
  if negb (mime_allowed (item_mimeType item)) then ret tt
  else
    let file_name := item_file_name item in
    print (MsgProcessing idx total file_name);;
    match item_id item with
    | None => print (MsgSkipNoId file_name)
    | Some file_id =>
        if negb (truthy file_id) then print (MsgSkipNoId file_name)
        else
          text <- read_file file_id (get_or (item_mimeType item) "");;
          if (len text <? MIN_CONTENT_LENGTH)%nat
          then print (MsgSkipSmall file_name)
          else
            chunks <- lift (chunk_text text DEFAULT_MAX_CHARS);;
            embeddings <- embed_chunks chunks [];;
            index_document file_id file_name text embeddings
    end.

Fixpoint for_enumerate (total idx : nat) (items : list Item) : M F unit :=
  match items with
  | [] => ret tt
  | item :: rest =>
      process_item total idx item;;
      for_enumerate total (S idx) rest
  end.

(** Where a page starts: at the page token when there is one. *)
Definition page_start (pageToken : option nat) : nat :=
  match pageToken with
  | Some offset => offset
  | None => 0
  end.

(** [service.files().list(pageSize=..., q="trashed=false").execute()]
    and [results.get("files", [])]: one page of the listing. *)
Definition files_list (pageSize : nat) (pageToken : option nat)
  : M F (list Item) :=
  call (EvList pageSize pageToken)
       (fun now _ =>
          if drive_list_raises w now then None
          else Some (take pageSize (drop (page_start pageToken) (drive_files w)))).

(** [process_drive_files(service, qdrant_client)] *)
Definition process_drive_files : M F unit :=
  try_except
    (items <- files_list LIST_PAGE_SIZE None;;
     for_enumerate (length items) 1 items)
    (fun e =>
       print MsgErrorProcessing;;
       raise e).

(** [search_qdrant(qdrant_client, query, top_k)] *)
Definition search_qdrant (query : string) (top_k : nat)
  : M F (list (ScoredPoint F)) :=
  try_except
    (query_embedding <- get_embedding query;;
     match query_embedding with
     | None => print MsgInvalidQueryEmbedding;; ret []
     | Some v =>
         if np_all_zero v then print MsgInvalidQueryEmbedding;; ret []
         else call (EvSearch v top_k)
                   (fun now s => qdrant_search w now s v top_k)
     end)
    (fun _ =>
       print MsgSearchError;;
       ret []).

(** The f-string of [generate_answer]: the fixed text before
    [{context[:8000]}], the fixed text between it and [{query}], and
    the final line feed. *)
Definition PROMPT_HEAD : string :=
  nl +:+ "Based on the following context, answer the question clearly and precisely."
     +:+ nl
     +:+ "If the answer is not found in the context, say that the information is not available."
     +:+ nl +:+ nl +:+ "Context:" +:+ nl.

Definition PROMPT_MID : string := nl +:+ nl +:+ "Question: ".

Definition build_prompt (query context : string) : string :=
  PROMPT_HEAD +:+ slice context 0 MAX_CONTEXT +:+ PROMPT_MID +:+ query +:+ nl.

(** [search_qdrant(qdrant_client, query)], with [top_k=3]. *)
Definition search_qdrant_default (query : string) : M F (list (ScoredPoint F)) :=
  search_qdrant query DEFAULT_TOP_K.

(** [generate_answer(query, context)] *)
Definition generate_answer (query context : string) : M F string :=
  try_except
    (response <- call (EvGenerate (build_prompt query context))
                      (fun now _ => generate_content w now (build_prompt query context));;
     match response with
     | TextMissing => ret FALLBACK_ANSWER
     | TextRaises => raise ServiceError
     | TextIs t =>
         if truthy (strip t) then ret (strip t) else ret FALLBACK_ANSWER
     end)
    (fun _ =>
       print MsgErrorGenerating;;
       ret ERROR_ANSWER).

End Functions.

(** ** The runs of the loop body, case by case *)

Section ItemRuns.

Context {F : Type} `{Float F}.
Variable w : World F.

(** [v] is what [get_embedding chunk] returns at some moment. *)
Definition embedding_of (chunk : string) (v : list F) : Prop :=
  exists (t : nat) (s : Store F),
    res (get_embedding w chunk t s) = Ret (Some v).

(** The item passes the checks on its type and identifier, and
    [read_file], called after the progress line, returns [text] with
    the events [fetch]. *)
Definition fetched (item : Item) (now : nat) (s : Store F)
    (file_id mime text : string) (fetch : list (Event F)) : Prop :=
  item_mimeType item = Some mime
  /\ mime_allowed (Some mime) = true
  /\ item_id item = Some file_id
  /\ truthy file_id = true
  /\ read_file w file_id mime (S now) s
     = {| res := Ret text; events := fetch; store_after := s |}.

(** The text is long enough, is cut in [chunks], and the embedding
    loop returns the vectors [first :: rest] with the events
    [embeds]. *)
Definition embedded (now : nat) (s : Store F) (text : string)
    (fetch : list (Event F)) (chunks : list string)
    (first : list F) (rest : list (list F)) (embeds : list (Event F)) : Prop :=
  (MIN_CONTENT_LENGTH <= len text)%nat
  /\ chunk_text text DEFAULT_MAX_CHARS = Ret chunks
  /\ embed_chunks w chunks [] (S now + length fetch)%nat s
     = {| res := Ret (first :: rest); events := embeds; store_after := s |}
  /\ Forall2 embedding_of chunks (first :: rest).

Inductive ItemRun (total idx : nat) (item : Item) (now : nat) (s : Store F)
  : Out F unit -> Prop :=
| RunNotAllowed :
    mime_allowed (item_mimeType item) = false ->
    ItemRun total idx item now s
      {| res := Ret tt; events := []; store_after := s |}
| RunNoId :
    mime_allowed (item_mimeType item) = true ->
    item_id item = None \/ item_id item = Some EmptyString ->
    ItemRun total idx item now s
      {| res := Ret tt;
         events := [EvPrint (MsgProcessing idx total (item_file_name item));
                    EvPrint (MsgSkipNoId (item_file_name item))];
         store_after := s |}
| RunSmall (file_id mime text : string) (fetch : list (Event F)) :
    fetched item now s file_id mime text fetch ->
    (len text < MIN_CONTENT_LENGTH)%nat ->
    ItemRun total idx item now s
      {| res := Ret tt;
         events := EvPrint (MsgProcessing idx total (item_file_name item))
                   :: fetch ++ [EvPrint (MsgSkipSmall (item_file_name item))];
         store_after := s |}
| RunMeanRaises (file_id mime text : string) (fetch embeds : list (Event F))
    (chunks : list string) (first : list F) (rest : list (list F)) :
    fetched item now s file_id mime text fetch ->
    embedded now s text fetch chunks first rest embeds ->
    np_mean_axis0 first rest = Raise ValueError ->
    ItemRun total idx item now s
      {| res := Raise ValueError;
         events := EvPrint (MsgProcessing idx total (item_file_name item))
                   :: fetch ++ embeds;
         store_after := s |}
| RunUpsertRaises (file_id mime text : string) (fetch embeds : list (Event F))
    (chunks : list string) (first : list F) (rest : list (list F)) (avg : list F) :
    fetched item now s file_id mime text fetch ->
    embedded now s text fetch chunks first rest embeds ->
    np_mean_axis0 first rest = Ret avg ->
    upsert_raises w (S now + length fetch + length embeds)%nat
      (make_point w file_id (item_file_name item) text avg) = true ->
    ItemRun total idx item now s
      {| res := Raise ServiceError;
         events := EvPrint (MsgProcessing idx total (item_file_name item))
                   :: fetch ++ embeds
                   ++ [EvUpsert (make_point w file_id (item_file_name item) text avg)];
         store_after := s |}
| RunStored (file_id mime text : string) (fetch embeds : list (Event F))
    (chunks : list string) (first : list F) (rest : list (list F)) (avg : list F) :
    fetched item now s file_id mime text fetch ->
    embedded now s text fetch chunks first rest embeds ->
    np_mean_axis0 first rest = Ret avg ->
    upsert_raises w (S now + length fetch + length embeds)%nat
      (make_point w file_id (item_file_name item) text avg) = false ->
    ItemRun total idx item now s
      {| res := Ret tt;
         events := EvPrint (MsgProcessing idx total (item_file_name item))
                   :: fetch ++ embeds
                   ++ [EvUpsert (make_point w file_id (item_file_name item) text avg);
                       EvPrint (MsgProcessed (item_file_name item))];
         store_after :=
           <[id (make_point w file_id (item_file_name item) text avg)
             := stored w (make_point w file_id (item_file_name item) text avg)]> s |}.

End ItemRuns.

(** ** Reading traces *)

Section Traces.

Context {F : Type}.

Definition is_list (e : Event F) : bool :=
  match e with EvList _ _ => true | _ => false end.

Definition is_fetch (e : Event F) : bool :=
  match e with EvExport _ _ | EvGetMedia _ => true | _ => false end.

Definition is_embed (e : Event F) : bool :=
  match e with EvEmbed _ => true | _ => false end.

Definition is_upsert (e : Event F) : bool :=
  match e with EvUpsert _ => true | _ => false end.

(** The events of [get_embedding]: the call, and the line printed
    when it fails. *)
Definition embed_event (e : Event F) : Prop :=
  is_embed e = true \/ e = EvPrint MsgEmbeddingError.

(** The events of [read_file]: the download, and the line printed
    when it fails. *)
Definition fetch_event (e : Event F) : Prop :=
  is_fetch e = true \/ exists file_id : string, e = EvPrint (MsgReadError file_id).

(** The events of the loop body after its progress line. *)
Definition tail_event (e : Event F) : Prop :=
  fetch_event e \/ embed_event e \/ is_upsert e = true
  \/ exists file_name : string,
       e = EvPrint (MsgSkipNoId file_name)
       \/ e = EvPrint (MsgSkipSmall file_name)
       \/ e = EvPrint (MsgProcessed file_name).
(** The same process and services around another Drive account. *)
Definition with_drive_files (w : World F) (files : list Item) : World F :=
  {| py_hash := py_hash w;
     drive_files := files;
     drive_list_raises := drive_list_raises w;
     drive_export := drive_export w;
     drive_get := drive_get w;
     embed_content := embed_content w;
     upsert_raises := upsert_raises w;
     qdrant_keeps := qdrant_keeps w;
     qdrant_search := qdrant_search w;
     generate_content := generate_content w |}.

(** The same services seen from a process with another string hash. *)
Definition with_py_hash (w : World F) (h : string -> Z) : World F :=
  {| py_hash := h;
     drive_files := drive_files w;
     drive_list_raises := drive_list_raises w;
     drive_export := drive_export w;
     drive_get := drive_get w;
     embed_content := embed_content w;
     upsert_raises := upsert_raises w;
     qdrant_keeps := qdrant_keeps w;
     qdrant_search := qdrant_search w;
     generate_content := generate_content w |}.

End Traces.

(** ** Example worlds *)

Section WorldUpdates.

Context {F : Type}.

(** The same world with another embedding service. *)
Definition with_embed_content (w : World F)
    (embed : nat -> string -> option (list F)) : World F :=
  {| py_hash := py_hash w;
     drive_files := drive_files w;
     drive_list_raises := drive_list_raises w;
     drive_export := drive_export w;
     drive_get := drive_get w;
     embed_content := embed;
     upsert_raises := upsert_raises w;
     qdrant_keeps := qdrant_keeps w;
     qdrant_search := qdrant_search w;
     generate_content := generate_content w |}.

(** The same world with another behaviour of the store's upsert. *)
Definition with_upsert_raises (w : World F)
    (raises : nat -> PointStruct F -> bool) : World F :=
  {| py_hash := py_hash w;
     drive_files := drive_files w;
     drive_list_raises := drive_list_raises w;
     drive_export := drive_export w;
     drive_get := drive_get w;
     embed_content := embed_content w;
     upsert_raises := raises;
     qdrant_keeps := qdrant_keeps w;
     qdrant_search := qdrant_search w;
     generate_content := generate_content w |}.

End WorldUpdates.

Definition sample_text : string :=
  "Hello world, this is a test document with enough content to pass the minimum length check.".

(** A text of 30001 characters: two chunks. *)
Definition long_text : string :=
  string_of_list_ascii (repeat "a"%char (Z.to_nat 30001)).

Definition hello_item : Item :=
  {| item_id := Some "file-1"%string; item_name := Some "hello.txt"%string;
     item_mimeType := Some "text/plain"%string |}.

Definition picture_item : Item :=
  {| item_id := Some "file-2"%string; item_name := Some "cat.png"%string;
     item_mimeType := Some "image/png"%string |}.

Definition memo_item : Item :=
  {| item_id := Some "file-3"%string; item_name := Some "memo"%string;
     item_mimeType := Some "application/vnd.google-apps.document"%string |}.

Definition book_item : Item :=
  {| item_id := Some "file-4"%string; item_name := Some "book.txt"%string;
     item_mimeType := Some "text/plain"%string |}.

Definition sample_hits : list (ScoredPoint Q) :=
  [ {| sp_id := 11; score := (9 # 10)%Q;
       sp_payload := {| name := "a.txt"; content := "alpha" |} |};
    {| sp_id := 12; score := (7 # 10)%Q;
       sp_payload := {| name := "b.txt"; content := "beta" |} |};
    {| sp_id := 13; score := (5 # 10)%Q;
       sp_payload := {| name := "c.txt"; content := "gamma" |} |};
    {| sp_id := 14; score := (3 # 10)%Q;
       sp_payload := {| name := "d.txt"; content := "delta" |} |} ].

(** What a collection with cosine distance keeps of a vector over the
    rationals: the vector divided by its length, and the vector itself
    when its length is zero.  The square root is taken to six decimal
    places; the rounding of the store's 32-bit floats is left out. *)
Definition approx_sqrt (q : Q) : Q :=
  Z.sqrt (Qnum q * 10 ^ 12 / Zpos (Qden q)) # 1000000.

Definition cosine_normalize (v : list Q) : list Q :=
  let norm := approx_sqrt (fold_left Qplus (map (fun x => x * x)%Q v) 0%Q) in
  if Qeq_bool norm 0 then v else map (fun x => Qred (x / norm)) v.

(** A process started with [PYTHONHASHSEED=seed] in front of services
    that all work: the plain files hold [sample_text], except the book
    which holds [long_text]; exported documents are short; a chunk of
    30000 characters embeds to the vector of ones and any other text to
    the vector of threes; the store keeps vectors at unit length and
    returns the best [limit] of four hits. *)
Definition sample_world (seed : Z) : World Q :=
  {| py_hash := CPython.str_hash seed;
     drive_files := [hello_item; picture_item; memo_item; book_item];
     drive_list_raises := fun _ => false;
     drive_export := fun _ _ => Some "  too short  "%string;
     drive_get := fun _ file_id =>
       if String.eqb file_id "file-4" then Some long_text else Some sample_text;
     embed_content := fun _ text =>
       Some (repeat (if (len text =? Z.to_nat DEFAULT_MAX_CHARS)%nat then 1%Q else 3%Q)
                    VECTOR_SIZE);
     upsert_raises := fun _ _ => false;
     qdrant_keeps := cosine_normalize;
     qdrant_search := fun _ _ _ limit => Some (take limit sample_hits);
     generate_content := fun _ _ => Some (TextIs "  The document is a test.  ") |}.

(** The embedding service is down. *)
Definition embedding_down_world : World Q :=
  with_embed_content (sample_world 1) (fun _ _ => None).

(** The vector store refuses every upsert. *)
Definition store_down_world : World Q :=
  with_upsert_raises (sample_world 1) (fun _ _ => true).

(** A PDF whose listing entry has neither identifier nor name. *)
Definition nameless_item : Item :=
  {| item_id := None; item_name := None;
     item_mimeType := Some "application/pdf"%string |}.

(** ** Further readings of texts and traces *)

(** The first and the last character of a text. *)
Definition first_char (s : string) : option ascii :=
  match s with
  | EmptyString => None
  | String c _ => Some c
  end.

Fixpoint last_char (s : string) : option ascii :=
  match s with
  | EmptyString => None
  | String c EmptyString => Some c
  | String _ s' => last_char s'
  end.

Section Replay.

Context {F : Type}.
Variable w : World F.

(** The store after the upserts of a trace that started after [now]
    events: an upsert that the store accepted puts its point, as the
    collection keeps it, under its identifier; every other event
    leaves the store alone. *)
Fixpoint replay (now : nat) (evs : list (Event F)) (s : Store F) : Store F :=
  match evs with
  | [] => s
  | EvUpsert p :: rest =>
      replay (S now) rest (if upsert_raises w now p then s else <[id p := stored w p]> s)
  | _ :: rest => replay (S now) rest s
  end.

End Replay.

(** The number of events of a kind in a trace. *)
Definition count_events {F : Type} (kind : Event F -> bool) (evs : list (Event F)) : nat :=
  length (List.filter kind evs).

(** ** The host: token file, credentials, environment, console *)

(** The attributes of a credentials object that the code reads:
    [creds.valid], [creds.expired] and whether [creds.refresh_token]
    is set. *)
Record Creds : Type := {
  valid : bool;
  expired : bool;
  refresh_token : bool
}.

(** The file [token.pickle]: absent, holding a pickled value ([None]
    or credentials), or present but not loadable. *)
Inductive TokenFile : Type :=
| NoFile
| Pickled (creds : option Creds)
| Unloadable.

(** The Drive service handle that [build] returns for credentials. *)
Record Service : Type := { service_creds : Creds }.

(** The host of the process.  [None] or [true] is a call that raises:
    - [oauth_refresh] is [creds.refresh(Request())], giving the
      refreshed credentials;
    - [oauth_flow] is the consent flow in the browser
      ([from_client_secrets_file] and [run_local_server]);
    - [token_write_raises] is the writing of [token.pickle], after
      which the file is [token_after_failed_write] when it failed;
    - [drive_build_raises] is [build("drive", "v3", credentials=creds)];
    - [api_key] is [os.getenv("GOOGLE_API_KEY")]. *)
Record Host : Type := {
  token_file : TokenFile;
  oauth_refresh : Creds -> option Creds;
  oauth_flow : option Creds;
  token_write_raises : Creds -> bool;
  token_after_failed_write : TokenFile;
  drive_build_raises : Creds -> bool;
  api_key : option string
}.

(** What the host is asked to do, and the lines printed about it. *)
Inductive HostEvent : Type :=
| HvTokenLoad
| HvRefresh (creds : Creds)
| HvFlow
| HvTokenWrite (creds : Creds)
| HvBuild (creds : Creds)
| HvConfigure (key : string)
| HvPrintAuthError.

Record AuthOut : Type := {
  auth_service : option Service;
  auth_events : list HostEvent;
  auth_token : TokenFile
}.

(** [if os.path.exists(token_file): creds = pickle.load(token)]: the
    value of [creds] and the events, or [None] when loading raises. *)
Definition load_token (file : TokenFile) : option (option Creds * list HostEvent) :=
  match file with
  | NoFile => Some (None, [])
  | Pickled creds => Some (creds, [HvTokenLoad])
  | Unloadable => None
  end.

(** [creds and creds.expired and creds.refresh_token] *)
Definition refreshable (creds : option Creds) : option Creds :=
  match creds with
  | Some c => if expired c && refresh_token c then Some c else None
  | None => None
  end.

(** The handler of [authenticate_gdrive]: print and return [None]. *)
Definition auth_failed (evs : list HostEvent) (file : TokenFile) : AuthOut :=
  {| auth_service := None; auth_events := evs ++ [HvPrintAuthError];
     auth_token := file |}.

(** [return build("drive", "v3", credentials=creds)] *)
Definition build_service (h : Host) (creds : Creds) (evs : list HostEvent)
    (file : TokenFile) : AuthOut :=
  if drive_build_raises h creds then auth_failed (evs ++ [HvBuild creds]) file
  else {| auth_service := Some {| service_creds := creds |};
          auth_events := evs ++ [HvBuild creds]; auth_token := file |}.

(** The branch taken when the saved credentials are missing or not
    valid: refresh them or run the consent flow, save the result, and
    build the service. *)
Definition login_and_save (h : Host) (creds : option Creds)
    (loaded : list HostEvent) : AuthOut :=
  let obtained :=
    match refreshable creds with
    | Some c => (oauth_refresh h c, loaded ++ [HvRefresh c])
    | None => (oauth_flow h, loaded ++ [HvFlow])
    end in
  match fst obtained with
  | None => auth_failed (snd obtained) (token_file h)
  | Some creds' =>
      if token_write_raises h creds' then
        auth_failed (snd obtained ++ [HvTokenWrite creds'])
          (token_after_failed_write h)
      else
        build_service h creds' (snd obtained ++ [HvTokenWrite creds'])
          (Pickled (Some creds'))
  end.

(** [authenticate_gdrive()] *)
Definition authenticate_gdrive (h : Host) : AuthOut :=
  match load_token (token_file h) with
  | None => auth_failed [HvTokenLoad] (token_file h)
  | Some (creds, loaded) =>
      match creds with
      | Some c =>
          if valid c then build_service h c loaded (token_file h)
          else login_and_save h creds loaded
      | None => login_and_save h creds loaded
      end
  end.

(** [init_gemini()]: the key that [genai.configure] receives, or the
    [ValueError] for a missing or empty key. *)
Definition init_gemini (h : Host) : Res string :=
  match api_key h with
  | Some key => if truthy key then Ret key else Raise ValueError
  | None => Raise ValueError
  end.

(** ** The command-line driver *)

(** [c.lower()] and [s.lower()] on the characters below 256: the
    letters A-Z and the accented capitals other than the multiplication
    sign move up by 32. *)
Definition lower_char (c : ascii) : ascii :=
  let n := nat_of_ascii c in
  if ((65 <=? n) && (n <=? 90)
      || (192 <=? n) && (n <=? 222) && negb (n =? 215))%nat
  then ascii_of_nat (n + 32)
  else c.

Fixpoint lower (s : string) : string :=
  match s with
  | EmptyString => EmptyString
  | String c s' => String (lower_char c) (lower s')
  end.

(** [query.lower() in ('quit', 'exit')] *)
Definition is_quit (query : string) : bool :=
  (String.eqb (lower query) "quit" || String.eqb (lower query) "exit")%bool.

(** [sep.join(parts)] *)
Fixpoint join_with (sep : string) (parts : list string) : string :=
  match parts with
  | [] => EmptyString
  | [p] => p
  | p :: ps => p +:+ sep +:+ join_with sep ps
  end.

(** One call of [input()]: a line, a keyboard interrupt, or another
    failure of the read (the end of the input among them). *)
Inductive Input : Type :=
| Line (s : string)
| Interrupt
| InputFails.

(** How a run of [main] stands: returned after a failed start, left
    with the exception of the indexing pass, left the loop, or still
    in the loop when the fuel ran out. *)
Inductive MainEnd : Type :=
| AuthenticationFailed
| GeminiNotInitialized
| IndexingRaised (e : Exn)
| SaidGoodbye
| StillAsking.

(** How the body of the [try] ends when no interrupt arrives: at its
    last statement or at [continue], at [break], or with an exception
    that [except Exception] catches. *)
Inductive BodyEnd : Type :=
| BodyGoesOn
| BodyBreaks
| BodyRaises.

Section CommandLine.

Context {F : Type} `{Float F}.

(** What [main] prints itself. *)
Inductive CliMsg : Type :=
| CliInitializing
| CliAuthenticating
| CliAuthFailed
| CliInitQdrant
| CliInitGemini
| CliGeminiError
| CliProcessingFiles
| CliReady
| CliGoodbye
| CliGoodbyeInterrupted
| CliNoRelevant
| CliSearching
| CliAnswer (answer : string)
| CliSources
| CliSource (i : nat) (file_name : string) (score : F)
| CliErrorOccurred.

(** The trace of [main]: what the host is asked, the events of the
    pipeline, the reads of the console and the prints. *)
Inductive CliEvent : Type :=
| CliHost (e : HostEvent)
| CliCore (e : Event F)
| CliInput
| CliPrint (m : CliMsg).

(** A run of [main]: how it stands, its trace, the store of its Qdrant
    client (empty when [main] returned before making one) and the
    number of inputs it read. *)
Record MainOut : Type := {
  main_end : MainEnd;
  main_events : list CliEvent;
  main_store : Store F;
  inputs_read : nat
}.

(** What the body of the [try] does after a read, left to itself: how
    it ends, its events, and the clock and the store after it. *)
Record Body : Type := {
  body_end : BodyEnd;
  body_events : list CliEvent;
  body_clock : nat;
  body_store : Store F
}.

(** [init_qdrant()]: a new in-memory client has no collection, so
    [drive_docs] is created, empty. *)
Definition init_qdrant : Store F := ∅.

(** [f"From {r.payload['name']}:\n{r.payload['content']}"] *)
Definition source_block (r : ScoredPoint F) : string :=
  "From " +:+ name (sp_payload r) +:+ ":" +:+ nl +:+ content (sp_payload r).

(** ["\n\n".join([... for r in results])] *)
Definition cli_context (results : list (ScoredPoint F)) : string :=
  join_with (nl +:+ nl) (map source_block results).

(** The lines of [for i, result in enumerate(results, 1)]. *)
Fixpoint source_lines (i : nat) (results : list (ScoredPoint F)) : list CliEvent :=
  match results with
  | [] => []
  | r :: rest =>
      CliPrint (CliSource i (name (sp_payload r)) (score r)) :: source_lines (S i) rest
  end.

Variable w : World F.
Variable inputs : nat -> Input.

(** When a [KeyboardInterrupt] arrives after a line was read:
    [interrupts next = Some k] says that in the iteration of the read
    number [next] it arrives while the body of the [try] runs, when
    [k] events of the body have happened (at the end of the body when
    it has fewer); [None] that none arrives there.  The handlers
    [except Exception] of [get_embedding], [search_qdrant] and
    [generate_answer] do not catch it, so it reaches
    [except KeyboardInterrupt] of the loop. *)
Variable interrupts : nat -> option nat.

(** What follows the events [evs] of an iteration that goes on. *)
Definition and_then (evs : list CliEvent) (o : MainOut) : MainOut :=
  {| main_end := main_end o; main_events := evs ++ main_events o;
     main_store := main_store o; inputs_read := inputs_read o |}.

(** The body of the [try] once [input()] returned [raw], when no
    interrupt arrives. *)
Definition try_body (raw : string) (now : nat) (st : Store F) : Body :=
  let query := strip raw in
  if is_quit query then
    {| body_end := BodyBreaks; body_events := [CliPrint CliGoodbye];
       body_clock := now; body_store := st |}
  else if negb (truthy query) then
    {| body_end := BodyGoesOn; body_events := []; body_clock := now;
       body_store := st |}
  else
    let found := search_qdrant_default w query now st in
    let now1 := (now + length (events found))%nat in
    match res found with
    | Raise _ =>
        {| body_end := BodyRaises; body_events := map CliCore (events found);
           body_clock := now1; body_store := store_after found |}
    | Ret [] =>
        {| body_end := BodyGoesOn;
           body_events := map CliCore (events found) ++ [CliPrint CliNoRelevant];
           body_clock := now1; body_store := store_after found |}
    | Ret results =>
        let answered :=
          generate_answer w query (cli_context results) now1 (store_after found) in
        let now2 := (now1 + length (events answered))%nat in
        match res answered with
        | Raise _ =>
            {| body_end := BodyRaises;
               body_events := map CliCore (events found) ++ [CliPrint CliSearching]
                              ++ map CliCore (events answered);
               body_clock := now2; body_store := store_after answered |}
        | Ret answer =>
            {| body_end := BodyGoesOn;
               body_events := map CliCore (events found) ++ [CliPrint CliSearching]
                              ++ map CliCore (events answered)
                              ++ [CliPrint (CliAnswer answer); CliPrint CliSources]
                              ++ source_lines 1%nat results;
               body_clock := now2; body_store := store_after answered |}
        end
    end.

(** The loop [while True] of [main], for at most [fuel] iterations:
    [next] inputs were read and [now] events of the pipeline came
    before.  An interrupt at the read or in the body is caught by
    [except KeyboardInterrupt], which prints and leaves the loop; any
    other exception by [except Exception], which prints, and the loop
    goes on. *)
Fixpoint main_loop (fuel next now : nat) (st : Store F) : MainOut :=
  match fuel with
  | O => {| main_end := StillAsking; main_events := []; main_store := st;
            inputs_read := next |}
  | S fuel' =>
      match inputs next with
      | Interrupt =>
          {| main_end := SaidGoodbye;
             main_events := [CliInput; CliPrint CliGoodbyeInterrupted];
             main_store := st; inputs_read := S next |}
      | InputFails =>
          and_then [CliInput; CliPrint CliErrorOccurred]
            (main_loop fuel' (S next) now st)
      | Line raw =>
          let body := try_body raw now st in
          match interrupts next with
          | Some k =>
              {| main_end := SaidGoodbye;
                 main_events := CliInput :: take k (body_events body)
                                ++ [CliPrint CliGoodbyeInterrupted];
                 main_store := body_store body; inputs_read := S next |}
          | None =>
              match body_end body with
              | BodyBreaks =>
                  {| main_end := SaidGoodbye;
                     main_events := CliInput :: body_events body;
                     main_store := body_store body; inputs_read := S next |}
              | BodyGoesOn =>
                  and_then (CliInput :: body_events body)
                    (main_loop fuel' (S next) (body_clock body) (body_store body))
              | BodyRaises =>
                  and_then (CliInput :: body_events body ++ [CliPrint CliErrorOccurred])
                    (main_loop fuel' (S next) (body_clock body) (body_store body))
              end
          end
      end
  end.

Variable h : Host.

(** [main()], its loop run for at most [fuel] iterations. *)
Definition main (fuel : nat) : MainOut :=
  let auth := authenticate_gdrive h in
  let started :=
    [CliPrint CliInitializing; CliPrint CliAuthenticating]
    ++ map CliHost (auth_events auth) in
  match auth_service auth with
  | None =>
      {| main_end := AuthenticationFailed;
         main_events := started ++ [CliPrint CliAuthFailed];
         main_store := ∅; inputs_read := 0%nat |}
  | Some _ =>
      let qdrant_client := init_qdrant in
      match init_gemini h with
      | Raise _ =>
          {| main_end := GeminiNotInitialized;
             main_events := started ++ [CliPrint CliInitQdrant; CliPrint CliInitGemini;
                                        CliPrint CliGeminiError];
             main_store := qdrant_client; inputs_read := 0%nat |}
      | Ret key =>
          let indexed := process_drive_files w 0%nat qdrant_client in
          let prepared :=
            started ++ [CliPrint CliInitQdrant; CliPrint CliInitGemini;
                        CliHost (HvConfigure key); CliPrint CliProcessingFiles]
            ++ map CliCore (events indexed) in
          match res indexed with
          | Raise e =>
              {| main_end := IndexingRaised e; main_events := prepared;
                 main_store := store_after indexed; inputs_read := 0%nat |}
          | Ret _ =>
              and_then (prepared ++ [CliPrint CliReady])
                (main_loop fuel 0%nat (length (events indexed)) (store_after indexed))
          end
      end
  end.

End CommandLine.

Arguments CliMsg F : clear implicits.
Arguments CliEvent F : clear implicits.
Arguments MainOut F : clear implicits.
Arguments Body F : clear implicits.


(** Whether a read ends the loop: an interrupt, or a line that is
    [quit] or [exit] once stripped and lowered. *)
Definition ends_loop (i : Input) : bool :=
  match i with
  | Interrupt => true
  | Line raw => is_quit (strip raw)
  | InputFails => false
  end.

(** Whether an iteration leaves the loop: its read is an interrupt
    or a goodbye line, or an interrupt arrives in its body after a
    line was read. *)
Definition leaves_loop (i : Input) (interrupt : option nat) : bool :=
  match i with
  | Interrupt => true
  | Line raw =>
      is_quit (strip raw)
      || match interrupt with
         | Some _ => true
         | None => false
         end
  | InputFails => false
  end.

(** The last line of an iteration that leaves the loop. *)
Definition goodbye_line {F : Type} (i : Input) (interrupt : option nat) : CliMsg F :=
  match i, interrupt with
  | Line _, None => CliGoodbye
  | _, _ => CliGoodbyeInterrupted
  end.

(** Kinds of events of the driver. *)
Definition is_cli_input {F : Type} (e : CliEvent F) : bool :=
  match e with CliInput => true | _ => false end.

Definition is_cli_core {F : Type} (e : CliEvent F) : bool :=
  match e with CliCore _ => true | _ => false end.

Definition is_cli_answer {F : Type} (e : CliEvent F) : bool :=
  match e with CliPrint (CliAnswer _) => true | _ => false end.

Definition is_cli_searching {F : Type} (e : CliEvent F) : bool :=
  match e with CliPrint CliSearching => true | _ => false end.

Definition is_cli_no_relevant {F : Type} (e : CliEvent F) : bool :=
  match e with CliPrint CliNoRelevant => true | _ => false end.

Definition is_cli_ready {F : Type} (e : CliEvent F) : bool :=
  match e with CliPrint CliReady => true | _ => false end.

Definition is_cli_generate {F : Type} (e : CliEvent F) : bool :=
  match e with CliCore (EvGenerate _) => true | _ => false end.

Definition is_cli_search {F : Type} (e : CliEvent F) : bool :=
  match e with CliCore (EvSearch _ _) => true | _ => false end.

Definition is_cli_embed {F : Type} (e : CliEvent F) : bool :=
  match e with CliCore (EvEmbed _) => true | _ => false end.

Definition is_cli_interrupted {F : Type} (e : CliEvent F) : bool :=
  match e with CliPrint CliGoodbyeInterrupted => true | _ => false end.

(** The events a question can cause in the pipeline: an embedding, a
    search, a generation, a printed line. *)
Definition question_event {F : Type} (e : Event F) : bool :=
  match e with
  | EvEmbed _ | EvSearch _ _ | EvGenerate _ | EvPrint _ => true
  | _ => false
  end.

Definition count_cli {F : Type} (kind : CliEvent F -> bool) (evs : list (CliEvent F)) : nat :=
  length (filter kind evs).

(** ** Reading the trace of the loop *)

(** Every call of the trace on the pipeline is one a question makes. *)
Definition only_questions {F : Type} (evs : list (CliEvent F)) : Prop :=
  Forall (fun e => forall c, e = CliCore c -> question_event c = true) evs.

(** The order of the steps of one question, in counts: at most one
    embedding, then at most one search, then the [Searching] line,
    then at most one generation, then the answer; the
    [No relevant information found.] line or the answer only after
    the embedding. *)
Definition question_order {F : Type} (evs : list (CliEvent F)) : Prop :=
  (count_cli is_cli_answer evs <= count_cli is_cli_generate evs)%nat
  /\ (count_cli is_cli_generate evs <= count_cli is_cli_searching evs)%nat
  /\ (count_cli is_cli_searching evs <= count_cli is_cli_search evs)%nat
  /\ (count_cli is_cli_search evs <= count_cli is_cli_embed evs)%nat
  /\ (count_cli is_cli_embed evs <= 1)%nat
  /\ (count_cli is_cli_no_relevant evs + count_cli is_cli_answer evs
      <= count_cli is_cli_embed evs)%nat.

(** The steps of a question that was not interrupted: every embedded
    question got its reaction, every generation its answer. *)
Definition question_settled {F : Type} (evs : list (CliEvent F)) : Prop :=
  count_cli is_cli_answer evs = count_cli is_cli_generate evs
  /\ count_cli is_cli_searching evs = count_cli is_cli_generate evs
  /\ (count_cli is_cli_no_relevant evs + count_cli is_cli_answer evs
      = count_cli is_cli_embed evs)%nat.

(** [s.isspace()] or [s == ""]: only white space. *)
Fixpoint blank (s : string) : bool :=
  match s with
  | EmptyString => true
  | String c s' => isspace c && blank s'
  end.

(** ** The Streamlit page ([streamlist.py])

    Streamlit runs the script from the top at every interaction.
    [st.session_state] is what lasts from one run to the next; a
    button is [True] only in the run that its click caused;
    [st.stop()] ends the run; [st.experimental_rerun()] ends it and
    asks for another. *)

(** [st.session_state]: each of the five keys is absent ([None]) or
    holds a value. *)
Record SessionState (F : Type) : Type := {
  is_authenticated : option bool;
  drive_service : option (option Service);
  qdrant_client : option (option (Store F));
  gemini_initialized : option bool;
  files_indexed : option bool
}.

Arguments is_authenticated {F} _.
Arguments drive_service {F} _.
Arguments qdrant_client {F} _.
Arguments gemini_initialized {F} _.
Arguments files_indexed {F} _.

(** The five values once every key is present. *)
Record Page (F : Type) : Type := {
  authenticated : bool;
  service : option Service;
  client : option (Store F);
  gemini_ready : bool;
  indexed : bool
}.

Arguments authenticated {F} _.
Arguments service {F} _.
Arguments client {F} _.
Arguments gemini_ready {F} _.
Arguments indexed {F} _.

(** The widgets of one run: whether the click on [Login] or on
    [Logout] caused it, and the text in the question box. *)
Record Widgets : Type := {
  login_clicked : bool;
  query_text : string;
  logout_clicked : bool
}.

(** What the page shows. *)
Inductive UiMsg (F : Type) : Type :=
| UiTitle
| UiLoginHeader
| UiLoginButton
| UiLoginSuccess
| UiLoginFailed
| UiAccountInfo
| UiGeminiFailed
| UiIndexed
| UiIndexingFailed
| UiSearchHeader
| UiQueryInput
| UiAnswerHeader
| UiWrite (answer : string)
| UiSourcesHeader
| UiSource (idx : nat) (file_name : string) (score : F)
| UiNoRelevant
| UiLogoutButton.

Arguments UiTitle {F}.
Arguments UiLoginHeader {F}.
Arguments UiLoginButton {F}.
Arguments UiLoginSuccess {F}.
Arguments UiLoginFailed {F}.
Arguments UiAccountInfo {F}.
Arguments UiGeminiFailed {F}.
Arguments UiIndexed {F}.
Arguments UiIndexingFailed {F}.
Arguments UiSearchHeader {F}.
Arguments UiQueryInput {F}.
Arguments UiAnswerHeader {F}.
Arguments UiWrite {F} answer.
Arguments UiSourcesHeader {F}.
Arguments UiSource {F} idx file_name score.
Arguments UiNoRelevant {F}.
Arguments UiLogoutButton {F}.

(** The trace of a run of the script. *)
Inductive UiEvent (F : Type) : Type :=
| UiHost (e : HostEvent)
| UiCore (e : Event F)
| UiShow (m : UiMsg F).

Arguments UiHost {F} e.
Arguments UiCore {F} e.
Arguments UiShow {F} m.

(** How a run ends: at the end of the script, at [st.stop()], at
    [st.experimental_rerun()], or with an exception that nothing in
    the script catches. *)
Inductive RunEnd : Type :=
| ScriptDone
| Stopped
| RerunAsked
| Uncaught (e : Exn).

Record ScriptOut (F : Type) : Type := {
  run_end : RunEnd;
  ui_events : list (UiEvent F);
  session_after : SessionState F;
  clock_after : nat
}.

Arguments run_end {F} _.
Arguments ui_events {F} _.
Arguments session_after {F} _.
Arguments clock_after {F} _.

(** A part of the script that works on the store: how it ends, what
    it shows and calls, and the clock and the store after it. *)
Record Part (F : Type) : Type := {
  part_res : Res unit;
  part_events : list (UiEvent F);
  part_clock : nat;
  part_store : Store F
}.

Arguments part_res {F} _.
Arguments part_events {F} _.
Arguments part_clock {F} _.
Arguments part_store {F} _.

Section WebPage.

Context {F : Type} `{Float F}.

(** The session with no key, as at the first run and after the five
    [pop]s of the logout. *)
Definition cleared : SessionState F :=
  {| is_authenticated := None; drive_service := None; qdrant_client := None;
     gemini_initialized := None; files_indexed := None |}.

(** [if key not in st.session_state: st.session_state.key = dflt] *)
Definition or_default {A : Type} (value : option A) (dflt : A) : A :=
  match value with
  | Some v => v
  | None => dflt
  end.

(** The five values after the lines that initialize the session state. *)
Definition initialize (sess : SessionState F) : Page F :=
  {| authenticated := or_default (is_authenticated sess) false;
     service := or_default (drive_service sess) None;
     client := or_default (qdrant_client sess) None;
     gemini_ready := or_default (gemini_initialized sess) false;
     indexed := or_default (files_indexed sess) false |}.

(** The session state that holds the five values. *)
Definition present (p : Page F) : SessionState F :=
  {| is_authenticated := Some (authenticated p);
     drive_service := Some (service p);
     qdrant_client := Some (client p);
     gemini_initialized := Some (gemini_ready p);
     files_indexed := Some (indexed p) |}.

(** [f"File: {r.payload['name']}\n{r.payload['content']}"] *)
Definition web_source_block (r : ScoredPoint F) : string :=
  "File: " +:+ name (sp_payload r) +:+ nl +:+ content (sp_payload r).

(** ["\n\n".join([... for r in results])] *)
Definition web_context (results : list (ScoredPoint F)) : string :=
  join_with (nl +:+ nl) (map web_source_block results).

(** The lines of [for idx, res in enumerate(results, 1)]. *)
Fixpoint web_source_lines (idx : nat) (results : list (ScoredPoint F))
  : list (UiEvent F) :=
  match results with
  | [] => []
  | r :: rest =>
      UiShow (UiSource idx (name (sp_payload r)) (score r))
      :: web_source_lines (S idx) rest
  end.

Variable w : World F.

(** [if query: ...]: the search and the answer. *)
Definition search_part (query : string) (now : nat) (st : Store F) : Part F :=
  if negb (truthy query) then
    {| part_res := Ret tt; part_events := []; part_clock := now; part_store := st |}
  else
    let found := search_qdrant_default w query now st in
    let now1 := (now + length (events found))%nat in
    match res found with
    | Raise e =>
        {| part_res := Raise e; part_events := map UiCore (events found);
           part_clock := now1; part_store := store_after found |}
    | Ret [] =>
        {| part_res := Ret tt;
           part_events := map UiCore (events found) ++ [UiShow UiNoRelevant];
           part_clock := now1; part_store := store_after found |}
    | Ret results =>
        let answered :=
          generate_answer w query (web_context results) now1 (store_after found) in
        let now2 := (now1 + length (events answered))%nat in
        match res answered with
        | Raise e =>
            {| part_res := Raise e;
               part_events := map UiCore (events found) ++ map UiCore (events answered);
               part_clock := now2; part_store := store_after answered |}
        | Ret answer =>
            {| part_res := Ret tt;
               part_events :=
                 map UiCore (events found) ++ map UiCore (events answered)
                 ++ [UiShow UiAnswerHeader; UiShow (UiWrite answer);
                     UiShow UiSourcesHeader]
                 ++ web_source_lines 1%nat results;
               part_clock := now2; part_store := store_after answered |}
        end
    end.

(** [process_drive_files(st.session_state.drive_service, ...)]: with
    no service in the session, [service.files()] raises inside the
    [try] of the pass, whose handler prints and raises again. *)
Definition indexing_pass (p : Page F) (now : nat) (st : Store F) : Out F unit :=
  match service p with
  | Some _ => process_drive_files w now st
  | None =>
      {| res := Raise ServiceError; events := [EvPrint MsgErrorProcessing];
         store_after := st |}
  end.

(** [if not st.session_state.files_indexed: ...]; the session flag is
    set by the script when the part returns. *)
Definition index_part (p : Page F) (now : nat) (st : Store F) : Part F :=
  if indexed p then
    {| part_res := Ret tt; part_events := []; part_clock := now; part_store := st |}
  else
    let pass := indexing_pass p now st in
    {| part_res := res pass;
       part_events :=
         map UiCore (events pass)
         ++ [UiShow (match res pass with
                     | Ret _ => UiIndexed
                     | Raise _ => UiIndexingFailed
                     end)];
       part_clock := (now + length (events pass))%nat;
       part_store := store_after pass |}.

Variable h : Host.

(** The branch of the script for a session that is not authenticated. *)
Definition login_page (wd : Widgets) (now : nat) (p : Page F) : ScriptOut F :=
  let shown := [UiShow UiTitle; UiShow UiLoginHeader; UiShow UiLoginButton] in
  if login_clicked wd then
    let auth := authenticate_gdrive h in
    match auth_service auth with
    | Some s =>
        {| run_end := ScriptDone;
           ui_events := shown ++ map UiHost (auth_events auth) ++ [UiShow UiLoginSuccess];
           session_after :=
             present {| authenticated := true; service := Some s; client := client p;
                        gemini_ready := gemini_ready p; indexed := indexed p |};
           clock_after := now |}
    | None =>
        {| run_end := ScriptDone;
           ui_events := shown ++ map UiHost (auth_events auth) ++ [UiShow UiLoginFailed];
           session_after := present p; clock_after := now |}
    end
  else
    {| run_end := ScriptDone; ui_events := shown; session_after := present p;
       clock_after := now |}.

(** The branch for an authenticated session. *)
Definition account_page (wd : Widgets) (now : nat) (p : Page F) : ScriptOut F :=
  let shown := [UiShow UiTitle; UiShow UiAccountInfo] in
  let st := match client p with
            | None => init_qdrant
            | Some c => c
            end in
  let configured :=
    if gemini_ready p then Ret []
    else match init_gemini h with
         | Ret key => Ret [UiHost (HvConfigure key)]
         | Raise e => Raise e
         end in
  match configured with
  | Raise _ =>
      {| run_end := Stopped;
         ui_events := shown ++ [UiShow UiGeminiFailed];
         session_after :=
           present {| authenticated := authenticated p; service := service p;
                      client := Some st; gemini_ready := gemini_ready p;
                      indexed := indexed p |};
         clock_after := now |}
  | Ret configure =>
      let indexing := index_part p now st in
      match part_res indexing with
      | Raise _ =>
          {| run_end := Stopped;
             ui_events := shown ++ configure ++ part_events indexing;
             session_after :=
               present {| authenticated := authenticated p; service := service p;
                          client := Some (part_store indexing); gemini_ready := true;
                          indexed := indexed p |};
             clock_after := part_clock indexing |}
      | Ret _ =>
          let asked :=
            search_part (query_text wd) (part_clock indexing) (part_store indexing) in
          let page :=
            {| authenticated := authenticated p; service := service p;
               client := Some (part_store asked); gemini_ready := true;
               indexed := true |} in
          let searched :=
            shown ++ configure ++ part_events indexing
            ++ [UiShow UiSearchHeader; UiShow UiQueryInput] ++ part_events asked in
          match part_res asked with
          | Raise e =>
              {| run_end := Uncaught e; ui_events := searched;
                 session_after := present page; clock_after := part_clock asked |}
          | Ret _ =>
              if logout_clicked wd then
                {| run_end := RerunAsked;
                   ui_events := searched ++ [UiShow UiLogoutButton];
                   session_after := cleared; clock_after := part_clock asked |}
              else
                {| run_end := ScriptDone;
                   ui_events := searched ++ [UiShow UiLogoutButton];
                   session_after := present page; clock_after := part_clock asked |}
          end
      end
  end.

(** One run of the script. *)
Definition script (wd : Widgets) (now : nat) (sess : SessionState F) : ScriptOut F :=
  if authenticated (initialize sess)
  then account_page wd now (initialize sess)
  else login_page wd now (initialize sess).

End WebPage.

(** Kinds of events of the page. *)
Definition is_ui_core {F : Type} (e : UiEvent F) : bool :=
  match e with UiCore _ => true | _ => false end.

Definition is_ui_indexing {F : Type} (e : UiEvent F) : bool :=
  match e with
  | UiCore (EvList _ _) | UiCore (EvExport _ _) | UiCore (EvGetMedia _)
  | UiCore (EvUpsert _) => true
  | _ => false
  end.

Definition is_ui_question {F : Type} (e : UiEvent F) : bool :=
  match e with
  | UiCore (EvSearch _ _) | UiCore (EvGenerate _) => true
  | _ => false
  end.

Definition is_ui_logout_button {F : Type} (e : UiEvent F) : bool :=
  match e with UiShow UiLogoutButton => true | _ => false end.

Definition is_ui_host {F : Type} (e : UiEvent F) : bool :=
  match e with UiHost _ => true | _ => false end.

Definition count_ui {F : Type} (kind : UiEvent F -> bool) (evs : list (UiEvent F)) : nat :=
  length (filter kind evs).

(** What the script keeps true of the session: a flag is set only
    after what it stands for was stored. *)
Definition coherent {F : Type} (p : Page F) : Prop :=
  (authenticated p = true -> service p <> None)
  /\ (client p <> None -> authenticated p = true)
  /\ (gemini_ready p = true -> client p <> None)
  /\ (indexed p = true -> gemini_ready p = true).

(** Whether [init_gemini] is not called or returns. *)
Definition gemini_starts {F : Type} (h : Host) (p : Page F) : bool :=
  gemini_ready p
  || match api_key h with
     | Some key => truthy key
     | None => false
     end.

(** The store the account page works on. *)
Definition page_store {F : Type} (p : Page F) : Store F :=
  match client p with
  | None => ∅
  | Some c => c
  end.

(** The call of [genai.configure] in a run of the account page. *)
Definition configure_events {F : Type} (h : Host) (p : Page F) : list (UiEvent F) :=
  if gemini_ready p then []
  else match api_key h with
       | Some key => [UiHost (HvConfigure key)]
       | None => []
       end.

(** The calls a question makes on the store and on the model. *)
Definition is_query {F : Type} (e : Event F) : bool :=
  match e with
  | EvSearch _ _ | EvGenerate _ => true
  | _ => false
  end.

(** A host with no saved token, whose consent flow and writes work,
    and the same host without the API key. *)
Definition sample_creds : Creds :=
  {| valid := true; expired := false; refresh_token := true |}.

Definition sample_host : Host :=
  {| token_file := NoFile;
     oauth_refresh := fun c => Some c;
     oauth_flow := Some sample_creds;
     token_write_raises := fun _ => false;
     token_after_failed_write := NoFile;
     drive_build_raises := fun _ => false;
     api_key := Some "key"%string |}.

Definition keyless_host : Host :=
  {| token_file := Pickled (Some sample_creds);
     oauth_refresh := fun c => Some c;
     oauth_flow := Some sample_creds;
     token_write_raises := fun _ => false;
     token_after_failed_write := NoFile;
     drive_build_raises := fun _ => false;
     api_key := None |}.

(** A session after a login, before the first run of the account page. *)
Definition logged_in_session : SessionState Q :=
  {| is_authenticated := Some true;
     drive_service := Some (Some {| service_creds := sample_creds |});
     qdrant_client := Some None;
     gemini_initialized := Some false;
     files_indexed := Some false |}.

(** No interrupt while a body runs, and one during the first call of
    the first body. *)
Definition no_interrupts (n : nat) : option nat := None.

Definition early_interrupt (n : nat) : option nat :=
  match n with
  | 0%nat => Some 1%nat
  | _ => None
  end.

(** The reads of a short conversation at the console. *)
Definition sample_inputs (n : nat) : Input :=
  match n with
  | 0%nat => Line "  What is this document about? "
  | 1%nat => InputFails
  | 2%nat => Line "   "
  | 3%nat => Line " Quit"
  | _ => Line "What else?"
  end.

(** ** Proof steps *)

(** Splits a statement about the ends of [main] into its cases and
    closes those that are equalities between constructors. *)
Ltac split_cases :=
  repeat match goal with
    | |- _ /\ _ => split
    | |- _ <-> _ => split
    | |- forall _, _ => intro
    | H : _ /\ _ |- _ => destruct H
    | H : _ \/ _ |- _ => destruct H
    | H : ex _ |- _ => destruct H
    end;
  try congruence; try reflexivity; auto.

(** * Properties *)

(** ** Strings and slices *)

Section StringFacts.

Lemma append_cons (c : ascii) (a b : string) :
  String.append (String c a) b = String c (String.append a b).
Proof. reflexivity. Qed.

Lemma substring_nil (i n : nat) : substring i n EmptyString = EmptyString.
Proof. destruct i, n; reflexivity. Qed.

Lemma substring_zero_len (i : nat) (s : string) :
  substring i 0 s = EmptyString.
Proof.
  revert i. induction s as [|c s IH]; intros i.
  - apply substring_nil.
  - destruct i; simpl; [reflexivity | apply IH].
Qed.

Lemma substring_all (s : string) (n : nat) :
  (len s <= n)%nat -> substring 0 n s = s.
Proof.
  revert n. induction s as [|c s IH]; intros n Hn.
  - apply substring_nil.
  - unfold len in *. simpl in Hn. destruct n; [lia|]. simpl. f_equal. apply IH. lia.
Qed.

Lemma substring_past (s : string) (i n : nat) :
  (len s <= i)%nat -> substring i n s = EmptyString.
Proof.
  revert i. induction s as [|c s IH]; intros i Hi.
  - apply substring_nil.
  - unfold len in *. simpl in Hi. destruct i; [lia|]. simpl. apply IH. lia.
Qed.

Lemma len_substring (s : string) (i n : nat) :
  len (substring i n s) = Nat.min n (len s - i).
Proof.
  revert i n. induction s as [|c s IH]; intros i n.
  - rewrite substring_nil. unfold len. simpl. lia.
  - destruct i as [|i].
    + destruct n as [|n]; [reflexivity|].
      unfold len in *. simpl. specialize (IH 0%nat n). rewrite IH. lia.
    + unfold len in *. simpl. apply IH.
Qed.

(** Two adjacent slices make one. *)
Lemma substring_split (s : string) (i n m : nat) :
  String.append (substring i n s) (substring (i + n) m s)
  = substring i (n + m) s.
Proof.
  revert i n. induction s as [|c s IH]; intros i n.
  - now rewrite !substring_nil.
  - destruct i as [|i].
    + destruct n as [|n]; [reflexivity|].
      simpl. rewrite append_cons. f_equal. apply (IH 0%nat n).
    + simpl. apply IH.
Qed.

(** A slice that reaches the end of the text. *)
Lemma substring_clamp (text : string) (i n : nat) :
  (len text - i <= n)%nat -> substring i n text = substring i (len text - i) text.
Proof.
  intros Hn.
  replace n with ((len text - i) + (n - (len text - i)))%nat by lia.
  rewrite <- substring_split.
  rewrite (substring_past text (i + (len text - i))) by lia.
  clear. induction (substring i (len text - i) text) as [|c s IH]; [reflexivity|].
  rewrite append_cons. now rewrite IH.
Qed.

End StringFacts.

(** ** C1: the chunker *)

Section Chunker.

Variable text : string.
Variable step : nat.
Hypothesis step_pos : (0 < step)%nat.

(** The chunks from position [i] on make up the rest of the text. *)
Lemma join_chunks_from (fuel i : nat) :
  (len text - i <= fuel)%nat ->
  join (map (fun j => slice text j (j + step)) (range_from fuel i (len text) step))
  = substring i (len text - i) text.
Proof.
  revert i. induction fuel as [|fuel IH]; intros i Hfuel.
  - simpl. replace (len text - i)%nat with 0%nat by lia.
    now rewrite substring_zero_len.
  - simpl. destruct (Nat.ltb_spec i (len text)) as [Hlt|Hge].
    + simpl. rewrite IH by lia. unfold slice.
      replace (i + step - i)%nat with step by lia.
      rewrite substring_split.
      destruct (Nat.le_gt_cases step (len text - i)) as [Hs|Hs].
      * f_equal. lia.
      * rewrite substring_clamp by lia. reflexivity.
    + simpl. replace (len text - i)%nat with 0%nat by lia.
      now rewrite substring_zero_len.
Qed.

Lemma range_from_lookup (fuel i k j : nat) :
  range_from fuel i (len text) step !! k = Some j ->
  j = (i + k * step)%nat /\ (j < len text)%nat.
Proof.
  revert i k. induction fuel as [|fuel IH]; intros i k Hk; [discriminate|].
  simpl in Hk. destruct (Nat.ltb_spec i (len text)) as [Hlt|Hge]; [|discriminate].
  destruct k as [|k]; simpl in Hk.
  - injection Hk as <-. lia.
  - apply IH in Hk. lia.
Qed.

Lemma range_from_length (fuel i : nat) :
  (len text - i <= fuel)%nat ->
  length (range_from fuel i (len text) step)
  = ((len text - i + step - 1) / step)%nat.
Proof.
  revert i. induction fuel as [|fuel IH]; intros i Hfuel.
  - simpl. replace (len text - i)%nat with 0%nat by lia.
    symmetry. apply Nat.div_small. lia.
  - simpl. destruct (Nat.ltb_spec i (len text)) as [Hlt|Hge].
    + simpl. rewrite IH by lia.
      destruct (Nat.le_gt_cases step (len text - i)) as [Hs|Hs].
      * replace (len text - i + step - 1)%nat
          with ((len text - (i + step) + step - 1) + 1 * step)%nat by lia.
        rewrite Nat.div_add by lia. lia.
      * replace (len text - (i + step))%nat with 0%nat by lia.
        rewrite (Nat.div_small (0 + step - 1)) by lia.
        simpl. apply (Nat.div_unique _ _ 1%nat (len text - i - 1)%nat); lia.
    + simpl. replace (len text - i)%nat with 0%nat by lia.
      symmetry. apply Nat.div_small. lia.
Qed.

End Chunker.

(** [ceil_div a b] is the least number of pieces of size [b] that
    cover [a]. *)
Lemma ceil_div_least (a b : Z) :
  0 <= a -> 0 < b ->
  a <= ceil_div a b * b /\ forall n : Z, a <= n * b -> ceil_div a b <= n.
Proof.
  intros Ha Hb. unfold ceil_div.
  pose proof (Z.div_mod (a + b - 1) b ltac:(lia)) as Hdm.
  pose proof (Z.mod_pos_bound (a + b - 1) b Hb) as Hmod.
  split; [nia|].
  intros n Hn.
  destruct (Z_lt_le_dec n ((a + b - 1) / b)) as [Hlt|Hle]; [|lia].
  exfalso. nia.
Qed.

(** The chunks of a text for a positive maximum size. *)
Lemma chunk_text_chunks (T : string) (M : Z) :
  0 < M ->
  exists chunks : list string,
    chunk_text T M = Ret chunks
    /\ join chunks = T
    /\ Forall (fun c => Z.of_nat (len c) <= M) chunks
    /\ Z.of_nat (length chunks) = ceil_div (Z.of_nat (len T)) M
    /\ (forall (k : nat) (c : string),
          chunks !! k = Some c ->
          c = substring (k * Z.to_nat M) (len c) T
          /\ (0 < len c)%nat
          /\ (k * Z.to_nat M + len c <= len T)%nat)
    /\ (forall (k1 k2 : nat) (c1 c2 : string),
          (k1 < k2)%nat ->
          chunks !! k1 = Some c1 -> chunks !! k2 = Some c2 ->
          (k1 * Z.to_nat M + len c1 <= k2 * Z.to_nat M)%nat)
    /\ (T = EmptyString -> chunks = []).
Proof.
  intros HM.
  set (m := Z.to_nat M).
  assert (Hm : (0 < m)%nat) by (unfold m; lia).
  assert (HMm : M = Z.of_nat m) by (unfold m; lia).
  exists (map (fun i => slice T i (i + m)) (range_from (len T) 0 (len T) m)).
  assert (Hlook : forall (k : nat) (c : string),
             map (fun i => slice T i (i + m)) (range_from (len T) 0 (len T) m) !! k = Some c ->
             c = substring (k * m) m T /\ (k * m < len T)%nat).
  { intros k c Hk. rewrite list_lookup_fmap in Hk.
    destruct (range_from (len T) 0 (len T) m !! k) as [j|] eqn:Hj; [|discriminate].
    simpl in Hk. injection Hk as <-.
    apply range_from_lookup in Hj; [|exact Hm]. destruct Hj as [-> Hlt]. simpl in *.
    unfold slice. split; [f_equal; lia | lia]. }
  split; [|split; [|split; [|split; [|split; [|split]]]]].
  - unfold chunk_text, py_range0.
    destruct (Z.eqb_spec M 0) as [?|_]; [lia|].
    destruct (Z.ltb_spec M 0) as [?|_]; [lia|]. reflexivity.
  - rewrite (join_chunks_from T m Hm) by lia.
    rewrite Nat.sub_0_r. apply substring_all. lia.
  - apply Forall_forall. intros c Hc.
    apply list_elem_of_lookup in Hc.
    destruct Hc as [k Hk].
    apply Hlook in Hk. destruct Hk as [-> _].
    rewrite len_substring. lia.
  - rewrite length_map, (range_from_length T m Hm) by lia.
    unfold ceil_div. rewrite HMm, Nat2Z.inj_div. f_equal. lia.
  - intros k c Hk. apply Hlook in Hk. destruct Hk as [-> Hlt].
    rewrite len_substring. fold m.
    split; [|lia].
    destruct (Nat.le_gt_cases m (len T - k * m)) as [Hs|Hs].
    + now rewrite Nat.min_l by lia.
    + rewrite Nat.min_r by lia. apply substring_clamp. lia.
  - intros k1 k2 c1 c2 Hk Hc1 Hc2.
    apply Hlook in Hc1. destruct Hc1 as [-> _].
    rewrite len_substring. fold m. nia.
  - intros ->. reflexivity.
Qed.

(** C1. For every text [T] and every maximum size [M > 0],
    [chunk_text T M] returns a list of chunks whose concatenation in
    order is [T]; every chunk has at most [M] characters; there are
    [ceil(len(T)/M)] chunks, the least number of pieces of size [M]
    that cover [T]; the chunk of index [k] is the non-empty substring
    of [T] that starts at position [k*M], so that chunks of different
    indices occupy disjoint ranges of positions, in order; and the
    empty text gives the empty list. *)
Theorem chunk_text_partition (T : string) (M : Z) :
  0 < M ->
  exists chunks : list string,
    chunk_text T M = Ret chunks
    /\ join chunks = T
    /\ Forall (fun c => Z.of_nat (len c) <= M) chunks
    /\ Z.of_nat (length chunks) = ceil_div (Z.of_nat (len T)) M
    /\ Z.of_nat (len T) <= Z.of_nat (length chunks) * M
    /\ (forall n : Z, Z.of_nat (len T) <= n * M -> Z.of_nat (length chunks) <= n)
    /\ (forall (k : nat) (c : string),
          chunks !! k = Some c ->
          c = substring (k * Z.to_nat M) (len c) T
          /\ (0 < len c)%nat
          /\ (k * Z.to_nat M + len c <= len T)%nat)
    /\ (forall (k1 k2 : nat) (c1 c2 : string),
          (k1 < k2)%nat ->
          chunks !! k1 = Some c1 -> chunks !! k2 = Some c2 ->
          (k1 * Z.to_nat M + len c1 <= k2 * Z.to_nat M)%nat)
    /\ (T = EmptyString -> chunks = []).
Proof.
  intros HM.
  destruct (chunk_text_chunks T M HM)
    as (chunks & Hrun & Hjoin & Hsize & Hcount & Hsub & Hord & Hempty).
  destruct (ceil_div_least (Z.of_nat (len T)) M) as [Hcover Hleast]; [lia | exact HM |].
  rewrite <- Hcount in Hcover, Hleast.
  exists chunks.
  split; [exact Hrun|]. split; [exact Hjoin|]. split; [exact Hsize|].
  split; [exact Hcount|]. split; [exact Hcover|]. split; [exact Hleast|].
  split; [exact Hsub|]. split; [exact Hord|exact Hempty].
Qed.

(** The theorem at the text "abcdefg" cut in pieces of three. *)
Lemma chunk_text_partition_witness :
  0 < 3 /\
  exists chunks : list string,
    chunk_text "abcdefg" 3 = Ret chunks /\ join chunks = "abcdefg"%string
    /\ Z.of_nat (length chunks) = 3.
Proof.
  split; [lia|].
  destruct (chunk_text_partition "abcdefg" 3 ltac:(lia))
    as (chunks & Hc & Hj & _ & Hn & _).
  exists chunks. repeat split; [exact Hc | exact Hj | rewrite Hn; reflexivity].
Defined.

(** ** Running computations *)

Section Runs.

Context {F : Type} `{Float F}.

Lemma bind_run_ret {A B : Type} (m : M F A) (k : A -> M F B)
    (now : nat) (s : Store F) (a : A) :
  res (m now s) = Ret a ->
  bind m k now s =
  {| res := res (k a (now + length (events (m now s)))%nat (store_after (m now s)));
     events := events (m now s)
               ++ events (k a (now + length (events (m now s)))%nat (store_after (m now s)));
     store_after :=
       store_after (k a (now + length (events (m now s)))%nat (store_after (m now s))) |}.
Proof. intros Hm. unfold bind. now rewrite Hm. Qed.

Variable w : World F.

(** The two runs of [get_embedding]: the call succeeds, or it raises
    and the handler prints and returns the zero vector. *)
Lemma get_embedding_run (text : string) (now : nat) (s : Store F) :
  get_embedding w text now s =
  match embed_content w now text with
  | Some v =>
      {| res := Ret (Some v); events := [EvEmbed text]; store_after := s |}
  | None =>
      {| res := Ret (Some (np_zeros VECTOR_SIZE));
         events := [EvEmbed text; EvPrint MsgEmbeddingError];
         store_after := s |}
  end.
Proof.
  unfold get_embedding, try_except, bind, call, print, emit, ret. simpl.
  destruct (embed_content w now text); reflexivity.
Qed.

Lemma np_zeros_length (n : nat) : length (np_zeros (F:=F) n) = n.
Proof. apply repeat_length. Qed.

Lemma np_zeros_all_zero (n : nat) : np_all_zero (np_zeros (F:=F) n) = true.
Proof.
  unfold np_all_zero, np_zeros.
  induction n as [|n IH]; simpl; [reflexivity|].
  now rewrite fis_zero_zero, IH.
Qed.

End Runs.

(** ** C6: the embedder's sentinel *)

(** C6. For every text, when the embedding call raises, [get_embedding]
    returns normally: its value is a vector of [VECTOR_SIZE] = 768
    components, every one of them zero; the failure is printed and the
    store is left as it was. *)
Theorem get_embedding_failure_sentinel
    {F : Type} `{Float F} (w : World F) (text : string) (now : nat) (s : Store F) :
  embed_content w now text = None ->
  exists v : list F,
    res (get_embedding w text now s) = Ret (Some v)
    /\ length v = 768%nat
    /\ (forall (j : nat) (x : F), v !! j = Some x -> x = fzero)
    /\ events (get_embedding w text now s) = [EvEmbed text; EvPrint MsgEmbeddingError]
    /\ store_after (get_embedding w text now s) = s.
Proof.
  intros Hfail. exists (np_zeros VECTOR_SIZE).
  rewrite get_embedding_run, Hfail. cbn [res events store_after].
  split; [reflexivity|]. split; [apply np_zeros_length|].
  split; [|split; reflexivity].
  intros j x Hj. unfold np_zeros in Hj.
  apply list_elem_of_lookup_2, list_elem_of_In, repeat_spec in Hj. exact Hj.
Qed.

(** The embedder in front of a service that is down. *)
Lemma get_embedding_failure_sentinel_witness :
  embed_content embedding_down_world 0%nat "abc" = None
  /\ exists v : list Q,
       res (get_embedding embedding_down_world "abc" 0%nat ∅) = Ret (Some v)
       /\ length v = 768%nat.
Proof.
  split; [reflexivity|].
  destruct (get_embedding_failure_sentinel embedding_down_world "abc" 0%nat ∅ eq_refl)
    as (v & Hv & Hlen & _).
  exists v. split; [exact Hv|exact Hlen].
Defined.

(** ** The runs of the service wrappers *)

Section ServiceRuns.

Context {F : Type} `{Float F}.
Variable w : World F.

Lemma read_file_run (file_id mime_type : string) (now : nat) (s : Store F) :
  read_file w file_id mime_type now s =
  let native := startswith mime_type NATIVE_PREFIX in
  let ev := if native then EvExport file_id "text/plain" else EvGetMedia file_id in
  match (if native then drive_export w now file_id else drive_get w now file_id) with
  | Some raw => {| res := Ret (strip raw); events := [ev]; store_after := s |}
  | None =>
      {| res := Ret ""%string; events := [ev; EvPrint (MsgReadError file_id)];
         store_after := s |}
  end.
Proof.
  unfold read_file, try_except, bind, call, print, emit, ret.
  cbv zeta.
  destruct (startswith mime_type NATIVE_PREFIX); cbn [res events store_after].
  - destruct (drive_export w now file_id); reflexivity.
  - destruct (drive_get w now file_id); reflexivity.
Qed.

Lemma search_qdrant_run (query : string) (top_k now : nat) (s : Store F) :
  search_qdrant w query top_k now s =
  match embed_content w now query with
  | None =>
      {| res := Ret [];
         events := [EvEmbed query; EvPrint MsgEmbeddingError;
                    EvPrint MsgInvalidQueryEmbedding];
         store_after := s |}
  | Some v =>
      if np_all_zero v then
        {| res := Ret [];
           events := [EvEmbed query; EvPrint MsgInvalidQueryEmbedding];
           store_after := s |}
      else
        match qdrant_search w (S now) s v top_k with
        | Some matches =>
            {| res := Ret matches; events := [EvEmbed query; EvSearch v top_k];
               store_after := s |}
        | None =>
            {| res := Ret [];
               events := [EvEmbed query; EvSearch v top_k; EvPrint MsgSearchError];
               store_after := s |}
        end
  end.
Proof.
  unfold search_qdrant, try_except.
  destruct (embed_content w now query) as [v|] eqn:Hemb.
  - rewrite (bind_run_ret _ _ _ _ (Some v)) by (now rewrite get_embedding_run, Hemb).
    rewrite get_embedding_run, Hemb. cbn [res events store_after length].
    destruct (np_all_zero v) eqn:Hz.
    + reflexivity.
    + unfold call. cbn [res events store_after length].
      replace (now + 1)%nat with (S now) by lia.
      destruct (qdrant_search w (S now) s v top_k); reflexivity.
  - rewrite (bind_run_ret _ _ _ _ (Some (np_zeros VECTOR_SIZE)))
      by (now rewrite get_embedding_run, Hemb).
    rewrite get_embedding_run, Hemb. cbn [res events store_after length].
    rewrite np_zeros_all_zero. reflexivity.
Qed.

Lemma generate_answer_run (query context : string) (now : nat) (s : Store F) :
  generate_answer w query context now s =
  let prompt := build_prompt query context in
  match generate_content w now prompt with
  | Some (TextIs t) =>
      {| res := Ret (if truthy (strip t) then strip t else FALLBACK_ANSWER);
         events := [EvGenerate prompt]; store_after := s |}
  | Some TextMissing =>
      {| res := Ret FALLBACK_ANSWER; events := [EvGenerate prompt]; store_after := s |}
  | Some TextRaises | None =>
      {| res := Ret ERROR_ANSWER;
         events := [EvGenerate prompt; EvPrint MsgErrorGenerating];
         store_after := s |}
  end.
Proof.
  unfold generate_answer, try_except, bind, call, print, emit, ret, raise.
  cbv zeta. cbn [res events store_after].
  destruct (generate_content w now (build_prompt query context)) as [[| |t]|];
    cbn [res events store_after]; try reflexivity.
  destruct (truthy (strip t)); reflexivity.
Qed.
End ServiceRuns.

(** ** The runs of the loop body *)

Section ItemFacts.

Context {F : Type} `{Float F}.
Variable w : World F.

Lemma embed_chunks_run (chunks : list string) :
  forall (acc : list (list F)) (now : nat) (s : Store F),
  exists (vs : list (list F)) (evs : list (Event F)),
    embed_chunks w chunks acc now s
    = {| res := Ret (acc ++ vs); events := evs; store_after := s |}
    /\ Forall2 (embedding_of w) chunks vs
    /\ Forall embed_event evs
    /\ (chunks <> [] -> exists e, e ∈ evs /\ is_embed e = true).
Proof.
  induction chunks as [|chunk chunks IH]; intros acc now s.
  - exists [], []. rewrite app_nil_r. repeat split; try constructor. congruence.
  - cbn [embed_chunks].
    assert (Hemb : exists v evs1,
               get_embedding w chunk now s
               = {| res := Ret (Some v); events := EvEmbed chunk :: evs1; store_after := s |}
               /\ Forall embed_event evs1).
    { rewrite get_embedding_run. destruct (embed_content w now chunk) as [v|].
      - exists v, []. split; [reflexivity|constructor].
      - exists (np_zeros VECTOR_SIZE), [EvPrint MsgEmbeddingError].
        split; [reflexivity|]. constructor; [now right | constructor]. }
    destruct Hemb as (v & evs1 & Hrun & Hevs1).
    rewrite (bind_run_ret _ _ _ _ (Some v)) by (now rewrite Hrun).
    rewrite Hrun. cbn [res events store_after].
    destruct (IH (acc ++ [v]) (now + length (EvEmbed chunk :: evs1))%nat s)
      as (vs & evs & Hrest & Hvs & Hevs & _).
    rewrite Hrest. cbn [res events store_after].
    exists (v :: vs), ((EvEmbed chunk :: evs1) ++ evs).
    split; [now rewrite <- app_assoc|].
    split; [constructor; [|exact Hvs]|].
    { exists now, s. now rewrite Hrun. }
    split.
    + apply Forall_app. split; [|exact Hevs].
      constructor; [now left | exact Hevs1].
    + intros _. exists (EvEmbed chunk). split; [|reflexivity].
      apply list_elem_of_here.
Qed.

Lemma index_document_run (file_id file_name text : string)
    (first : list F) (rest : list (list F)) (now : nat) (s : Store F) :
  index_document w file_id file_name text (first :: rest) now s =
  match np_mean_axis0 first rest with
  | Raise e => {| res := Raise e; events := []; store_after := s |}
  | Ret avg =>
      let p := make_point w file_id file_name text avg in
      if upsert_raises w now p then
        {| res := Raise ServiceError; events := [EvUpsert p]; store_after := s |}
      else
        {| res := Ret tt; events := [EvUpsert p; EvPrint (MsgProcessed file_name)];
           store_after := <[id p := stored w p]> s |}
  end.
Proof.
  unfold index_document.
  destruct (np_mean_axis0 first rest) as [avg|e].
  - unfold bind, lift, ret, qdrant_upsert, bind, call, set_store, print, emit.
    cbn [res events store_after length app]. rewrite Nat.add_0_r.
    cbv zeta.
    destruct (upsert_raises w now (make_point w file_id file_name text avg));
      reflexivity.
  - reflexivity.
Qed.

Lemma chunk_text_default (text : string) :
  exists chunks : list string,
    chunk_text text DEFAULT_MAX_CHARS = Ret chunks
    /\ (text <> EmptyString -> chunks <> []).
Proof.
  unfold chunk_text, py_range0, DEFAULT_MAX_CHARS.
  change (30000 =? 0) with false. change (30000 <? 0) with false.
  cbv iota. eexists. split; [reflexivity|].
  intros Hne. destruct text as [|c text]; [congruence|].
  unfold len. cbn [String.length range_from Nat.ltb Nat.leb map]. discriminate.
Qed.

Lemma process_item_outcome (total idx : nat) (item : Item) (now : nat) (s : Store F) :
  ItemRun w total idx item now s (process_item w total idx item now s).
Proof.
  unfold process_item.
  destruct (mime_allowed (item_mimeType item)) eqn:Hal; cbn [negb].
  2:{ now apply RunNotAllowed. }
  rewrite (bind_run_ret _ _ _ _ tt) by reflexivity.
  cbn [print emit res events store_after length]. rewrite Nat.add_1_r.
  destruct (item_id item) as [file_id|] eqn:Hid.
  2:{ apply RunNoId; [exact Hal | now left]. }
  destruct (truthy file_id) eqn:Htruthy; cbn [negb].
  2:{ apply RunNoId; [exact Hal|]. right. destruct file_id; [exact Hid|discriminate]. }
  destruct (item_mimeType item) as [mime|] eqn:Hmime; [|discriminate].
  cbn [get_or].
  assert (Hread : exists text fetch,
             read_file w file_id mime (S now) s
             = {| res := Ret text; events := fetch; store_after := s |}).
  { rewrite read_file_run. cbv zeta.
    destruct (if startswith mime NATIVE_PREFIX then _ else _); eauto. }
  destruct Hread as (text & fetch & Hread).
  assert (Hfetched : fetched w item now s file_id mime text fetch).
  { now repeat split. }
  rewrite (bind_run_ret _ _ _ _ text) by (now rewrite Hread).
  rewrite Hread. cbn [res events store_after].
  destruct (Nat.ltb_spec (len text) MIN_CONTENT_LENGTH) as [Hsmall|Hlong].
  { cbn [print emit res events store_after]. now apply (RunSmall _ _ _ _ _ _ file_id mime text). }
  destruct (chunk_text_default text) as (chunks & Hchunks & Hne).
  rewrite Hchunks.
  rewrite (bind_run_ret _ _ _ _ chunks) by reflexivity.
  cbn [lift ret res events store_after length]. rewrite Nat.add_0_r.
  destruct (embed_chunks_run chunks [] (S now + length fetch)%nat s)
    as (vs & embeds & Hemb & Hvs & _ & _).
  cbn [app] in Hemb.
  rewrite (bind_run_ret _ _ _ _ vs) by (now rewrite Hemb).
  rewrite Hemb. cbn [res events store_after app].
  destruct vs as [|first rest].
  { exfalso. apply Forall2_nil_inv_r in Hvs. apply Hne; [|exact Hvs].
    intros ->. unfold MIN_CONTENT_LENGTH in Hlong. simpl in Hlong. lia. }
  assert (Hembedded : embedded w now s text fetch chunks first rest embeds).
  { now repeat split. }
  rewrite index_document_run.
  destruct (np_mean_axis0 first rest) as [avg|e] eqn:Hmean.
  - cbv zeta.
    destruct (upsert_raises w _ _) eqn:Hup; cbn [res events store_after].
    + eapply RunUpsertRaises; eauto.
    + eapply RunStored; eauto.
  - assert (e = ValueError) as ->.
    { unfold np_mean_axis0 in Hmean.
      destruct (forallb _ rest); [discriminate | congruence]. }
    cbn [res events store_after]. rewrite app_nil_r.
    eapply RunMeanRaises; eauto.
Qed.
Lemma fetched_events (item : Item) (now : nat) (s : Store F)
    (file_id mime text : string) (fetch : list (Event F)) :
  fetched w item now s file_id mime text fetch ->
  Forall fetch_event fetch
  /\ exists (e : Event F) (tail : list (Event F)),
       fetch = e :: tail /\ is_fetch e = true.
Proof.
  intros (_ & _ & _ & _ & Hread).
  rewrite read_file_run in Hread. cbv zeta in Hread.
  destruct (startswith mime NATIVE_PREFIX);
    [destruct (drive_export w (S now) file_id) | destruct (drive_get w (S now) file_id)];
    injection Hread as _ <-;
    (split;
     [ repeat (constructor; [first [now left | right; eauto] |]); constructor
     | eauto ]).
Qed.

Lemma fetched_functional (item : Item) (now : nat) (s : Store F)
    (file_id file_id' mime mime' text text' : string)
    (fetch fetch' : list (Event F)) :
  fetched w item now s file_id mime text fetch ->
  fetched w item now s file_id' mime' text' fetch' ->
  file_id = file_id' /\ mime = mime' /\ text = text' /\ fetch = fetch'.
Proof.
  intros (Hm & _ & Hi & _ & Hr) (Hm' & _ & Hi' & _ & Hr').
  assert (mime = mime') as <- by congruence.
  assert (file_id = file_id') as <- by congruence.
  rewrite Hr in Hr'. injection Hr' as <- <-. now repeat split.
Qed.

Lemma embedded_events (now : nat) (s : Store F) (text : string)
    (fetch embeds : list (Event F)) (chunks : list string)
    (first : list F) (rest : list (list F)) :
  embedded w now s text fetch chunks first rest embeds ->
  Forall embed_event embeds
  /\ exists e : Event F, e ∈ embeds /\ is_embed e = true.
Proof.
  intros (_ & _ & Hrun & Hvs).
  destruct (embed_chunks_run chunks [] (S now + length fetch)%nat s)
    as (vs & evs & Hrun' & _ & Hevs & Hsome).
  rewrite Hrun in Hrun'. injection Hrun' as _ ->.
  split; [exact Hevs|]. apply Hsome.
  intros ->. inversion Hvs.
Qed.

(** Every event of the loop comes from the body run on one of the
    items, numbered from [idx]. *)
Lemma for_enumerate_event (total : nat) (items : list Item) :
  forall (idx now : nat) (s : Store F) (e : Event F),
    e ∈ events (for_enumerate w total idx items now s) ->
    exists (k : nat) (item : Item) (now' : nat) (s' : Store F),
      items !! k = Some item
      /\ e ∈ events (process_item w total (idx + k) item now' s').
Proof.
  induction items as [|item items IH]; intros idx now s e He.
  - cbn in He. inversion He.
  - cbn [for_enumerate] in He. unfold bind in He.
    destruct (res (process_item w total idx item now s)) eqn:Hres;
      cbn [events] in He.
    + apply elem_of_app in He. destruct He as [He|He].
      * exists 0%nat, item, now, s. rewrite Nat.add_0_r. now split.
      * apply IH in He. destruct He as (k & item' & now' & s' & Hk & He).
        exists (S k), item', now', s'. split; [exact Hk|].
        now replace (idx + S k)%nat with (S idx + k)%nat by lia.
    + exists 0%nat, item, now, s. rewrite Nat.add_0_r. now split.
Qed.

(** When the body never raises, the loop returns and every item has
    had its turn. *)
Lemma for_enumerate_returns (total : nat) (items : list Item) :
  (forall (idx : nat) (item : Item) (now : nat) (s : Store F),
      item ∈ items -> res (process_item w total idx item now s) = Ret tt) ->
  forall (idx now : nat) (s : Store F),
    res (for_enumerate w total idx items now s) = Ret tt
    /\ forall (k : nat) (item : Item),
         items !! k = Some item ->
         exists (now' : nat) (s' : Store F),
           forall e : Event F,
             e ∈ events (process_item w total (idx + k) item now' s') ->
             e ∈ events (for_enumerate w total idx items now s).
Proof.
  induction items as [|item items IH]; intros Hbody idx now s.
  - split; [reflexivity|]. intros k item Hk. discriminate.
  - cbn [for_enumerate].
    rewrite (bind_run_ret _ _ _ _ tt) by (apply Hbody; apply list_elem_of_here).
    cbn [res events].
    destruct (IH (fun i it n st Hin => Hbody i it n st (list_elem_of_further _ _ _ Hin))
                 (S idx) (now + length (events (process_item w total idx item now s)))%nat
                 (store_after (process_item w total idx item now s)))
      as [Hres Hvisit].
    split; [exact Hres|].
    intros [|k] item' Hk; cbn in Hk.
    + injection Hk as <-. exists now, s. intros e He.
      rewrite Nat.add_0_r in He. apply elem_of_app. now left.
    + destruct (Hvisit k item' Hk) as (now' & s' & Hsub).
      exists now', s'. intros e He. apply elem_of_app. right. apply Hsub.
      now replace (S idx + k)%nat with (idx + S k)%nat by lia.
Qed.

(** The runs of the indexing pass. *)
Lemma process_drive_files_run (now : nat) (s : Store F) :
  process_drive_files w now s =
  if drive_list_raises w now then
    {| res := Raise ServiceError;
       events := [EvList LIST_PAGE_SIZE None; EvPrint MsgErrorProcessing];
       store_after := s |}
  else
    let items := take LIST_PAGE_SIZE (drive_files w) in
    let o := for_enumerate w (length items) 1 items (S now) s in
    match res o with
    | Ret _ =>
        {| res := Ret tt; events := EvList LIST_PAGE_SIZE None :: events o;
           store_after := store_after o |}
    | Raise e =>
        {| res := Raise e;
           events := EvList LIST_PAGE_SIZE None :: events o ++ [EvPrint MsgErrorProcessing];
           store_after := store_after o |}
    end.
Proof.
  unfold process_drive_files, try_except, files_list, bind, call, print, emit, raise.
  cbn [page_start drop].
  destruct (drive_list_raises w now); cbn [res events store_after length app].
  - reflexivity.
  - rewrite Nat.add_1_r. cbv zeta.
    destruct (res (for_enumerate w _ 1 _ (S now) s)) as [[]|e] eqn:Hres;
      cbn [res events store_after length app].
    + reflexivity.
    + reflexivity.
Qed.
End ItemFacts.

(** ** The shape of the traces *)

Section TraceShapes.

Context {F : Type} `{Float F}.
Variable w : World F.

Lemma tail_event_not_list (e : Event F) : tail_event e -> is_list e = false.
Proof.
  intros [[He|[fid ->]]|[[He| ->]|[He|[name [->|[->| ->]]]]]];
    try reflexivity; destruct e; try discriminate; reflexivity.
Qed.

(** The trace of one run of the loop body: nothing, or the progress
    line followed by fetch, embedding and upsert events and prints. *)
Lemma item_run_shape (total idx : nat) (item : Item) (now : nat) (s : Store F)
    (o : Out F unit) :
  ItemRun w total idx item now s o ->
  events o = []
  \/ exists tail : list (Event F),
       events o = EvPrint (MsgProcessing idx total (item_file_name item)) :: tail
       /\ Forall tail_event tail.
Proof.
  intros Hrun. destruct Hrun as
    [ Hal | Hal Hid | fid mime text fetch Hf Hsmall
    | fid mime text fetch embeds chunks first rest Hf He Hmean
    | fid mime text fetch embeds chunks first rest avg Hf He Hmean Hup
    | fid mime text fetch embeds chunks first rest avg Hf He Hmean Hup ];
    cbn [events]; [now left | right; eexists; split; [reflexivity|] ..].
  - constructor; [|constructor]. do 3 right. eauto.
  - apply fetched_events in Hf. destruct Hf as [Hf _].
    apply Forall_app. split.
    + eapply Forall_impl; [exact Hf|]. intros e He. now left.
    + constructor; [|constructor]. do 3 right. eauto.
  - apply fetched_events in Hf. destruct Hf as [Hf _].
    apply embedded_events in He. destruct He as [He _].
    apply Forall_app. split.
    + eapply Forall_impl; [exact Hf|]. intros e He'. now left.
    + eapply Forall_impl; [exact He|]. intros e He'. right. now left.
  - apply fetched_events in Hf. destruct Hf as [Hf _].
    apply embedded_events in He. destruct He as [He _].
    apply Forall_app. split; [|apply Forall_app; split].
    + eapply Forall_impl; [exact Hf|]. intros e He'. now left.
    + eapply Forall_impl; [exact He|]. intros e He'. right. now left.
    + constructor; [|constructor]. do 2 right. now left.
  - apply fetched_events in Hf. destruct Hf as [Hf _].
    apply embedded_events in He. destruct He as [He _].
    apply Forall_app. split; [|apply Forall_app; split].
    + eapply Forall_impl; [exact Hf|]. intros e He'. now left.
    + eapply Forall_impl; [exact He|]. intros e He'. right. now left.
    + constructor; [|constructor; [|constructor]].
      * do 2 right. now left.
      * do 3 right. eauto.
Qed.

Lemma fetch_event_kind (e : Event F) :
  fetch_event e -> is_embed e = false /\ is_upsert e = false.
Proof. intros [He|[fid ->]]; [destruct e; try discriminate|]; now split. Qed.

Lemma embed_event_kind (e : Event F) :
  embed_event e -> is_fetch e = false /\ is_upsert e = false.
Proof. intros [He| ->]; [destruct e; try discriminate|]; now split. Qed.

(** An upsert in the trace of the loop body is the upsert of the
    point made from the item's identifier, name and text and from
    the mean of the vectors of its chunks. *)
Lemma item_run_upsert (total idx : nat) (item : Item) (now : nat) (s : Store F)
    (o : Out F unit) (p : PointStruct F) :
  ItemRun w total idx item now s o ->
  EvUpsert p ∈ events o ->
  exists (file_id mime text : string) (fetch embeds : list (Event F))
         (chunks : list string) (first : list F) (rest : list (list F))
         (avg : list F),
    fetched w item now s file_id mime text fetch
    /\ embedded w now s text fetch chunks first rest embeds
    /\ np_mean_axis0 first rest = Ret avg
    /\ p = make_point w file_id (item_file_name item) text avg
    /\ (res o = Ret tt -> store_after o = <[id p := stored w p]> s)
    /\ (res o <> Ret tt -> store_after o = s).
Proof.
  assert (Hno_f : forall l : list (Event F), Forall fetch_event l -> EvUpsert p ∈ l -> False).
  { intros l Hl Hin. rewrite Forall_forall in Hl. apply Hl in Hin.
    apply fetch_event_kind in Hin. destruct Hin; discriminate. }
  assert (Hno_e : forall l : list (Event F), Forall embed_event l -> EvUpsert p ∈ l -> False).
  { intros l Hl Hin. rewrite Forall_forall in Hl. apply Hl in Hin.
    apply embed_event_kind in Hin. destruct Hin; discriminate. }
  intros Hrun Hin. destruct Hrun as
    [ Hal | Hal Hid | fid mime text fetch Hf Hsmall
    | fid mime text fetch embeds chunks first rest Hf He Hmean
    | fid mime text fetch embeds chunks first rest avg Hf He Hmean Hup
    | fid mime text fetch embeds chunks first rest avg Hf He Hmean Hup ];
    cbn [events res store_after] in *.
  - inversion Hin.
  - rewrite !elem_of_cons, elem_of_nil in Hin.
    destruct Hin as [Hin|[Hin|[]]]; discriminate.
  - pose proof (proj1 (fetched_events w _ _ _ _ _ _ _ Hf)) as Hfe.
    rewrite elem_of_cons, elem_of_app, list_elem_of_singleton in Hin.
    destruct Hin as [Hin|[Hin|Hin]]; [discriminate| |discriminate].
    now destruct (Hno_f _ Hfe Hin).
  - pose proof (proj1 (fetched_events w _ _ _ _ _ _ _ Hf)) as Hfe.
    pose proof (proj1 (embedded_events w _ _ _ _ _ _ _ _ He)) as Hee.
    rewrite elem_of_cons, elem_of_app in Hin.
    destruct Hin as [Hin|[Hin|Hin]]; [discriminate| |].
    + now destruct (Hno_f _ Hfe Hin).
    + now destruct (Hno_e _ Hee Hin).
  - pose proof (proj1 (fetched_events w _ _ _ _ _ _ _ Hf)) as Hfe.
    pose proof (proj1 (embedded_events w _ _ _ _ _ _ _ _ He)) as Hee.
    rewrite elem_of_cons, !elem_of_app in Hin.
    destruct Hin as [Hin|[Hin|[Hin|Hin]]]; [discriminate| | |].
    + now destruct (Hno_f _ Hfe Hin).
    + now destruct (Hno_e _ Hee Hin).
    + rewrite list_elem_of_singleton in Hin. injection Hin as ->.
      exists fid, mime, text, fetch, embeds, chunks, first, rest, avg.
      split; [exact Hf|]. split; [exact He|]. split; [exact Hmean|].
      split; [reflexivity|]. split; intros; congruence.
  - pose proof (proj1 (fetched_events w _ _ _ _ _ _ _ Hf)) as Hfe.
    pose proof (proj1 (embedded_events w _ _ _ _ _ _ _ _ He)) as Hee.
    rewrite elem_of_cons, !elem_of_app in Hin.
    destruct Hin as [Hin|[Hin|[Hin|Hin]]]; [discriminate| | |].
    + now destruct (Hno_f _ Hfe Hin).
    + now destruct (Hno_e _ Hee Hin).
    + rewrite elem_of_cons, list_elem_of_singleton in Hin.
      destruct Hin as [Hin|Hin]; [|discriminate].
      injection Hin as ->.
      exists fid, mime, text, fetch, embeds, chunks, first, rest, avg.
      split; [exact Hf|]. split; [exact He|]. split; [exact Hmean|].
      split; [reflexivity|]. split; intros; congruence.
Qed.
End TraceShapes.

(** ** C8: the query engine *)

(** C8. For every query, [search_qdrant] never raises and leaves the
    store alone.  If the embedding of the query is all zeros (the
    sentinel of a failed embedding in particular) it returns the empty
    list; if the embedding call fails, or the search fails, it returns
    the empty list and the failure is printed; otherwise it returns
    what the store answers.  A store whose [search] honours [limit]
    therefore yields at most [top_k] matches, and at most 3 with the
    default [top_k]. *)
Theorem search_qdrant_contained
    {F : Type} `{Float F} (w : World F) (query : string) (top_k now : nat)
    (s : Store F) :
  (forall (t : nat) (st : Store F) (v : list F) (k : nat) (r : list (ScoredPoint F)),
      qdrant_search w t st v k = Some r -> (length r <= k)%nat) ->
  (exists r : list (ScoredPoint F),
      res (search_qdrant w query top_k now s) = Ret r /\ (length r <= top_k)%nat)
  /\ store_after (search_qdrant w query top_k now s) = s
  /\ (forall v : list F,
        res (get_embedding w query now s) = Ret (Some v) ->
        np_all_zero v = true ->
        res (search_qdrant w query top_k now s) = Ret [])
  /\ (embed_content w now query = None ->
      res (search_qdrant w query top_k now s) = Ret []
      /\ events (search_qdrant w query top_k now s) !! 1%nat
         = Some (EvPrint MsgEmbeddingError))
  /\ (forall v : list F,
        embed_content w now query = Some v ->
        np_all_zero v = false ->
        qdrant_search w (S now) s v top_k = None ->
        res (search_qdrant w query top_k now s) = Ret []
        /\ events (search_qdrant w query top_k now s) !! 2%nat
           = Some (EvPrint MsgSearchError))
  /\ (forall (v : list F) (r : list (ScoredPoint F)),
        embed_content w now query = Some v ->
        np_all_zero v = false ->
        qdrant_search w (S now) s v top_k = Some r ->
        res (search_qdrant w query top_k now s) = Ret r)
  /\ (exists r : list (ScoredPoint F),
        res (search_qdrant_default w query now s) = Ret r /\ (length r <= 3)%nat).
Proof.
  intros Hlimit.
  assert (Hgen : forall k : nat,
             (exists r : list (ScoredPoint F),
                 res (search_qdrant w query k now s) = Ret r /\ (length r <= k)%nat)).
  { intros k. rewrite search_qdrant_run.
    destruct (embed_content w now query) as [v|]; [|exists []; split; [reflexivity|simpl; lia]].
    destruct (np_all_zero v); [exists []; split; [reflexivity|simpl; lia]|].
    destruct (qdrant_search w (S now) s v k) as [r|] eqn:Hs.
    - exists r. split; [reflexivity|]. eapply Hlimit, Hs.
    - exists []. split; [reflexivity|simpl; lia]. }
  split; [apply Hgen|].
  split.
  { rewrite search_qdrant_run.
    destruct (embed_content w now query) as [v|]; [|reflexivity].
    destruct (np_all_zero v); [reflexivity|].
    destruct (qdrant_search w (S now) s v top_k); reflexivity. }
  split.
  { intros v Hv Hz. rewrite get_embedding_run in Hv. rewrite search_qdrant_run.
    destruct (embed_content w now query) as [v'|]; [|reflexivity].
    injection Hv as ->. now rewrite Hz. }
  split.
  { intros Hnone. rewrite search_qdrant_run, Hnone. split; reflexivity. }
  split.
  { intros v Hv Hz Hs. rewrite search_qdrant_run, Hv, Hz, Hs. split; reflexivity. }
  split.
  { intros v r Hv Hz Hs. rewrite search_qdrant_run, Hv, Hz, Hs. reflexivity. }
  apply (Hgen DEFAULT_TOP_K).
Qed.

(** ** C9: the answer synthesizer *)

Lemma prefix_substring (s : string) (n : nat) :
  String.prefix (substring 0 n s) s = true.
Proof.
  revert n. induction s as [|c s IH]; intros n.
  - now rewrite substring_nil.
  - destruct n as [|n]; [reflexivity|].
    simpl. destruct (ascii_dec c c) as [_|Hne]; [apply IH|congruence].
Qed.


(** The query engine in the sample world, asked for two matches. *)
Lemma search_qdrant_contained_witness :
  exists r : list (ScoredPoint Q),
    res (search_qdrant (sample_world 1) "What is this document about?" 2%nat 0%nat ∅) = Ret r
    /\ (length r <= 2)%nat.
Proof.
  refine (proj1 (search_qdrant_contained (sample_world 1)
                   "What is this document about?" 2%nat 0%nat ∅ _)).
  intros t st v k r Hr. cbn in Hr. injection Hr as <-.
  rewrite length_take. lia.
Defined.


(** ** C10: one page of the listing *)

Section Listing.

Context {F : Type} `{Float F}.
Variable w : World F.

Lemma for_enumerate_other_account (files : list Item) (total idx : nat)
    (items : list Item) :
  for_enumerate (with_drive_files w files) total idx items
  = for_enumerate w total idx items.
Proof. reflexivity. Qed.

Lemma filter_none {A : Type} (f : A -> bool) (l : list A) :
  Forall (fun x => f x = false) l -> List.filter f l = [].
Proof.
  induction 1 as [|x l Hx _ IH]; [reflexivity|].
  cbn. now rewrite Hx.
Qed.

Lemma item_events_not_list (total idx : nat) (item : Item) (now : nat)
    (s : Store F) (e : Event F) :
  e ∈ events (process_item w total idx item now s) -> is_list e = false.
Proof.
  intros He.
  destruct (item_run_shape w _ _ _ _ _ _ (process_item_outcome w total idx item now s))
    as [Hnil|(tail & Hev & Htail)].
  - rewrite Hnil in He. inversion He.
  - rewrite Hev in He. apply elem_of_cons in He. destruct He as [->|He]; [reflexivity|].
    rewrite Forall_forall in Htail. apply tail_event_not_list, Htail, He.
Qed.

Lemma for_enumerate_not_list (total idx : nat) (items : list Item) (now : nat)
    (s : Store F) :
  Forall (fun e => is_list e = false) (events (for_enumerate w total idx items now s)).
Proof.
  apply Forall_forall. intros e He.
  apply for_enumerate_event in He. destruct He as (k & item & now' & s' & _ & He).
  eapply item_events_not_list, He.
Qed.
End Listing.

(** C10. An indexing pass asks the Drive listing for one page of at
    most 100 files and for nothing more: the list request is the
    first event of the pass and the only list request, it carries
    [pageSize=100] and no page token.  The pass is the same for two
    accounts whose first 100 files are the same, and every other event
    of the pass is the final error line or comes from the loop body run
    on one of the first 100 files of the listing: the files beyond the
    first 100 are never considered. *)
Theorem single_page_listing
    {F : Type} `{Float F} (w : World F) (now : nat) (s : Store F) :
  events (process_drive_files w now s) !! 0%nat = Some (EvList 100 None)
  /\ List.filter is_list (events (process_drive_files w now s)) = [EvList 100 None]
  /\ (forall files' : list Item,
        take 100 files' = take 100 (drive_files w) ->
        process_drive_files (with_drive_files w files') now s
        = process_drive_files w now s)
  /\ (forall e : Event F,
        e ∈ events (process_drive_files w now s) ->
        e = EvList 100 None \/ e = EvPrint MsgErrorProcessing
        \/ exists (k : nat) (item : Item) (now' : nat) (s' : Store F),
             (k < 100)%nat
             /\ drive_files w !! k = Some item
             /\ e ∈ events (process_item w (Nat.min 100 (length (drive_files w)))
                              (S k) item now' s')).
Proof.
  split; [|split; [|split]].
  - rewrite process_drive_files_run.
    destruct (drive_list_raises w now); [reflexivity|]. cbv zeta.
    destruct (res (for_enumerate w _ 1 _ (S now) s)); reflexivity.
  - rewrite process_drive_files_run.
    destruct (drive_list_raises w now); [reflexivity|]. cbv zeta.
    pose proof (for_enumerate_not_list w
                  (length (take LIST_PAGE_SIZE (drive_files w))) 1
                  (take LIST_PAGE_SIZE (drive_files w)) (S now) s) as Hnone.
    destruct (res (for_enumerate w _ 1 _ (S now) s)); cbn [events List.filter is_list].
    + now rewrite (filter_none _ _ Hnone).
    + rewrite List.filter_app, (filter_none _ _ Hnone). reflexivity.
  - intros files' Hsame. rewrite !process_drive_files_run.
    cbn [with_drive_files drive_files drive_list_raises].
    change LIST_PAGE_SIZE with 100%nat. rewrite Hsame.
    now rewrite !for_enumerate_other_account.
  - intros e He. rewrite process_drive_files_run in He.
    assert (Hloop : e ∈ events (for_enumerate w (length (take LIST_PAGE_SIZE (drive_files w))) 1
                                  (take LIST_PAGE_SIZE (drive_files w)) (S now) s) ->
                    exists (k : nat) (item : Item) (now' : nat) (s' : Store F),
                      (k < 100)%nat
                      /\ drive_files w !! k = Some item
                      /\ e ∈ events (process_item w (Nat.min 100 (length (drive_files w)))
                                       (S k) item now' s')).
    { intros Hin. apply for_enumerate_event in Hin.
      destruct Hin as (k & item & now' & s' & Hk & Hin).
      exists k, item, now', s'.
      rewrite length_take in Hin. change LIST_PAGE_SIZE with 100%nat in *.
      apply lookup_take_Some in Hk. destruct Hk as [Hk Hlt].
      now repeat split. }
    destruct (drive_list_raises w now).
    + cbn [events] in He. rewrite !elem_of_cons, elem_of_nil in He.
      destruct He as [->|[->|[]]]; [now left | right; now left].
    + cbv zeta in He.
      destruct (res (for_enumerate w _ 1 _ (S now) s)); cbn [events] in He.
      * rewrite elem_of_cons in He. destruct He as [->|He]; [now left|].
        right. right. now apply Hloop.
      * rewrite elem_of_cons, elem_of_app, list_elem_of_singleton in He.
        destruct He as [->|[He| ->]]; [now left| |right; now left].
        right. right. now apply Hloop.
Qed.

(** An account of 101 files whose last file is the only one that could
    be indexed: the pass is the pass over the first 100. *)
Lemma single_page_listing_witness :
  process_drive_files
    (with_drive_files (sample_world 1) (repeat picture_item 100 ++ [hello_item]))
    0%nat ∅
  = process_drive_files
      (with_drive_files (sample_world 1) (repeat picture_item 100)) 0%nat ∅.
Proof.
  destruct (single_page_listing
              (with_drive_files (sample_world 1) (repeat picture_item 100)) 0%nat ∅)
    as (_ & _ & Hsame & _).
  apply (Hsame (repeat picture_item 100 ++ [hello_item])). reflexivity.
Defined.


(** ** Averaging and the short-text run *)

Section Averaging.

Context {F : Type} `{Float F}.
Variable w : World F.

Lemma mime_allowed_spec (mime : option string) :
  mime_allowed mime = true <-> exists t : string, mime = Some t /\ In t allowed_types.
Proof.
  unfold mime_allowed. destruct mime as [t|].
  - rewrite existsb_exists. split.
    + intros (x & Hx & Heq). apply String.eqb_eq in Heq. subst x. eauto.
    + intros (t' & [= <-] & Hin). exists t. split; [exact Hin|apply String.eqb_refl].
  - split; [discriminate|]. intros (t & Ht & _). discriminate.
Qed.

(** The run of the loop body on an item whose text is short. *)
Lemma item_run_small (total idx : nat) (item : Item) (now : nat) (s : Store F)
    (o : Out F unit) (file_id mime text : string) (fetch : list (Event F)) :
  ItemRun w total idx item now s o ->
  fetched w item now s file_id mime text fetch ->
  (len text < MIN_CONTENT_LENGTH)%nat ->
  o = {| res := Ret tt;
         events := EvPrint (MsgProcessing idx total (item_file_name item))
                   :: fetch ++ [EvPrint (MsgSkipSmall (item_file_name item))];
         store_after := s |}.
Proof.
  intros Hrun Hf Hsmall.
  destruct Hrun as
    [ Hal | Hal Hid | fid' mime' text' fetch' Hf' Hsmall'
    | fid' mime' text' fetch' embeds chunks first rest Hf' He Hmean
    | fid' mime' text' fetch' embeds chunks first rest avg Hf' He Hmean Hup
    | fid' mime' text' fetch' embeds chunks first rest avg Hf' He Hmean Hup ].
  - destruct Hf as (Hm & Hal' & _). rewrite Hm in Hal. congruence.
  - destruct Hf as (_ & _ & Hi & Ht & _).
    destruct Hid as [Hid|Hid]; rewrite Hid in Hi; [discriminate|].
    injection Hi as <-. discriminate.
  - destruct (fetched_functional w _ _ _ _ _ _ _ _ _ _ _ Hf Hf') as (_ & _ & _ & <-).
    reflexivity.
  - destruct (fetched_functional w _ _ _ _ _ _ _ _ _ _ _ Hf Hf') as (_ & _ & <- & _).
    destruct He as (Hlong & _). lia.
  - destruct (fetched_functional w _ _ _ _ _ _ _ _ _ _ _ Hf Hf') as (_ & _ & <- & _).
    destruct He as (Hlong & _). lia.
  - destruct (fetched_functional w _ _ _ _ _ _ _ _ _ _ _ Hf Hf') as (_ & _ & <- & _).
    destruct He as (Hlong & _). lia.
Qed.




(** Rows of one length can be averaged. *)
Lemma np_mean_defined (first : list F) (rest : list (list F)) :
  Forall (fun r => length r = length first) rest ->
  exists avg : list F, np_mean_axis0 first rest = Ret avg.
Proof.
  intros Hrest. unfold np_mean_axis0.
  replace (forallb (fun r => (length r =? length first)%nat) rest) with true; [eauto|].
  symmetry. apply forallb_forall. intros r Hr. apply Nat.eqb_eq.
  rewrite Forall_forall in Hrest. apply Hrest. now apply list_elem_of_In.
Qed.

Lemma embedded_functional (now : nat) (s : Store F) (text : string)
    (fetch embeds embeds' : list (Event F)) (chunks chunks' : list string)
    (first first' : list F) (rest rest' : list (list F)) :
  embedded w now s text fetch chunks first rest embeds ->
  embedded w now s text fetch chunks' first' rest' embeds' ->
  chunks = chunks' /\ first = first' /\ rest = rest' /\ embeds = embeds'.
Proof.
  intros (_ & Hc & Hr & _) (_ & Hc' & Hr' & _).
  assert (chunks = chunks') as <- by congruence.
  rewrite Hr in Hr'. injection Hr' as <- <- <-. now repeat split.
Qed.

(** The run of the loop body on a document whose vectors can be
    averaged: the upsert comes right after the fetch and the embedding
    calls. *)
Lemma item_run_indexed (total idx : nat) (item : Item) (now : nat) (s : Store F)
    (o : Out F unit) (file_id mime text : string) (fetch embeds : list (Event F))
    (chunks : list string) (first : list F) (rest : list (list F)) (avg : list F) :
  ItemRun w total idx item now s o ->
  fetched w item now s file_id mime text fetch ->
  embedded w now s text fetch chunks first rest embeds ->
  np_mean_axis0 first rest = Ret avg ->
  events o !! S (length fetch + length embeds)
  = Some (EvUpsert (make_point w file_id (item_file_name item) text avg))
  /\ (upsert_raises w (S now + length fetch + length embeds)%nat
        (make_point w file_id (item_file_name item) text avg) = false ->
      res o = Ret tt
      /\ store_after o
         = <[point_id w file_id
            := stored w (make_point w file_id (item_file_name item) text avg)]> s).
Proof.
  intros Hrun Hf He Hmean.
  destruct Hrun as
    [ Hal | Hal Hid | fid' mime' text' fetch' Hf' Hsmall'
    | fid' mime' text' fetch' embeds' chunks' first' rest' Hf' He' Hmean'
    | fid' mime' text' fetch' embeds' chunks' first' rest' avg' Hf' He' Hmean' Hup
    | fid' mime' text' fetch' embeds' chunks' first' rest' avg' Hf' He' Hmean' Hup ].
  - destruct Hf as (Hm & Hal' & _). rewrite Hm in Hal. congruence.
  - destruct Hf as (_ & _ & Hi & Ht & _).
    destruct Hid as [Hid|Hid]; rewrite Hid in Hi; [discriminate|].
    injection Hi as <-. discriminate.
  - destruct (fetched_functional w _ _ _ _ _ _ _ _ _ _ _ Hf Hf') as (_ & _ & <- & _).
    destruct He as (Hlong & _). lia.
  - destruct (fetched_functional w _ _ _ _ _ _ _ _ _ _ _ Hf Hf') as (<- & <- & <- & <-).
    destruct (embedded_functional _ _ _ _ _ _ _ _ _ _ _ _ He He') as (_ & <- & <- & _).
    congruence.
  - destruct (fetched_functional w _ _ _ _ _ _ _ _ _ _ _ Hf Hf') as (<- & <- & <- & <-).
    destruct (embedded_functional _ _ _ _ _ _ _ _ _ _ _ _ He He') as (_ & <- & <- & <-).
    assert (avg' = avg) as -> by congruence.
    cbn [events res store_after]. split; [|congruence].
    rewrite app_comm_cons, app_assoc. apply list_lookup_middle.
    rewrite length_app. cbn [length]. lia.
  - destruct (fetched_functional w _ _ _ _ _ _ _ _ _ _ _ Hf Hf') as (<- & <- & <- & <-).
    destruct (embedded_functional _ _ _ _ _ _ _ _ _ _ _ _ He He') as (_ & <- & <- & <-).
    assert (avg' = avg) as -> by congruence.
    cbn [events res store_after]. split; [|intros _; split; reflexivity].
    rewrite app_comm_cons, app_assoc. apply list_lookup_middle.
    rewrite length_app. cbn [length]. lia.
Qed.
End Averaging.

(** ** C5: the skip rules of the indexer *)

Section SkipRules.

Context {F : Type} `{Float F}.
Variable w : World F.

(** A fetched text of at least 20 characters is cut and embedded. *)
Lemma item_run_embedded (total idx : nat) (item : Item) (now : nat) (s : Store F)
    (o : Out F unit) (file_id mime text : string) (fetch : list (Event F)) :
  ItemRun w total idx item now s o ->
  fetched w item now s file_id mime text fetch ->
  (MIN_CONTENT_LENGTH <= len text)%nat ->
  exists (embeds : list (Event F)) (chunks : list string)
         (first : list F) (rest : list (list F)),
    embedded w now s text fetch chunks first rest embeds.
Proof.
  intros Hrun Hf Hlen.
  destruct Hrun as
    [ Hal | Hal Hid | fid' mime' text' fetch' Hf' Hsmall'
    | fid' mime' text' fetch' embeds chunks first rest Hf' He Hmean
    | fid' mime' text' fetch' embeds chunks first rest avg Hf' He Hmean Hup
    | fid' mime' text' fetch' embeds chunks first rest avg Hf' He Hmean Hup ].
  - destruct Hf as (Hm & Hal' & _). rewrite Hm in Hal. congruence.
  - destruct Hf as (_ & _ & Hi & Ht & _).
    destruct Hid as [Hid|Hid]; rewrite Hi in Hid; [discriminate|].
    injection Hid as ->. discriminate Ht.
  - destruct (fetched_functional w _ _ _ _ _ _ _ _ _ _ _ Hf Hf') as (_ & _ & <- & _). lia.
  - destruct (fetched_functional w _ _ _ _ _ _ _ _ _ _ _ Hf Hf') as (_ & _ & <- & <-).
    eauto.
  - destruct (fetched_functional w _ _ _ _ _ _ _ _ _ _ _ Hf Hf') as (_ & _ & <- & <-).
    eauto.
  - destruct (fetched_functional w _ _ _ _ _ _ _ _ _ _ _ Hf Hf') as (_ & _ & <- & <-).
    eauto.
Qed.

(** The line of the third skip rule is not among the events of the
    loop body. *)
Lemma no_valid_embeddings_never_printed (total idx : nat) (item : Item) (now : nat)
    (s : Store F) (file_name : string) :
  EvPrint (MsgNoValidEmbeddings file_name) ∉ events (process_item w total idx item now s).
Proof.
  intros Hin.
  destruct (item_run_shape w _ _ _ _ _ _ (process_item_outcome w total idx item now s))
    as [Hnil|(tail & Hev & Htail)].
  - rewrite Hnil in Hin. inversion Hin.
  - rewrite Hev in Hin. apply elem_of_cons in Hin. destruct Hin as [Hin|Hin]; [discriminate|].
    rewrite Forall_forall in Htail. apply Htail in Hin.
    destruct Hin as [[He|[fid He]]|[[He|He]|[He|[name [He|[He|He]]]]]]; discriminate.
Qed.

(** When the embedding service is down, every vector collected for a
    chunk is the zero vector. *)
Lemma embedding_of_down (chunk : string) (v : list F) :
  (forall (t : nat) (c : string), embed_content w t c = None) ->
  embedding_of w chunk v -> v = np_zeros VECTOR_SIZE.
Proof.
  intros Hdown (t & s & Hv). rewrite get_embedding_run, Hdown in Hv.
  now injection Hv as <-.
Qed.

End SkipRules.

(** C5. For every candidate file the first two skip rules hold and the
    third does not.  The allow-list is the explicit list
    [allowed_types], and a file whose declared type is outside it
    produces no event at all (it is not fetched) and leaves the store
    alone; a file whose fetched text has fewer than 20 characters
    produces no embedding call and no upsert and leaves the store
    alone; so every point that is upserted is for a file of an allowed
    type whose fetched text has at least 20 characters.  But the line
    that announces the third skip is never printed by the loop body,
    and a fetched file of at least 20 characters none of whose
    embedding calls succeeds is upserted all the same, when the store
    accepts it: each of its chunks contributes the zero vector that
    [get_embedding] returns for a failed call. *)
Theorem indexer_skip_rules
    {F : Type} `{Float F} (w : World F) (total idx : nat) (item : Item)
    (now : nat) (s : Store F) :
  (mime_allowed (item_mimeType item) = true
   <-> exists t : string, item_mimeType item = Some t /\ In t allowed_types)
  /\ (mime_allowed (item_mimeType item) = false ->
      events (process_item w total idx item now s) = []
      /\ store_after (process_item w total idx item now s) = s)
  /\ (forall (file_id mime text : string) (fetch : list (Event F)),
        fetched w item now s file_id mime text fetch ->
        (len text < 20)%nat ->
        store_after (process_item w total idx item now s) = s
        /\ forall e : Event F,
             e ∈ events (process_item w total idx item now s) ->
             is_embed e = false /\ is_upsert e = false)
  /\ (forall p : PointStruct F,
        EvUpsert p ∈ events (process_item w total idx item now s) ->
        exists (file_id mime text : string) (fetch : list (Event F)),
          In mime allowed_types
          /\ fetched w item now s file_id mime text fetch
          /\ (20 <= len text)%nat)
  /\ (forall file_name : string,
        EvPrint (MsgNoValidEmbeddings file_name)
        ∉ events (process_item w total idx item now s))
  /\ (forall (file_id mime text : string) (fetch : list (Event F)),
        fetched w item now s file_id mime text fetch ->
        (20 <= len text)%nat ->
        (forall (t : nat) (c : string), embed_content w t c = None) ->
        (forall (t : nat) (p : PointStruct F), upsert_raises w t p = false) ->
        exists (embeds : list (Event F)) (chunks : list string)
               (first : list F) (rest : list (list F)) (p : PointStruct F),
          embedded w now s text fetch chunks first rest embeds
          /\ Forall (fun v => v = np_zeros VECTOR_SIZE) (first :: rest)
          /\ events (process_item w total idx item now s)
               !! S (length fetch + length embeds) = Some (EvUpsert p)
          /\ id p = point_id w file_id
          /\ res (process_item w total idx item now s) = Ret tt
          /\ is_Some (store_after (process_item w total idx item now s) !! id p)).
Proof.
  pose proof (process_item_outcome w total idx item now s) as Hrun.
  split; [apply mime_allowed_spec|].
  split.
  { intros Hal. unfold process_item. rewrite Hal. split; reflexivity. }
  split.
  { intros file_id mime text fetch Hf Hsmall.
    rewrite (item_run_small w _ _ _ _ _ _ _ _ _ _ Hrun Hf Hsmall).
    cbn [events store_after]. split; [reflexivity|].
    intros e He.
    rewrite elem_of_cons, elem_of_app, list_elem_of_singleton in He.
    destruct He as [->|[He| ->]]; [now split| |now split].
    apply fetched_events in Hf. destruct Hf as [Hf _].
    rewrite Forall_forall in Hf. apply fetch_event_kind, Hf, He. }
  split.
  { intros p Hp.
    destruct (item_run_upsert w _ _ _ _ _ _ _ Hrun Hp)
      as (file_id & mime & text & fetch & embeds & chunks & first & rest & avg
          & Hf & He & _).
    exists file_id, mime, text, fetch.
    split.
    { destruct Hf as (_ & Hal & _). apply mime_allowed_spec in Hal.
      destruct Hal as (t & [= <-] & Hin). exact Hin. }
    split; [exact Hf|apply He]. }
  split; [intros file_name; apply no_valid_embeddings_never_printed|].
  intros file_id mime text fetch Hf Hlen Hdown Hup.
  destruct (item_run_embedded w _ _ _ _ _ _ _ _ _ _ Hrun Hf Hlen)
    as (embeds & chunks & first & rest & He).
  assert (Hzero : Forall (fun v => v = np_zeros VECTOR_SIZE) (first :: rest)).
  { destruct He as (_ & _ & _ & Hvs). clear -Hvs Hdown.
    induction Hvs as [|c v cs vs Hv _ IH]; constructor; [|exact IH].
    eapply embedding_of_down; eauto. }
  assert (Hrows : Forall (fun r => length r = length first) rest).
  { pose proof (proj1 (Forall_cons _ _ _) Hzero) as [Hfirst Hrest].
    eapply Forall_impl; [exact Hrest|]. intros r ->. now rewrite Hfirst. }
  destruct (np_mean_defined first rest Hrows) as [avg Hmean].
  destruct (item_run_indexed w _ _ _ _ _ _ _ _ _ _ _ _ _ _ _ Hrun Hf He Hmean)
    as [Hev Hok].
  destruct (Hok (Hup _ _)) as [Hres Hstore].
  exists embeds, chunks, first, rest, (make_point w file_id (item_file_name item) text avg).
  split; [exact He|]. split; [exact Hzero|]. split; [exact Hev|].
  split; [reflexivity|]. split; [exact Hres|].
  rewrite Hstore. unfold Store in *. cbn [id make_point]. rewrite lookup_insert_eq. eauto.
Qed.

(** The memo of the sample world is too short to be indexed; with the
    embedding service down, the sample document is indexed all the
    same. *)
Lemma indexer_skip_rules_witness :
  (store_after (process_item (sample_world 1) 4%nat 3%nat memo_item 0%nat ∅) = ∅
   /\ forall e : Event Q,
        e ∈ events (process_item (sample_world 1) 4%nat 3%nat memo_item 0%nat ∅) ->
        is_embed e = false /\ is_upsert e = false)
  /\ is_Some (store_after (process_item embedding_down_world 1%nat 1%nat hello_item
                             1%nat ∅)
              !! point_id embedding_down_world "file-1").
Proof.
  split.
  - destruct (indexer_skip_rules (sample_world 1) 4%nat 3%nat memo_item 0%nat ∅)
      as (_ & _ & Hsmall & _).
    apply (Hsmall "file-3" "application/vnd.google-apps.document" "too short"
                  [EvExport "file-3" "text/plain"])%string.
    + repeat split; reflexivity.
    + vm_compute. lia.
  - destruct (indexer_skip_rules embedding_down_world 1%nat 1%nat hello_item 1%nat ∅)
      as (_ & _ & _ & _ & _ & Hdown).
    destruct (Hdown "file-1" "text/plain" sample_text [EvGetMedia "file-1"])%string
      as (embeds & chunks & first & rest & p & _ & _ & _ & Hid & _ & Hst).
    + repeat split; reflexivity.
    + vm_compute. lia.
    + intros t c. reflexivity.
    + intros t p. reflexivity.
    + rewrite <- Hid. exact Hst.
Defined.

(** ** C7: the stored vector *)




(** ** Returning and raising *)

Section Containment.

Context {F : Type} `{Float F}.
Variable w : World F.

Lemma process_item_progress (total idx : nat) (item : Item) (now : nat) (s : Store F) :
  mime_allowed (item_mimeType item) = true ->
  events (process_item w total idx item now s) !! 0%nat
  = Some (EvPrint (MsgProcessing idx total (item_file_name item))).
Proof.
  intros Hal. unfold process_item. rewrite Hal. cbn [negb].
  rewrite (bind_run_ret _ _ _ _ tt) by reflexivity. reflexivity.
Qed.

(** With a service that answers vectors of the configured size, every
    vector [get_embedding] returns has that size. *)
Lemma embedding_of_length (chunk : string) (v : list F) :
  (forall (t : nat) (text : string) (x : list F),
      embed_content w t text = Some x -> length x = VECTOR_SIZE) ->
  embedding_of w chunk v -> length v = VECTOR_SIZE.
Proof.
  intros Hdim (t & s & Hv). rewrite get_embedding_run in Hv.
  destruct (embed_content w t chunk) as [x|] eqn:Hx; injection Hv as <-.
  - eapply Hdim, Hx.
  - apply np_zeros_length.
Qed.

(** Where the store accepts every upsert and the vectors have the
    configured size, the loop body returns. *)
Lemma process_item_returns (total idx : nat) (item : Item) (now : nat) (s : Store F) :
  (forall (t : nat) (text : string) (x : list F),
      embed_content w t text = Some x -> length x = VECTOR_SIZE) ->
  (forall (t : nat) (p : PointStruct F), upsert_raises w t p = false) ->
  res (process_item w total idx item now s) = Ret tt.
Proof.
  intros Hdim Hup.
  destruct (process_item_outcome w total idx item now s) as
    [ Hal | Hal Hid | fid mime text fetch Hf Hsmall
    | fid mime text fetch embeds chunks first rest Hf He Hmean
    | fid mime text fetch embeds chunks first rest avg Hf He Hmean Hraise
    | fid mime text fetch embeds chunks first rest avg Hf He Hmean Hok ];
    try reflexivity.
  - exfalso. destruct He as (_ & _ & _ & Hvs).
    assert (Hsize : Forall (fun v => length v = VECTOR_SIZE) (first :: rest)).
    { eapply Forall2_Forall_r; [exact Hvs|].
      apply Forall_forall. intros chunk _ v Hv.
      eapply embedding_of_length; eauto. }
    apply Forall_cons in Hsize. destruct Hsize as [Hfirst Hrest].
    destruct (np_mean_defined first rest) as [avg Havg]; [|congruence].
    eapply Forall_impl; [exact Hrest|]. intros r Hr. congruence.
  - rewrite Hup in Hraise. discriminate.
Qed.

(** Splitting a list at an element that only occurs once. *)
Lemma split_at_unique {A : Type} (P : A -> Prop) (l1 l2 l1' l2' : list A) (x x' : A) :
  l1 ++ x :: l2 = l1' ++ x' :: l2' ->
  P x -> Forall (fun y => ~ P y) l1' -> Forall (fun y => ~ P y) l2' ->
  l1 = l1' /\ x = x' /\ l2 = l2'.
Proof.
  revert l1'. induction l1 as [|a l1 IH]; intros [|a' l1'] Heq Hx Hl1' Hl2'.
  - injection Heq as -> ->. now repeat split.
  - injection Heq as <- Heq. apply Forall_cons in Hl1'. now destruct Hl1'.
  - injection Heq as -> Heq. exfalso.
    rewrite Forall_forall in Hl2'. apply (Hl2' x); [|exact Hx].
    rewrite <- Heq. apply elem_of_app. right. apply list_elem_of_here.
  - injection Heq as <- Heq. apply Forall_cons in Hl1'. destruct Hl1' as [_ Hl1'].
    destruct (IH l1' Heq Hx Hl1' Hl2') as (-> & -> & ->). now repeat split.
Qed.

Lemma no_upsert_split (l pre post : list (Event F)) (p : PointStruct F) :
  Forall (fun e => is_upsert e <> true) l -> l = pre ++ EvUpsert p :: post -> False.
Proof.
  intros Hl ->. rewrite Forall_forall in Hl. apply (Hl (EvUpsert p)); [|reflexivity].
  apply elem_of_app. right. apply list_elem_of_here.
Qed.

Lemma fetch_no_upsert (l : list (Event F)) :
  Forall fetch_event l -> Forall (fun e => is_upsert e <> true) l.
Proof.
  intros Hl. eapply Forall_impl; [exact Hl|]. intros e He. apply fetch_event_kind in He.
  destruct He as [_ He]. rewrite He. discriminate.
Qed.

Lemma embed_no_upsert (l : list (Event F)) :
  Forall embed_event l -> Forall (fun e => is_upsert e <> true) l.
Proof.
  intros Hl. eapply Forall_impl; [exact Hl|]. intros e He. apply embed_event_kind in He.
  destruct He as [_ He]. rewrite He. discriminate.
Qed.

(** In a run of the loop body, an upsert that raises is the last
    event and the body raises. *)
Lemma item_run_upsert_raises (total idx : nat) (item : Item) (now : nat)
    (s : Store F) (o : Out F unit) (pre post : list (Event F)) (p : PointStruct F) :
  ItemRun w total idx item now s o ->
  events o = pre ++ EvUpsert p :: post ->
  upsert_raises w (now + length pre)%nat p = true ->
  res o = Raise ServiceError /\ post = [].
Proof.
  intros Hrun Hev Hraises.
  destruct Hrun as
    [ Hal | Hal Hid | fid mime text fetch Hf Hsmall
    | fid mime text fetch embeds chunks first rest Hf He Hmean
    | fid mime text fetch embeds chunks first rest avg Hf He Hmean Hup
    | fid mime text fetch embeds chunks first rest avg Hf He Hmean Hup ];
    cbn [events res] in *.
  - destruct pre; discriminate.
  - exfalso. eapply no_upsert_split; [|exact Hev].
    repeat constructor; discriminate.
  - exfalso. eapply no_upsert_split; [|exact Hev].
    constructor; [discriminate|]. apply Forall_app. split.
    + apply fetch_no_upsert. now apply fetched_events in Hf.
    + repeat constructor; discriminate.
  - exfalso. eapply no_upsert_split; [|exact Hev].
    constructor; [discriminate|]. apply Forall_app. split.
    + apply fetch_no_upsert. now apply fetched_events in Hf.
    + apply embed_no_upsert. now apply embedded_events in He.
  - split; [reflexivity|].
    assert (Hprefix : Forall (fun e => ~ is_upsert e = true)
                        (EvPrint (MsgProcessing idx total (item_file_name item))
                         :: fetch ++ embeds)).
    { constructor; [discriminate|]. apply Forall_app. split.
      - apply fetch_no_upsert. now apply fetched_events in Hf.
      - apply embed_no_upsert. now apply embedded_events in He. }
    rewrite app_comm_cons, app_assoc in Hev. symmetry in Hev.
    apply (split_at_unique (fun e => is_upsert e = true)) in Hev;
      [tauto | reflexivity | exact Hprefix | constructor].
  - exfalso.
    assert (Hprefix : Forall (fun e => ~ is_upsert e = true)
                        (EvPrint (MsgProcessing idx total (item_file_name item))
                         :: fetch ++ embeds)).
    { constructor; [discriminate|]. apply Forall_app. split.
      - apply fetch_no_upsert. now apply fetched_events in Hf.
      - apply embed_no_upsert. now apply embedded_events in He. }
    rewrite app_comm_cons, app_assoc in Hev. symmetry in Hev.
    apply (split_at_unique (fun e => is_upsert e = true)) in Hev;
      [| reflexivity | exact Hprefix | repeat constructor; discriminate].
    destruct Hev as (-> & [= ->] & _).
    rewrite length_app, length_cons in Hraises.
    replace (now + (S (length fetch) + length embeds))%nat
      with (S now + length fetch + length embeds)%nat in Hraises by lia.
    congruence.
Qed.

(** The same for the loop. *)
Lemma for_enumerate_upsert_raises (total : nat) (items : list Item) :
  forall (idx now : nat) (s : Store F) (pre post : list (Event F)) (p : PointStruct F),
    events (for_enumerate w total idx items now s) = pre ++ EvUpsert p :: post ->
    upsert_raises w (now + length pre)%nat p = true ->
    res (for_enumerate w total idx items now s) = Raise ServiceError /\ post = [].
Proof.
  induction items as [|item items IH]; intros idx now s pre post p Hev Hraises.
  - destruct pre; discriminate.
  - cbn [for_enumerate] in *. unfold bind in *.
    pose proof (process_item_outcome w total idx item now s) as Hrun.
    destruct (res (process_item w total idx item now s)) as [[]|e] eqn:Hres;
      cbn [events res] in *.
    + apply app_eq_app in Hev. destruct Hev as [mid [[Hitem Hpost]|[Hpre Hrest]]].
      * destruct mid as [|x mid].
        -- rewrite app_nil_r in Hitem. cbn [app] in Hpost.
           rewrite <- Hitem in Hraises.
           apply (IH _ _ _ [] _ _ (eq_sym Hpost)).
           cbn [length]. now rewrite Nat.add_0_r.
        -- injection Hpost as <- Hpost.
           destruct (item_run_upsert_raises _ _ _ _ _ _ _ _ _ Hrun Hitem Hraises)
             as [Hbad _]. congruence.
      * subst pre. rewrite length_app, Nat.add_assoc in Hraises.
        apply (IH _ _ _ _ _ _ Hrest Hraises).
    + destruct (item_run_upsert_raises _ _ _ _ _ _ _ _ _ Hrun Hev Hraises)
        as [Hres' ->]. split; [congruence|reflexivity].
Qed.
End Containment.

(** ** C2: which failures the indexing pass contains *)

(** C2, as the specification states it, fails where the vector store
    refuses the upsert of the first document: the pass raises, its
    last event is the error line, and of the three files that the same
    pass fetches when the store works, only the first is fetched. *)
Lemma upsert_failure_aborts_pass :
  res (process_drive_files store_down_world 0%nat ∅) = Raise ServiceError
  /\ events (process_drive_files store_down_world 0%nat ∅) !! 1%nat
     = Some (EvPrint (MsgProcessing 1 4 "hello.txt"))
  /\ events (process_drive_files store_down_world 0%nat ∅) !! 5%nat
     = Some (EvPrint MsgErrorProcessing)
  /\ length (events (process_drive_files store_down_world 0%nat ∅)) = 6%nat
  /\ length (List.filter is_fetch (events (process_drive_files store_down_world 0%nat ∅)))
     = 1%nat
  /\ length (List.filter is_fetch (events (process_drive_files (sample_world 1) 0%nat ∅)))
     = 3%nat.
Proof. vm_compute. repeat split; reflexivity. Qed.

(** C2, amended. [read_file] and [get_embedding] never raise and
    leave the store alone: a failed download is printed and gives the
    empty text, a failed embedding call is printed (and gives the zero
    vector).  Hence, when the listing succeeds, the store
    accepts every upsert and the embedding service answers vectors of
    the configured size, the pass returns without raising whatever
    downloads and embedding calls fail, and every file of the page
    with an allowed type has had its turn.  An upsert that raises is
    not contained: the pass prints the error line and raises, and
    nothing follows. *)
Theorem fetch_and_embed_failures_contained
    {F : Type} `{Float F} (w : World F) (now : nat) (s : Store F) :
  (forall (file_id mime : string) (t : nat) (s' : Store F),
      (exists text : string, res (read_file w file_id mime t s') = Ret text)
      /\ store_after (read_file w file_id mime t s') = s'
      /\ ((if startswith mime NATIVE_PREFIX
           then drive_export w t file_id else drive_get w t file_id) = None ->
          res (read_file w file_id mime t s') = Ret EmptyString
          /\ events (read_file w file_id mime t s') !! 1%nat
             = Some (EvPrint (MsgReadError file_id))))
  /\ (forall (text : string) (t : nat) (s' : Store F),
        (exists v : list F, res (get_embedding w text t s') = Ret (Some v))
        /\ store_after (get_embedding w text t s') = s'
        /\ (embed_content w t text = None ->
            events (get_embedding w text t s') !! 1%nat
            = Some (EvPrint MsgEmbeddingError)))
  /\ (drive_list_raises w now = false ->
      (forall (t : nat) (text : string) (x : list F),
          embed_content w t text = Some x -> length x = VECTOR_SIZE) ->
      (forall (t : nat) (p : PointStruct F), upsert_raises w t p = false) ->
      res (process_drive_files w now s) = Ret tt
      /\ forall (k : nat) (item : Item),
           take 100 (drive_files w) !! k = Some item ->
           mime_allowed (item_mimeType item) = true ->
           EvPrint (MsgProcessing (S k) (length (take 100 (drive_files w)))
                      (item_file_name item))
           ∈ events (process_drive_files w now s))
  /\ (forall (pre post : list (Event F)) (p : PointStruct F),
        events (process_drive_files w now s) = pre ++ EvUpsert p :: post ->
        upsert_raises w (now + length pre)%nat p = true ->
        res (process_drive_files w now s) = Raise ServiceError
        /\ post = [EvPrint MsgErrorProcessing]).
Proof.
  split; [|split; [|split]].
  - intros file_id mime t s'. rewrite read_file_run. cbv zeta.
    destruct (if startswith mime NATIVE_PREFIX then _ else _) as [raw|];
      (split; [eauto|split; [reflexivity|]]); [discriminate|].
    intros _. split; reflexivity.
  - intros text t s'. rewrite get_embedding_run.
    destruct (embed_content w t text) as [v|];
      (split; [eauto|split; [reflexivity|]]); [discriminate|reflexivity].
  - intros Hlist Hdim Hup. rewrite process_drive_files_run, Hlist. cbv zeta.
    change LIST_PAGE_SIZE with 100%nat.
    destruct (for_enumerate_returns w (length (take 100 (drive_files w)))
                (take 100 (drive_files w))
                (fun idx item t st _ => process_item_returns w _ idx item t st Hdim Hup)
                1%nat (S now) s) as [Hres Hvisit].
    rewrite Hres. cbn [res events]. split; [reflexivity|].
    intros k item Hk Hal.
    destruct (Hvisit k item Hk) as (now' & s' & Hsub).
    apply list_elem_of_further, Hsub.
    eapply list_elem_of_lookup_2, process_item_progress, Hal.
  - intros pre post p Hev Hraises. rewrite process_drive_files_run in *.
    destruct (drive_list_raises w now).
    { exfalso. cbn [events] in Hev.
      destruct pre as [|e1 [|e2 [|e3 pre]]]; discriminate. }
    cbv zeta in *.
    destruct pre as [|e pre].
    { destruct (res (for_enumerate w _ 1 _ (S now) s)); discriminate. }
    cbn [length] in Hraises.
    replace (now + S (length pre))%nat with (S now + length pre)%nat in Hraises by lia.
    destruct (res (for_enumerate w _ 1 _ (S now) s)) as [[]|e'] eqn:Hres;
      cbn [events res] in *; injection Hev as <- Hev.
    + destruct (for_enumerate_upsert_raises w _ _ _ _ _ _ _ _ Hev Hraises) as [Hbad _].
      congruence.
    + apply app_eq_app in Hev. destruct Hev as [mid [[Hloop Hpost]|[Hpre Hrest]]].
      * destruct mid as [|x mid]; [discriminate|]. injection Hpost as <- Hpost.
        destruct (for_enumerate_upsert_raises w _ _ _ _ _ _ _ _ Hloop Hraises)
          as [Hres' ->].
        cbn [app] in Hpost. subst post. split; [congruence|reflexivity].
      * destruct mid as [|x [|y mid]]; discriminate.
Qed.

(** The pass over the sample world, whose services all work. *)
Lemma fetch_and_embed_failures_contained_witness :
  res (process_drive_files (sample_world 1) 0%nat ∅) = Ret tt
  /\ EvPrint (MsgProcessing 4 4 "book.txt")
     ∈ events (process_drive_files (sample_world 1) 0%nat ∅).
Proof.
  destruct (fetch_and_embed_failures_contained (sample_world 1) 0%nat ∅)
    as (_ & _ & Hpass & _).
  destruct Hpass as [Hres Hvisit].
  - reflexivity.
  - intros t text x Hx. unfold sample_world in Hx. cbn [embed_content] in Hx.
    apply (inj Some) in Hx. subst x. apply repeat_length.
  - intros t p. reflexivity.
  - split; [exact Hres|]. apply (Hvisit 3%nat book_item); reflexivity.
Defined.

(** ** The store after the loop body *)

Section StoreFacts.

Context {F : Type} `{Float F}.
Variable w : World F.

Lemma point_id_range (file_id : string) :
  0 <= point_id w file_id < POINT_ID_BOUND.
Proof. unfold point_id. apply Z.mod_pos_bound. reflexivity. Qed.

(** The loop body leaves the store as it was or puts one point under
    the identifier derived from the item's file identifier. *)
Lemma item_run_store (total idx : nat) (item : Item) (now : nat) (s : Store F)
    (o : Out F unit) (file_id : string) :
  ItemRun w total idx item now s o ->
  item_id item = Some file_id ->
  store_after o = s
  \/ exists p : PointStruct F,
       id p = point_id w file_id /\ store_after o = <[point_id w file_id := stored w p]> s.
Proof.
  intros Hrun Hid.
  destruct Hrun as
    [ Hal | Hal Hnone | fid mime text fetch Hf Hsmall
    | fid mime text fetch embeds chunks first rest Hf He Hmean
    | fid mime text fetch embeds chunks first rest avg Hf He Hmean Hup
    | fid mime text fetch embeds chunks first rest avg Hf He Hmean Hup ];
    cbn [store_after]; try (now left).
  right. destruct Hf as (_ & _ & Hid' & _).
  assert (fid = file_id) as -> by congruence.
  exists (make_point w file_id (item_file_name item) text avg). split; reflexivity.
Qed.
End StoreFacts.

(** ** C4: the point identifier *)

(** C4, as the specification states it, fails: two processes started
    with different hash seeds derive different identifiers from the
    same file identifier, everything else being equal. *)
Lemma point_id_differs_across_processes :
  sample_world 2 = with_py_hash (sample_world 1) (CPython.str_hash 2)
  /\ point_id (sample_world 1) "file-1" = 958092887365335211
  /\ point_id (sample_world 2) "file-1" = 345333556923734210
  /\ point_id (sample_world 1) "file-1" <> point_id (sample_world 2) "file-1".
Proof.
  split; [reflexivity|].
  split; [vm_compute; reflexivity|].
  split; [vm_compute; reflexivity|].
  vm_compute. discriminate.
Qed.

(** C4, amended. Within one process the point identifier is a function
    of the file identifier alone, [abs(hash(file_id)) mod 10^18], a
    number from 0 to [10^18 - 1]; every point the loop body upserts for
    a file carries that identifier.  So running the body twice on the
    same file in one process touches no other key of the store, and
    once the file has a point the second run leaves the store with the
    same keys and the same number of points: one point for the file,
    under an unchanged identifier. *)
Theorem point_id_stable_within_process
    {F : Type} `{Float F} (w : World F) :
  (forall file_id : string,
      point_id w file_id = Z.abs (py_hash w file_id) mod 10 ^ 18
      /\ 0 <= point_id w file_id < 10 ^ 18)
  /\ (forall (total idx : nat) (item : Item) (now : nat) (s : Store F)
             (p : PointStruct F),
        EvUpsert p ∈ events (process_item w total idx item now s) ->
        exists file_id : string,
          item_id item = Some file_id /\ id p = point_id w file_id)
  /\ (forall (total idx total' idx' : nat) (item : Item) (file_id : string)
             (now now' : nat) (s : Store F),
        item_id item = Some file_id ->
        let o1 := process_item w total idx item now s in
        let o2 := process_item w total' idx' item now' (store_after o1) in
        (forall key : Z,
            key <> point_id w file_id -> store_after o2 !! key = s !! key)
        /\ (is_Some (store_after o1 !! point_id w file_id) ->
            is_Some (store_after o2 !! point_id w file_id)
            /\ dom (store_after o2) = dom (store_after o1)
            /\ size (store_after o2) = size (store_after o1))).
Proof.
  split; [|split].
  - intros file_id. split; [reflexivity|apply point_id_range].
  - intros total idx item now s p Hp.
    destruct (item_run_upsert w _ _ _ _ _ _ _
                (process_item_outcome w total idx item now s) Hp)
      as (file_id & mime & text & fetch & embeds & chunks & first & rest & avg
          & Hf & _ & _ & -> & _).
    exists file_id. split; [apply Hf|reflexivity].
  - intros total idx total' idx' item file_id now now' s Hid o1 o2.
    pose proof (item_run_store w _ _ _ _ _ _ file_id
                  (process_item_outcome w total idx item now s) Hid) as H1.
    pose proof (item_run_store w _ _ _ _ _ _ file_id
                  (process_item_outcome w total' idx' item now' (store_after o1)) Hid) as H2.
    fold o1 in H1. fold o2 in H2. unfold Store in *.
    split.
    + intros key Hkey.
      destruct H2 as [-> | (p2 & _ & ->)]; destruct H1 as [-> | (p1 & _ & ->)];
        rewrite ?lookup_insert_ne by congruence; reflexivity.
    + intros [p0 Hp0].
      destruct H2 as [-> | (p2 & _ & ->)].
      * split; [now exists p0|]. split; reflexivity.
      * split; [rewrite lookup_insert_eq; eauto|].
        split.
        -- apply dom_insert_lookup_L. now exists p0.
        -- apply map_size_insert_Some. now exists p0.
Qed.

(** Indexing the first file of the sample world twice. *)
Lemma point_id_stable_within_process_witness :
  size (store_after
          (process_item (sample_world 1) 4%nat 1%nat hello_item 6%nat
             (store_after (process_item (sample_world 1) 4%nat 1%nat hello_item 0%nat ∅))))
  = size (store_after (process_item (sample_world 1) 4%nat 1%nat hello_item 0%nat ∅)).
Proof.
  destruct (point_id_stable_within_process (sample_world 1)) as (_ & _ & Htwice).
  destruct (Htwice 4%nat 1%nat 4%nat 1%nat hello_item "file-1"%string 0%nat 6%nat ∅ eq_refl)
    as [_ Hsame].
  apply Hsame. vm_compute. eauto.
Defined.

(** ** C3: a document whose embeddings all fail *)

(** C3. Where the embedding service is down, the pass over an account
    that holds the sample document returns without raising, and the
    document is not skipped: a point with the all-zero vector is
    upserted and stored for it. *)
Theorem zero_vector_document_is_stored :
  let w := with_drive_files embedding_down_world [hello_item] in
  let p := make_point w "file-1" "hello.txt" sample_text (repeat 0%Q 768) in
  res (process_drive_files w 0%nat ∅) = Ret tt
  /\ events (process_drive_files w 0%nat ∅)
     = [EvList 100 None; EvPrint (MsgProcessing 1 1 "hello.txt"); EvGetMedia "file-1";
        EvEmbed sample_text; EvPrint MsgEmbeddingError; EvUpsert p;
        EvPrint (MsgProcessed "hello.txt")]
  /\ store_after (process_drive_files w 0%nat ∅) !! 958092887365335211 = Some p.
Proof. vm_compute. repeat split; reflexivity. Qed.

(** * Further properties *)

(** ** Edge cases of the chunker *)

(** X1. A zero [max_chars] makes [chunk_text] raise [ValueError], for
    every text; a negative [max_chars] makes it return the empty list,
    so that a non-empty text is lost. *)
Theorem chunk_text_bad_sizes (T : string) (M : Z) :
  (M = 0 -> chunk_text T M = Raise ValueError)
  /\ (M < 0 -> chunk_text T M = Ret [] /\ (T <> EmptyString -> join [] <> T)).
Proof.
  split.
  - intros ->. reflexivity.
  - intros HM. unfold chunk_text, py_range0.
    destruct (Z.eqb_spec M 0) as [?|_]; [lia|].
    destruct (Z.ltb_spec M 0) as [_|?]; [|lia].
    split; [reflexivity|]. intros Hne Heq. apply Hne. now rewrite <- Heq.
Qed.

(** Seven characters with sizes 0 and -3. *)
Lemma chunk_text_bad_sizes_witness :
  chunk_text "abcdefg" 0 = Raise ValueError
  /\ chunk_text "abcdefg" (-3) = Ret [].
Proof.
  destruct (chunk_text_bad_sizes "abcdefg" 0) as [Hzero _].
  destruct (chunk_text_bad_sizes "abcdefg" (-3)) as [_ Hneg].
  split; [apply Hzero; reflexivity | apply Hneg; lia].
Defined.

(** X2. For [max_chars > 0], every chunk but the last has exactly
    [max_chars] characters and the last holds what remains; a
    non-empty text of at most [max_chars] characters is returned as a
    single chunk, itself. *)
Theorem chunk_text_full_chunks (T : string) (M : Z) (chunks : list string) :
  0 < M ->
  chunk_text T M = Ret chunks ->
  (forall (k : nat) (c : string),
      chunks !! k = Some c -> (S k < length chunks)%nat -> Z.of_nat (len c) = M)
  /\ (forall c : string,
        last chunks = Some c ->
        Z.of_nat (len c) = Z.of_nat (len T) - (Z.of_nat (length chunks) - 1) * M)
  /\ (T <> EmptyString -> Z.of_nat (len T) <= M -> chunks = [T]).
Proof.
  intros HM Hrun.
  set (m := Z.to_nat M).
  assert (Hm : (0 < m)%nat) by (unfold m; lia).
  unfold chunk_text, py_range0 in Hrun.
  destruct (Z.eqb_spec M 0) as [?|_]; [lia|].
  destruct (Z.ltb_spec M 0) as [?|_]; [lia|].
  injection Hrun as <-. fold m.
  assert (Hlook : forall (k : nat) (c : string),
             map (fun i => slice T i (i + m)) (range_from (len T) 0 (len T) m) !! k = Some c ->
             c = substring (k * m) m T /\ (k * m < len T)%nat).
  { intros k c Hk. rewrite list_lookup_fmap in Hk.
    destruct (range_from (len T) 0 (len T) m !! k) as [j|] eqn:Hj; [|discriminate].
    simpl in Hk. injection Hk as <-.
    apply range_from_lookup in Hj; [|exact Hm]. destruct Hj as [-> Hlt]. simpl in *.
    unfold slice. split; [f_equal; lia | lia]. }
  assert (Hcount : length (map (fun i => slice T i (i + m)) (range_from (len T) 0 (len T) m))
                   = ((len T + m - 1) / m)%nat).
  { rewrite length_map, (range_from_length T m Hm) by lia. f_equal. lia. }
  set (chunks := map (fun i => slice T i (i + m)) (range_from (len T) 0 (len T) m)) in *.
  split; [|split].
  - intros k c Hk Hnext.
    destruct (lookup_lt_is_Some_2 chunks (S k) Hnext) as [c' Hc'].
    apply Hlook in Hk. apply Hlook in Hc'. destruct Hk as [-> _]. destruct Hc' as [_ Hlt].
    rewrite len_substring. lia.
  - intros c Hlast. rewrite last_lookup in Hlast.
    pose proof (Hlook _ _ Hlast) as [-> Hlt].
    rewrite len_substring.
    assert (Hn : (0 < length chunks)%nat).
    { apply lookup_lt_Some in Hlast. lia. }
    assert (Hcover : (len T <= length chunks * m)%nat).
    { rewrite Hcount.
      pose proof (Nat.div_mod (len T + m - 1) m ltac:(lia)) as Hdm.
      pose proof (Nat.mod_upper_bound (len T + m - 1) m ltac:(lia)) as Hmod.
      nia. }
    replace (pred (length chunks)) with (length chunks - 1)%nat in * by lia.
    assert (HM' : M = Z.of_nat m) by (unfold m; lia).
    nia.
  - intros Hne Hfit.
    assert (HlenT : (0 < len T)%nat).
    { destruct T; [congruence|]. unfold len. simpl. lia. }
    assert (Hone : length chunks = 1%nat).
    { rewrite Hcount. symmetry.
      apply (Nat.div_unique _ _ 1%nat (len T - 1)%nat); unfold m in *; lia. }
    clearbody chunks.
    destruct chunks as [|c [|c' rest]]; try discriminate.
    f_equal. destruct (Hlook 0%nat c eq_refl) as [-> _].
    simpl. apply substring_all. lia.
Qed.

(** Seven characters in pieces of three: the first piece is full. *)
Lemma chunk_text_full_chunks_witness :
  Z.of_nat (len "abc") = 3.
Proof.
  destruct (chunk_text_full_chunks "abcdefg" 3 ["abc"; "def"; "g"]%string
              ltac:(lia) eq_refl) as [Hfull _].
  apply (Hfull 0%nat "abc"%string); [reflexivity | simpl; lia].
Defined.

(** ** White space *)

Lemma lstrip_first (s : string) (c : ascii) :
  first_char (lstrip s) = Some c -> isspace c = false.
Proof.
  induction s as [|a s IH]; [discriminate|].
  cbn [lstrip]. destruct (isspace a) eqn:Ha; [exact IH|].
  intros [= <-]. exact Ha.
Qed.

Lemma rstrip_first (s : string) (c : ascii) :
  first_char (rstrip s) = Some c -> first_char s = Some c.
Proof.
  destruct s as [|a s]; [discriminate|].
  cbn [rstrip]. destruct (rstrip s); [destruct (isspace a); [discriminate|]|]; tauto.
Qed.

Lemma rstrip_last (s : string) (c : ascii) :
  last_char (rstrip s) = Some c -> isspace c = false.
Proof.
  induction s as [|a s IH]; [discriminate|].
  cbn [rstrip]. destruct (rstrip s) as [|b r].
  - destruct (isspace a) eqn:Ha; [discriminate|]. intros [= <-]. exact Ha.
  - exact IH.
Qed.

Lemma rstrip_idempotent (s : string) : rstrip (rstrip s) = rstrip s.
Proof.
  induction s as [|a s IH]; [reflexivity|].
  cbn [rstrip]. destruct (rstrip s) as [|b r] eqn:Hr.
  - destruct (isspace a) eqn:Ha; [reflexivity|]. cbn [rstrip]. now rewrite Ha.
  - change (rstrip (String a (String b r))) with
      (match rstrip (String b r) with
       | EmptyString => if isspace a then EmptyString else String a EmptyString
       | r' => String a r'
       end).
    now rewrite IH.
Qed.

Lemma lstrip_fixed (s : string) :
  (forall c : ascii, first_char s = Some c -> isspace c = false) -> lstrip s = s.
Proof.
  destruct s as [|a s]; [reflexivity|]. intros Hfirst.
  cbn [lstrip]. now rewrite (Hfirst a eq_refl).
Qed.

(** What [strip] returns has white space at neither end, and stripping
    it again changes nothing. *)
Lemma strip_clean (s : string) :
  (forall c : ascii, first_char (strip s) = Some c -> isspace c = false)
  /\ (forall c : ascii, last_char (strip s) = Some c -> isspace c = false)
  /\ strip (strip s) = strip s.
Proof.
  assert (Hfirst : forall c : ascii, first_char (strip s) = Some c -> isspace c = false).
  { intros c Hc. apply rstrip_first in Hc. eapply lstrip_first, Hc. }
  split; [exact Hfirst|]. split.
  - intros c. apply rstrip_last.
  - unfold strip at 1. rewrite (lstrip_fixed _ Hfirst). apply rstrip_idempotent.
Qed.

Lemma len_lstrip (s : string) : (len (lstrip s) <= len s)%nat.
Proof.
  induction s as [|a s IH]; [reflexivity|].
  cbn [lstrip]. destruct (isspace a); [|reflexivity].
  unfold len in *. simpl. lia.
Qed.

Lemma len_rstrip (s : string) : (len (rstrip s) <= len s)%nat.
Proof.
  induction s as [|a s IH]; [reflexivity|].
  cbn [rstrip]. unfold len in *. destruct (rstrip s) as [|b r].
  - destruct (isspace a); simpl; lia.
  - simpl in *. lia.
Qed.

(** ** The content fetcher *)

(** X3. [read_file] always returns a text, and that text has white
    space at neither end (stripping it again changes nothing): the
    stripped download when the download succeeds, never longer than
    what was downloaded; and the empty text when the download fails,
    after the line that reports the failure.  The store is left as it
    was. *)
Theorem read_file_text_is_stripped
    {F : Type} `{Float F} (w : World F) (file_id mime_type : string)
    (now : nat) (s : Store F) :
  exists text : string,
    res (read_file w file_id mime_type now s) = Ret text
    /\ (forall c : ascii, first_char text = Some c -> isspace c = false)
    /\ (forall c : ascii, last_char text = Some c -> isspace c = false)
    /\ strip text = text
    /\ (forall raw : string,
          (if startswith mime_type NATIVE_PREFIX
           then drive_export w now file_id else drive_get w now file_id) = Some raw ->
          text = strip raw /\ (len text <= len raw)%nat)
    /\ ((if startswith mime_type NATIVE_PREFIX
         then drive_export w now file_id else drive_get w now file_id) = None ->
        text = EmptyString
        /\ events (read_file w file_id mime_type now s)
           = [if startswith mime_type NATIVE_PREFIX
              then EvExport file_id "text/plain" else EvGetMedia file_id;
              EvPrint (MsgReadError file_id)])
    /\ store_after (read_file w file_id mime_type now s) = s.
Proof.
  rewrite read_file_run. cbv zeta.
  destruct (if startswith mime_type NATIVE_PREFIX then _ else _) as [raw|].
  - exists (strip raw). cbn [res events store_after].
    destruct (strip_clean raw) as (Hfirst & Hlast & Hidem).
    split; [reflexivity|]. split; [exact Hfirst|]. split; [exact Hlast|].
    split; [exact Hidem|].
    split; [|split; [discriminate|reflexivity]].
    intros raw' [= <-]. split; [reflexivity|].
    unfold strip. etransitivity; [apply len_rstrip|apply len_lstrip].
  - exists EmptyString. cbn [res events store_after].
    split; [reflexivity|]. split; [discriminate|]. split; [discriminate|].
    split; [reflexivity|]. split; [discriminate|]. split; [|reflexivity].
    intros _. split; reflexivity.
Qed.

Section Fetching.
Context {F : Type} `{Float F}.
Variable w : World F.

(** The events of a fetch: one download, of the kind the type calls
    for, and the error line when it failed. *)
Lemma fetched_shape (item : Item) (now : nat) (s : Store F)
    (file_id mime text : string) (fetch : list (Event F)) :
  fetched w item now s file_id mime text fetch ->
  exists ev : Event F,
    (startswith mime NATIVE_PREFIX = true /\ ev = EvExport file_id "text/plain"
     \/ startswith mime NATIVE_PREFIX = false /\ ev = EvGetMedia file_id)
    /\ (fetch = [ev] \/ fetch = [ev; EvPrint (MsgReadError file_id)]).
Proof.
  intros (_ & _ & _ & _ & Hread).
  rewrite read_file_run in Hread. cbv zeta in Hread.
  destruct (startswith mime NATIVE_PREFIX);
    [destruct (drive_export w (S now) file_id) | destruct (drive_get w (S now) file_id)];
    injection Hread as _ <-; eexists; (split; [|eauto]); eauto.
Qed.

(** A download among the events of the loop body is the first event of
    the item's fetch. *)
Lemma item_run_fetch (total idx : nat) (item : Item) (now : nat) (s : Store F)
    (o : Out F unit) (e : Event F) :
  ItemRun w total idx item now s o ->
  e ∈ events o -> is_fetch e = true ->
  exists (file_id mime text : string) (fetch : list (Event F)),
    fetched w item now s file_id mime text fetch /\ fetch !! 0%nat = Some e.
Proof.
  intros Hrun Hin He.
  assert (Hfetch : forall (file_id mime text : string) (fetch : list (Event F)),
             fetched w item now s file_id mime text fetch ->
             e ∈ fetch -> fetch !! 0%nat = Some e).
  { intros file_id mime text fetch Hf Hin'.
    destruct (fetched_shape _ _ _ _ _ _ _ Hf) as (ev & _ & [-> | ->]).
    - apply list_elem_of_singleton in Hin'. now subst.
    - rewrite elem_of_cons, list_elem_of_singleton in Hin'.
      destruct Hin' as [->| ->]; [reflexivity|discriminate]. }
  assert (Hembed : forall l : list (Event F), Forall embed_event l -> e ∈ l -> False).
  { intros l Hl Hin'. rewrite Forall_forall in Hl. apply Hl, embed_event_kind in Hin'.
    destruct Hin' as [Hin' _]. congruence. }
  destruct Hrun as
    [ Hal | Hal Hid | fid mime text fetch Hf Hsmall
    | fid mime text fetch embeds chunks first rest Hf Hemb Hmean
    | fid mime text fetch embeds chunks first rest avg Hf Hemb Hmean Hup
    | fid mime text fetch embeds chunks first rest avg Hf Hemb Hmean Hup ];
    cbn [events] in Hin.
  - inversion Hin.
  - rewrite !elem_of_cons, elem_of_nil in Hin.
    destruct Hin as [->|[->|[]]]; discriminate.
  - rewrite elem_of_cons, elem_of_app, list_elem_of_singleton in Hin.
    destruct Hin as [->|[Hin| ->]]; [discriminate| |discriminate]. eauto 10.
  - rewrite elem_of_cons, elem_of_app in Hin.
    destruct Hin as [->|[Hin|Hin]]; [discriminate| |]; [eauto 10|].
    destruct (Hembed embeds); [now apply embedded_events in Hemb|exact Hin].
  - rewrite elem_of_cons, !elem_of_app, list_elem_of_singleton in Hin.
    destruct Hin as [->|[Hin|[Hin| ->]]]; [discriminate| | |discriminate]; [eauto 10|].
    destruct (Hembed embeds); [now apply embedded_events in Hemb|exact Hin].
  - rewrite elem_of_cons, !elem_of_app, elem_of_cons, list_elem_of_singleton in Hin.
    destruct Hin as [->|[Hin|[Hin|[->| ->]]]];
      [discriminate| | |discriminate|discriminate]; [eauto 10|].
    destruct (Hembed embeds); [now apply embedded_events in Hemb|exact Hin].
Qed.
End Fetching.

(** X4. Every download the loop body attempts is for an item that has
    a non-empty identifier and is of the kind its declared type calls
    for: an export as [text/plain] for the three Google-native types of
    the allow-list, a raw download for PDF, Word and plain text. *)
Theorem download_follows_type
    {F : Type} `{Float F} (w : World F) (total idx : nat) (item : Item)
    (now : nat) (s : Store F) (k : nat) (e : Event F) :
  events (process_item w total idx item now s) !! k = Some e ->
  is_fetch e = true ->
  exists file_id mime : string,
    item_id item = Some file_id
    /\ file_id <> EmptyString
    /\ item_mimeType item = Some mime
    /\ (e = EvExport file_id "text/plain"
        /\ In mime ["application/vnd.google-apps.document";
                    "application/vnd.google-apps.spreadsheet";
                    "application/vnd.google-apps.presentation"]%string
        \/ e = EvGetMedia file_id
           /\ In mime ["application/pdf";
                       "application/vnd.openxmlformats-officedocument.wordprocessingml.document";
                       "text/plain"]%string).
Proof.
  intros Hin He. apply list_elem_of_lookup_2 in Hin.
  destruct (item_run_fetch w _ _ _ _ _ _ _ (process_item_outcome w total idx item now s)
              Hin He) as (file_id & mime & text & fetch & Hf & Hfirst).
  exists file_id, mime.
  pose proof Hf as (Hmime & Hal & Hid & Htruthy & _).
  split; [exact Hid|]. split; [intros ->; discriminate|]. split; [exact Hmime|].
  destruct (fetched_shape w _ _ _ _ _ _ _ Hf) as (ev & Hkind & Hshape).
  assert (ev = e) as -> by (destruct Hshape as [-> | ->]; now injection Hfirst).
  apply mime_allowed_spec in Hal. destruct Hal as (t & [= <-] & Hallowed).
  cbn [allowed_types In] in Hallowed.
  destruct Hallowed as [<-|[<-|[<-|[<-|[<-|[<-|[]]]]]]];
    destruct Hkind as [[Hsw ->]|[Hsw ->]];
    try discriminate Hsw; cbn [In]; tauto.
Qed.

(** The memo of the sample world is a Google document: it is exported. *)
Lemma download_follows_type_witness :
  exists file_id mime : string,
    item_id memo_item = Some file_id /\ item_mimeType memo_item = Some mime.
Proof.
  destruct (download_follows_type (sample_world 1) 4%nat 3%nat memo_item 0%nat ∅
              1%nat (EvExport "file-3" "text/plain") eq_refl eq_refl)
    as (file_id & mime & Hid & _ & Hmime & _).
  exists file_id, mime. split; [exact Hid|exact Hmime].
Defined.

(** ** Counting and replaying *)

Section Replaying.
Context {F : Type} `{Float F}.
Variable w : World F.

(** *** Counting events *)

Lemma count_events_cons (kind : Event F -> bool) (e : Event F) (l : list (Event F)) :
  count_events kind (e :: l)
  = ((if kind e then 1 else 0) + count_events kind l)%nat.
Proof. unfold count_events. cbn [List.filter]. now destruct (kind e). Qed.

Lemma count_events_app (kind : Event F -> bool) (l1 l2 : list (Event F)) :
  count_events kind (l1 ++ l2) = (count_events kind l1 + count_events kind l2)%nat.
Proof. unfold count_events. now rewrite List.filter_app, length_app. Qed.

Lemma count_events_none (kind : Event F -> bool) (l : list (Event F)) :
  Forall (fun e => kind e = false) l -> count_events kind l = 0%nat.
Proof. intros Hl. unfold count_events. now rewrite (filter_none _ _ Hl). Qed.

(** *** Replaying a trace *)

Lemma replay_app (l1 l2 : list (Event F)) :
  forall (now : nat) (s : Store F),
    replay w now (l1 ++ l2) s = replay w (now + length l1) l2 (replay w now l1 s).
Proof.
  induction l1 as [|e l1 IH]; intros now s.
  - cbn. now rewrite Nat.add_0_r.
  - cbn [app length]. replace (now + S (length l1))%nat with (S now + length l1)%nat by lia.
    destruct e; cbn [replay]; apply IH.
Qed.

Lemma replay_no_upsert (l : list (Event F)) :
  Forall (fun e => is_upsert e <> true) l ->
  forall (now : nat) (s : Store F), replay w now l s = s.
Proof.
  induction 1 as [|e l He _ IH]; intros now s; [reflexivity|].
  destruct e; cbn [replay]; try apply IH. now destruct He.
Qed.

(** A replay keeps every key of the store, leaves alone the keys that
    no upsert of the trace names, and adds at most one point per
    upsert. *)
Lemma replay_grows (l : list (Event F)) :
  forall (now : nat) (s : Store F),
    dom s ⊆ dom (replay w now l s)
    /\ (forall key : Z,
          (forall p : PointStruct F, EvUpsert p ∈ l -> id p <> key) ->
          replay w now l s !! key = s !! key)
    /\ (size s <= size (replay w now l s) <= size s + count_events is_upsert l)%nat.
Proof.
  unfold Store.
  induction l as [|e l IH]; intros now s.
  - cbn. split; [reflexivity|]. split; [reflexivity|]. unfold count_events. cbn. lia.
  - rewrite count_events_cons.
    destruct e as [| | | |p| | |]; cbn [replay is_upsert];
      try (destruct (IH (S now) s) as (Hdom & Hframe & Hsize);
           split; [exact Hdom|]; split; [|lia];
           intros key Hkey; apply Hframe; intros q Hq; apply Hkey; now right).
    destruct (upsert_raises w now p).
    + destruct (IH (S now) s) as (Hdom & Hframe & Hsize).
      split; [exact Hdom|]. split; [|lia].
      intros key Hkey. apply Hframe. intros q Hq. apply Hkey. now right.
    + destruct (IH (S now) (<[id p := stored w p]> s)) as (Hdom & Hframe & Hsize).
      split.
      { etransitivity; [|exact Hdom]. rewrite dom_insert_L. apply union_subseteq_r. }
      split.
      { intros key Hkey. rewrite Hframe.
        - apply lookup_insert_ne. apply Hkey. now left.
        - intros q Hq. apply Hkey. now right. }
      destruct (s !! id p) as [q|] eqn:Hq.
      * rewrite (map_size_insert_Some (id p) (stored w p) s) in Hsize by eauto.
        destruct Hsize as [Hlow Hhigh].
        split; [exact Hlow | etransitivity; [exact Hhigh | lia]].
      * rewrite (map_size_insert_None (id p) (stored w p) s Hq) in Hsize.
        destruct Hsize as [Hlow Hhigh].
        split; [etransitivity; [|exact Hlow]; lia | etransitivity; [exact Hhigh | lia]].
Qed.
End Replaying.

Section Passes.
Context {F : Type} `{Float F}.
Variable w : World F.

Lemma replay_after_prefix (pre tail : list (Event F)) (now : nat) (s : Store F) :
  Forall (fun e => is_upsert e <> true) pre ->
  replay w now (pre ++ tail) s = replay w (now + length pre) tail s.
Proof. intros Hpre. now rewrite replay_app, (replay_no_upsert w pre Hpre). Qed.

(** The events before the upsert of a document hold no upsert. *)
Lemma item_prefix_no_upsert (total idx : nat) (item : Item) (now : nat) (s : Store F)
    (file_id mime text : string) (fetch embeds : list (Event F))
    (chunks : list string) (first : list F) (rest : list (list F)) :
  fetched w item now s file_id mime text fetch ->
  embedded w now s text fetch chunks first rest embeds ->
  Forall (fun e => is_upsert e <> true)
    (EvPrint (MsgProcessing idx total (item_file_name item)) :: fetch ++ embeds).
Proof.
  intros Hf He. constructor; [discriminate|]. apply Forall_app. split.
  - apply fetch_no_upsert. now apply fetched_events in Hf.
  - apply embed_no_upsert. now apply embedded_events in He.
Qed.

(** The store after the loop body is the replay of its trace. *)
Lemma item_run_replay (total idx : nat) (item : Item) (now : nat) (s : Store F)
    (o : Out F unit) :
  ItemRun w total idx item now s o -> store_after o = replay w now (events o) s.
Proof.
  intros Hrun.
  destruct Hrun as
    [ Hal | Hal Hid | fid mime text fetch Hf Hsmall
    | fid mime text fetch embeds chunks first rest Hf He Hmean
    | fid mime text fetch embeds chunks first rest avg Hf He Hmean Hup
    | fid mime text fetch embeds chunks first rest avg Hf He Hmean Hup ];
    cbn [events store_after].
  - reflexivity.
  - reflexivity.
  - symmetry. apply replay_no_upsert. constructor; [discriminate|].
    apply Forall_app. split.
    + apply fetch_no_upsert. now apply fetched_events in Hf.
    + repeat constructor; discriminate.
  - symmetry. apply replay_no_upsert. eapply item_prefix_no_upsert; eauto.
  - rewrite app_comm_cons, app_assoc.
    rewrite replay_after_prefix by (eapply (item_prefix_no_upsert total idx); eauto).
    cbn [replay]. rewrite length_app. cbn [length].
    replace (now + (S (length fetch) + length embeds))%nat
      with (S now + length fetch + length embeds)%nat by lia.
    now rewrite Hup.
  - rewrite app_comm_cons, app_assoc.
    rewrite replay_after_prefix by (eapply (item_prefix_no_upsert total idx); eauto).
    cbn [replay]. rewrite length_app. cbn [length].
    replace (now + (S (length fetch) + length embeds))%nat
      with (S now + length fetch + length embeds)%nat by lia.
    now rewrite Hup.
Qed.

Lemma for_enumerate_replay (total : nat) (items : list Item) :
  forall (idx now : nat) (s : Store F),
    store_after (for_enumerate w total idx items now s)
    = replay w now (events (for_enumerate w total idx items now s)) s.
Proof.
  induction items as [|item items IH]; intros idx now s; [reflexivity|].
  cbn [for_enumerate]. unfold bind.
  pose proof (item_run_replay _ _ _ _ _ _ (process_item_outcome w total idx item now s))
    as Hitem.
  destruct (res (process_item w total idx item now s)); cbn [events store_after].
  - rewrite replay_app, <- Hitem. apply IH.
  - exact Hitem.
Qed.

Lemma process_drive_files_replay (now : nat) (s : Store F) :
  store_after (process_drive_files w now s)
  = replay w now (events (process_drive_files w now s)) s.
Proof.
  rewrite process_drive_files_run.
  destruct (drive_list_raises w now); [reflexivity|]. cbv zeta.
  pose proof (for_enumerate_replay (length (take LIST_PAGE_SIZE (drive_files w)))
                (take LIST_PAGE_SIZE (drive_files w)) 1%nat (S now) s) as Hloop.
  destruct (res (for_enumerate w _ 1 _ (S now) s)); cbn [events store_after replay].
  - exact Hloop.
  - rewrite replay_app. cbn [replay]. exact Hloop.
Qed.

(** *** Counting downloads and upserts *)

Lemma fetch_event_count (l : list (Event F)) :
  Forall fetch_event l ->
  count_events is_embed l = 0%nat /\ count_events is_upsert l = 0%nat
  /\ count_events is_list l = 0%nat.
Proof.
  intros Hl. repeat split; apply count_events_none;
    (eapply Forall_impl; [exact Hl|]); intros e [He|[fid ->]]; try reflexivity;
    destruct e; try discriminate; reflexivity.
Qed.

Lemma embed_event_count (l : list (Event F)) :
  Forall embed_event l ->
  count_events is_fetch l = 0%nat /\ count_events is_upsert l = 0%nat
  /\ count_events is_list l = 0%nat.
Proof.
  intros Hl. repeat split; apply count_events_none;
    (eapply Forall_impl; [exact Hl|]); intros e [He| ->]; try reflexivity;
    destruct e; try discriminate; reflexivity.
Qed.

Lemma fetched_count (item : Item) (now : nat) (s : Store F)
    (file_id mime text : string) (fetch : list (Event F)) :
  fetched w item now s file_id mime text fetch -> count_events is_fetch fetch = 1%nat.
Proof.
  intros Hf. destruct (fetched_shape w _ _ _ _ _ _ _ Hf) as (ev & Hkind & Hshape).
  destruct Hkind as [[_ ->]|[_ ->]]; destruct Hshape as [-> | ->]; reflexivity.
Qed.

(** The loop body downloads at most once and upserts at most once,
    and only after a download. *)
Lemma item_run_counts (total idx : nat) (item : Item) (now : nat) (s : Store F)
    (o : Out F unit) :
  ItemRun w total idx item now s o ->
  (count_events is_upsert (events o) <= count_events is_fetch (events o) <= 1)%nat.
Proof.
  intros Hrun.
  destruct Hrun as
    [ Hal | Hal Hid | fid mime text fetch Hf Hsmall
    | fid mime text fetch embeds chunks first rest Hf He Hmean
    | fid mime text fetch embeds chunks first rest avg Hf He Hmean Hup
    | fid mime text fetch embeds chunks first rest avg Hf He Hmean Hup ];
    cbn [events];
    rewrite ?count_events_cons, ?count_events_app, ?count_events_cons;
    cbn [is_upsert is_fetch];
    try (pose proof (fetched_count _ _ _ _ _ _ _ Hf) as Hone;
         apply fetched_events in Hf; destruct Hf as [Hf _];
         destruct (fetch_event_count _ Hf) as (_ & Hfu & _));
    try (apply embedded_events in He; destruct He as [He _];
         destruct (embed_event_count _ He) as (Hef & Heu & _));
    unfold count_events in *; cbn [List.filter length] in *; lia.
Qed.

Lemma for_enumerate_counts (total : nat) (items : list Item) :
  forall (idx now : nat) (s : Store F),
    (count_events is_upsert (events (for_enumerate w total idx items now s))
     <= count_events is_fetch (events (for_enumerate w total idx items now s))
     <= length items)%nat.
Proof.
  induction items as [|item items IH]; intros idx now s.
  - cbn. unfold count_events. cbn. lia.
  - cbn [for_enumerate]. unfold bind.
    pose proof (item_run_counts _ _ _ _ _ _ (process_item_outcome w total idx item now s))
      as Hitem.
    destruct (res (process_item w total idx item now s)); cbn [events length].
    + rewrite !count_events_app.
      specialize (IH (S idx) (now + length (events (process_item w total idx item now s)))%nat
                    (store_after (process_item w total idx item now s))).
      lia.
    + lia.
Qed.
End Passes.

Section Documents.
Context {F : Type} `{Float F}.
Variable w : World F.

(** The embedding loop calls the service once per chunk, in order. *)
Lemma embed_chunks_calls (chunks : list string) :
  forall (acc : list (list F)) (now : nat) (s : Store F),
    List.filter is_embed (events (embed_chunks w chunks acc now s)) = map EvEmbed chunks.
Proof.
  induction chunks as [|chunk chunks IH]; intros acc now s; [reflexivity|].
  cbn [embed_chunks]. unfold bind. rewrite get_embedding_run.
  destruct (embed_content w now chunk) as [v|];
    cbn [res events List.filter is_embed app map]; rewrite ?List.filter_app;
    cbn [List.filter is_embed app]; now rewrite IH.
Qed.

(** The embedding calls of the loop body are those of its embedding
    loop. *)
Lemma item_run_embed_calls (total idx : nat) (item : Item) (now : nat) (s : Store F)
    (o : Out F unit) (file_id mime text : string) (fetch embeds : list (Event F))
    (chunks : list string) (first : list F) (rest : list (list F)) :
  ItemRun w total idx item now s o ->
  fetched w item now s file_id mime text fetch ->
  embedded w now s text fetch chunks first rest embeds ->
  List.filter is_embed (events o) = List.filter is_embed embeds.
Proof.
  intros Hrun Hf He.
  assert (Hfetch : List.filter is_embed fetch = []).
  { apply filter_none. apply fetched_events in Hf. destruct Hf as [Hf _].
    eapply Forall_impl; [exact Hf|]. intros e He'. now apply fetch_event_kind in He'. }
  destruct Hrun as
    [ Hal | Hal Hid | fid' mime' text' fetch' Hf' Hsmall'
    | fid' mime' text' fetch' embeds' chunks' first' rest' Hf' He' Hmean'
    | fid' mime' text' fetch' embeds' chunks' first' rest' avg' Hf' He' Hmean' Hup
    | fid' mime' text' fetch' embeds' chunks' first' rest' avg' Hf' He' Hmean' Hup ].
  - destruct Hf as (Hm & Hal' & _). rewrite Hm in Hal. congruence.
  - destruct Hf as (_ & _ & Hi & Ht & _).
    destruct Hid as [Hid|Hid]; rewrite Hid in Hi; [discriminate|].
    injection Hi as <-. discriminate.
  - destruct (fetched_functional w _ _ _ _ _ _ _ _ _ _ _ Hf Hf') as (_ & _ & <- & _).
    destruct He as (Hlong & _). unfold MIN_CONTENT_LENGTH in *. lia.
  - destruct (fetched_functional w _ _ _ _ _ _ _ _ _ _ _ Hf Hf') as (<- & <- & <- & <-).
    destruct (embedded_functional w _ _ _ _ _ _ _ _ _ _ _ _ He He') as (_ & _ & _ & <-).
    cbn [events List.filter is_embed]. now rewrite List.filter_app, Hfetch.
  - destruct (fetched_functional w _ _ _ _ _ _ _ _ _ _ _ Hf Hf') as (<- & <- & <- & <-).
    destruct (embedded_functional w _ _ _ _ _ _ _ _ _ _ _ _ He He') as (_ & _ & _ & <-).
    cbn [events List.filter is_embed]. rewrite !List.filter_app, Hfetch.
    cbn [List.filter is_embed app]. now rewrite app_nil_r.
  - destruct (fetched_functional w _ _ _ _ _ _ _ _ _ _ _ Hf Hf') as (<- & <- & <- & <-).
    destruct (embedded_functional w _ _ _ _ _ _ _ _ _ _ _ _ He He') as (_ & _ & _ & <-).
    cbn [events List.filter is_embed]. rewrite !List.filter_app, Hfetch.
    cbn [List.filter is_embed app]. now rewrite app_nil_r.
Qed.

(** What [read_file] returns is stripped. *)
Lemma fetched_stripped (item : Item) (now : nat) (s : Store F)
    (file_id mime text : string) (fetch : list (Event F)) :
  fetched w item now s file_id mime text fetch -> strip text = text.
Proof.
  intros (_ & _ & _ & _ & Hread). rewrite read_file_run in Hread. cbv zeta in Hread.
  destruct (if startswith mime NATIVE_PREFIX then _ else _) as [raw|];
    injection Hread as <- _; [apply strip_clean|reflexivity].
Qed.

Lemma tail_event_not_error (e : Event F) :
  tail_event e -> e <> EvPrint MsgErrorProcessing.
Proof.
  intros [[He|[fid ->]]|[[He| ->]|[He|[name [->|[->| ->]]]]]];
    try discriminate; intros ->; discriminate.
Qed.

Lemma tail_event_not_progress (e : Event F) (idx total : nat) (file_name : string) :
  tail_event e -> e <> EvPrint (MsgProcessing idx total file_name).
Proof.
  intros [[He|[fid ->]]|[[He| ->]|[He|[name [->|[->| ->]]]]]];
    try discriminate; intros ->; discriminate.
Qed.

(** The loop prints the error line nowhere. *)
Lemma for_enumerate_no_error_line (total idx : nat) (items : list Item) (now : nat)
    (s : Store F) :
  Forall (fun e => e <> EvPrint MsgErrorProcessing)
    (events (for_enumerate w total idx items now s)).
Proof.
  apply Forall_forall. intros e He.
  apply for_enumerate_event in He. destruct He as (k & item & now' & s' & _ & He).
  destruct (item_run_shape w _ _ _ _ _ _ (process_item_outcome w total (idx + k) item now' s'))
    as [Hnil|(tail & Hev & Htail)].
  - rewrite Hnil in He. inversion He.
  - rewrite Hev in He. apply elem_of_cons in He. destruct He as [->|He]; [discriminate|].
    rewrite Forall_forall in Htail. apply tail_event_not_error, Htail, He.
Qed.
End Documents.

(** ** Documents *)

(** X5. An item of an allowed type whose listing entry has no
    identifier, or an empty one, is announced (under its name, or
    "unnamed" when the entry has no name) and skipped: the body
    returns, nothing is downloaded, embedded or upserted, and the
    store is left as it was. *)
Theorem item_without_id_is_skipped
    {F : Type} `{Float F} (w : World F) (total idx : nat) (item : Item)
    (now : nat) (s : Store F) :
  mime_allowed (item_mimeType item) = true ->
  item_id item = None \/ item_id item = Some EmptyString ->
  res (process_item w total idx item now s) = Ret tt
  /\ events (process_item w total idx item now s)
     = [EvPrint (MsgProcessing idx total (item_file_name item));
        EvPrint (MsgSkipNoId (item_file_name item))]
  /\ store_after (process_item w total idx item now s) = s
  /\ (item_name item = None -> item_file_name item = "unnamed"%string).
Proof.
  intros Hal Hid. unfold process_item. rewrite Hal. cbn [negb].
  rewrite (bind_run_ret _ _ _ _ tt) by reflexivity.
  destruct Hid as [-> | ->]; cbn [truthy negb print emit res events store_after app].
  - repeat split. intros Hname. unfold item_file_name. now rewrite Hname.
  - repeat split. intros Hname. unfold item_file_name. now rewrite Hname.
Qed.

(** A PDF without identifier or name. *)
Lemma item_without_id_is_skipped_witness :
  events (process_item (sample_world 1) 1%nat 1%nat nameless_item 0%nat ∅)
  = [EvPrint (MsgProcessing 1 1 "unnamed"); EvPrint (MsgSkipNoId "unnamed")].
Proof.
  destruct (item_without_id_is_skipped (sample_world 1) 1%nat 1%nat nameless_item 0%nat ∅
              eq_refl (or_introl eq_refl)) as (_ & Hev & _).
  exact Hev.
Defined.

(** X6. The payload of every point the loop body upserts holds the
    item's name (or "unnamed") and the first 3000 characters of the
    text [read_file] returned for it: a prefix of that stripped text,
    of at most 3000 characters, and the whole text when it has no more
    than 3000 characters. *)
Theorem upserted_payload
    {F : Type} `{Float F} (w : World F) (total idx : nat) (item : Item)
    (now : nat) (s : Store F) (k : nat) (p : PointStruct F) :
  events (process_item w total idx item now s) !! k = Some (EvUpsert p) ->
  name (payload p) = item_file_name item
  /\ exists (file_id mime text : string) (fetch : list (Event F)),
       fetched w item now s file_id mime text fetch
       /\ strip text = text
       /\ content (payload p) = substring 0 3000 text
       /\ (len (content (payload p)) <= 3000)%nat
       /\ String.prefix (content (payload p)) text = true
       /\ ((len text <= 3000)%nat -> content (payload p) = text).
Proof.
  intros Hk. apply list_elem_of_lookup_2 in Hk.
  destruct (item_run_upsert w _ _ _ _ _ _ _
              (process_item_outcome w total idx item now s) Hk)
    as (file_id & mime & text & fetch & embeds & chunks & first & rest & avg
        & Hf & _ & _ & -> & _).
  split; [reflexivity|].
  exists file_id, mime, text, fetch.
  split; [exact Hf|]. split; [eapply fetched_stripped, Hf|].
  cbn [make_point payload content]. unfold slice, SNIPPET_SIZE. rewrite Nat.sub_0_r.
  split; [reflexivity|]. split; [rewrite len_substring; lia|].
  split; [apply prefix_substring|]. intros Hshort. now apply substring_all.
Qed.

(** The book of the sample world: 30001 characters, 3000 kept. *)
Lemma upserted_payload_witness :
  exists p : PointStruct Q,
    events (process_item (sample_world 1) 4%nat 4%nat book_item 0%nat ∅) !! 4%nat
    = Some (EvUpsert p)
    /\ name (payload p) = "book.txt"%string
    /\ (len (content (payload p)) <= 3000)%nat.
Proof.
  set (p := make_point (sample_world 1) "file-4" "book.txt" long_text
              (repeat (4 # 2)%Q VECTOR_SIZE)).
  assert (Hp : events (process_item (sample_world 1) 4%nat 4%nat book_item 0%nat ∅) !! 4%nat
               = Some (EvUpsert p)) by (vm_compute; reflexivity).
  destruct (upserted_payload (sample_world 1) 4%nat 4%nat book_item 0%nat ∅ 4%nat p Hp)
    as (Hname & text_id & mime & text & fetch & _ & _ & _ & Hlen & _).
  exists p. split; [exact Hp|]. split; [exact Hname|exact Hlen].
Defined.

(** X7. For a document that is fetched and embedded, the embedding
    calls of the loop body are exactly the chunks of its text, in
    order, one call per chunk: the chunks concatenate to the text,
    each has between 1 and 30000 characters, and the loop collects one
    vector per chunk, whether the calls succeed or fail. *)
Theorem embedding_calls_follow_chunks
    {F : Type} `{Float F} (w : World F) (total idx : nat) (item : Item)
    (now : nat) (s : Store F) (file_id mime text : string)
    (fetch embeds : list (Event F)) (chunks : list string)
    (first : list F) (rest : list (list F)) :
  fetched w item now s file_id mime text fetch ->
  embedded w now s text fetch chunks first rest embeds ->
  List.filter is_embed (events (process_item w total idx item now s)) = map EvEmbed chunks
  /\ join chunks = text
  /\ Forall (fun c => 0 < Z.of_nat (len c) <= 30000) chunks
  /\ length (first :: rest) = length chunks.
Proof.
  intros Hf He.
  rewrite (item_run_embed_calls w _ _ _ _ _ _ _ _ _ _ _ _ _ _
             (process_item_outcome w total idx item now s) Hf He).
  destruct He as (_ & Hchunks & Hrun & Hvs).
  split.
  { rewrite <- (embed_chunks_calls w chunks [] (S now + length fetch)%nat s), Hrun.
    reflexivity. }
  destruct (chunk_text_chunks text DEFAULT_MAX_CHARS) as (chunks' & Hc & Hjoin & Hsize & _ & Hsub & _).
  { unfold DEFAULT_MAX_CHARS. lia. }
  assert (chunks' = chunks) as -> by congruence.
  split; [exact Hjoin|]. split.
  - apply Forall_forall. intros c Hc'.
    pose proof Hc' as Hin. apply list_elem_of_lookup in Hin. destruct Hin as [k Hk].
    destruct (Hsub k c Hk) as (_ & Hpos & _).
    rewrite Forall_forall in Hsize. specialize (Hsize c Hc').
    unfold DEFAULT_MAX_CHARS in Hsize. lia.
  - symmetry. eapply Forall2_length, Hvs.
Qed.

(** The first file of the sample world: one chunk, one call. *)
Lemma embedding_calls_follow_chunks_witness :
  List.filter is_embed (events (process_item (sample_world 1) 4%nat 1%nat hello_item 0%nat ∅))
  = [EvEmbed sample_text].
Proof.
  refine (proj1 (embedding_calls_follow_chunks (sample_world 1) 4%nat 1%nat hello_item
                   0%nat ∅ "file-1" "text/plain" sample_text [EvGetMedia "file-1"]
                   [EvEmbed sample_text] [sample_text] (repeat 3%Q VECTOR_SIZE) [] _ _)).
  - repeat split; reflexivity.
  - split; [vm_compute; lia|]. split; [reflexivity|]. split; [vm_compute; reflexivity|].
    constructor; [|constructor]. exists 0%nat, ∅. vm_compute. reflexivity.
Defined.

(** ** The whole pass *)

Section ReplayContent.
Context {F : Type}.
Variable w : World F.

(** What a replay leaves under a key was there before or is what the
    collection keeps of an upserted point with that identifier. *)
Lemma replay_content (l : list (Event F)) :
  forall (now : nat) (s : Store F) (key : Z) (q : PointStruct F),
    replay w now l s !! key = Some q ->
    s !! key = Some q
    \/ exists p : PointStruct F,
         EvUpsert p ∈ l /\ id p = key
         /\ q = {| id := id p; vector := qdrant_keeps w (vector p);
                   payload := payload p |}.
Proof.
  unfold Store.
  induction l as [|e l IH]; intros now s key q Hq; [now left|].
  assert (Hrest : forall s' : gmap Z (PointStruct F),
             replay w (S now) l s' !! key = Some q ->
             s' !! key = Some q
             \/ exists p : PointStruct F,
                  EvUpsert p ∈ e :: l /\ id p = key
                  /\ q = {| id := id p; vector := qdrant_keeps w (vector p);
                            payload := payload p |}).
  { intros s' Hs'. destruct (IH _ _ _ _ Hs') as [Hold|(p & Hin & Hid & Hkept)];
      [now left|right]. exists p. split; [now right|now split]. }
  destruct e as [| | | |p| | |]; cbn [replay] in Hq; try (apply Hrest; exact Hq).
  destruct (upsert_raises w now p); [apply Hrest; exact Hq|].
  destruct (Hrest _ Hq) as [Hnew|Hlater]; [|right; exact Hlater].
  unfold Store in *. destruct (decide (id p = key)) as [Heq|Hne].
  - right. exists p. split; [now left|]. split; [exact Heq|].
    subst key. rewrite lookup_insert_eq in Hnew. now injection Hnew as <-.
  - left. now rewrite lookup_insert_ne in Hnew.
Qed.

End ReplayContent.

(** X8. Whether the pass returns or raises, the store it leaves is
    the store it found changed by the upserts the store accepted, in
    order, each point as the collection keeps it, and by nothing
    else: no point is ever removed, a key that no upsert of the pass
    names keeps its point, the number of points grows by at most the
    number of upserts, and what the store holds under a key afterwards
    was there before or is what the collection keeps of a point the
    pass upserted under that key.  Points upserted before a failure
    stay in the store. *)
Theorem store_changes_only_by_upserts
    {F : Type} `{Float F} (w : World F) (now : nat) (s : Store F) :
  store_after (process_drive_files w now s)
  = replay w now (events (process_drive_files w now s)) s
  /\ dom s ⊆ dom (store_after (process_drive_files w now s))
  /\ (forall key : Z,
        (forall p : PointStruct F,
            EvUpsert p ∈ events (process_drive_files w now s) -> id p <> key) ->
        store_after (process_drive_files w now s) !! key = s !! key)
  /\ (size s <= size (store_after (process_drive_files w now s))
      <= size s + count_events is_upsert (events (process_drive_files w now s)))%nat
  /\ (forall (key : Z) (q : PointStruct F),
        store_after (process_drive_files w now s) !! key = Some q ->
        s !! key = Some q
        \/ exists p : PointStruct F,
             EvUpsert p ∈ events (process_drive_files w now s) /\ id p = key
             /\ q = {| id := id p; vector := qdrant_keeps w (vector p);
                       payload := payload p |}).
Proof.
  rewrite process_drive_files_replay.
  split; [reflexivity|].
  destruct (replay_grows w (events (process_drive_files w now s)) now s)
    as (Hdom & Hframe & Hsize).
  split; [exact Hdom|]. split; [exact Hframe|]. split; [exact Hsize|].
  apply replay_content.
Qed.

(** X9. A pass lists once, downloads at most one file per entry of
    the page, hence at most 100, and upserts at most once per
    download. *)
Theorem pass_call_bounds
    {F : Type} `{Float F} (w : World F) (now : nat) (s : Store F) :
  count_events is_list (events (process_drive_files w now s)) = 1%nat
  /\ (count_events is_upsert (events (process_drive_files w now s))
      <= count_events is_fetch (events (process_drive_files w now s)))%nat
  /\ (count_events is_fetch (events (process_drive_files w now s))
      <= length (take 100 (drive_files w)))%nat
  /\ (length (take 100 (drive_files w)) <= 100)%nat.
Proof.
  assert (Hpage : (length (take 100 (drive_files w)) <= 100)%nat)
    by (rewrite length_take; lia).
  rewrite process_drive_files_run.
  destruct (drive_list_raises w now).
  { cbn [events]. unfold count_events. cbn. lia. }
  cbv zeta. change LIST_PAGE_SIZE with 100%nat.
  pose proof (for_enumerate_counts w (length (take 100 (drive_files w)))
                (take 100 (drive_files w)) 1%nat (S now) s) as Hcounts.
  pose proof (for_enumerate_not_list w (length (take 100 (drive_files w))) 1%nat
                (take 100 (drive_files w)) (S now) s) as Hlist.
  apply (count_events_none is_list) in Hlist.
  assert (Hnil : forall kind : Event F -> bool, count_events kind [] = 0%nat)
    by reflexivity.
  destruct (res (for_enumerate w _ 1 _ (S now) s)); cbn [events];
    rewrite ?count_events_cons, ?count_events_app, ?count_events_cons, ?Hnil;
    cbn [is_list is_upsert is_fetch]; lia.
Qed.

(** X10. The line "Error processing files" is printed exactly when
    the pass raises, once, as its last event, and never when it
    returns.  When the listing itself fails the pass raises at once:
    nothing is processed and the store is left as it was. *)
Theorem error_line_marks_the_raise
    {F : Type} `{Float F} (w : World F) (now : nat) (s : Store F) :
  (res (process_drive_files w now s) = Ret tt ->
   EvPrint MsgErrorProcessing ∉ events (process_drive_files w now s))
  /\ (forall e : Exn,
        res (process_drive_files w now s) = Raise e ->
        exists body : list (Event F),
          events (process_drive_files w now s) = body ++ [EvPrint MsgErrorProcessing]
          /\ EvPrint MsgErrorProcessing ∉ body)
  /\ (drive_list_raises w now = true ->
      res (process_drive_files w now s) = Raise ServiceError
      /\ events (process_drive_files w now s)
         = [EvList 100 None; EvPrint MsgErrorProcessing]
      /\ store_after (process_drive_files w now s) = s).
Proof.
  rewrite process_drive_files_run.
  destruct (drive_list_raises w now).
  { split; [discriminate|]. split; [|intros _; repeat split].
    intros e _. exists [EvList LIST_PAGE_SIZE None]. split; [reflexivity|].
    intros Hin. apply list_elem_of_singleton in Hin. discriminate. }
  cbv zeta.
  pose proof (for_enumerate_no_error_line w (length (take LIST_PAGE_SIZE (drive_files w)))
                1%nat (take LIST_PAGE_SIZE (drive_files w)) (S now) s) as Hnone.
  rewrite Forall_forall in Hnone.
  assert (Hbody : EvPrint MsgErrorProcessing
                  ∉ EvList LIST_PAGE_SIZE None
                    :: events (for_enumerate w (length (take LIST_PAGE_SIZE (drive_files w)))
                                 1 (take LIST_PAGE_SIZE (drive_files w)) (S now) s)).
  { intros Hin. apply elem_of_cons in Hin. destruct Hin as [Hin|Hin]; [discriminate|].
    now apply (Hnone _ Hin). }
  destruct (res (for_enumerate w _ 1 _ (S now) s)) as [[]|e'] eqn:Hres; cbn [res events].
  - split; [intros _; exact Hbody|]. split; [discriminate|discriminate].
  - split; [discriminate|]. split; [|discriminate].
    intros e _. eexists. split; [apply app_comm_cons|exact Hbody].
Qed.

(** X11. Every progress line "Processing idx/total: name" of a pass
    numbers an entry of the page: [total] is the number of entries of
    the page, [idx] is the 1-based position of the entry in the
    listing (entries of other types, which are skipped silently, are
    counted too), the entry has an allowed type, and [name] is its
    name or "unnamed". *)
Theorem progress_lines_number_the_page
    {F : Type} `{Float F} (w : World F) (now : nat) (s : Store F)
    (k idx total : nat) (file_name : string) :
  events (process_drive_files w now s) !! k
  = Some (EvPrint (MsgProcessing idx total file_name)) ->
  total = length (take 100 (drive_files w))
  /\ (1 <= idx <= total)%nat
  /\ exists item : Item,
       drive_files w !! (idx - 1)%nat = Some item
       /\ file_name = item_file_name item
       /\ mime_allowed (item_mimeType item) = true.
Proof.
  intros Hk. apply list_elem_of_lookup_2 in Hk.
  rewrite process_drive_files_run in Hk.
  assert (Hloop : EvPrint (MsgProcessing idx total file_name)
                  ∈ events (for_enumerate w (length (take LIST_PAGE_SIZE (drive_files w))) 1
                              (take LIST_PAGE_SIZE (drive_files w)) (S now) s)).
  { destruct (drive_list_raises w now).
    - cbn [events] in Hk. rewrite !elem_of_cons, elem_of_nil in Hk.
      destruct Hk as [Hk|[Hk|[]]]; discriminate.
    - cbv zeta in Hk.
      destruct (res (for_enumerate w _ 1 _ (S now) s)); cbn [events] in Hk.
      + apply elem_of_cons in Hk. destruct Hk as [Hk|Hk]; [discriminate|exact Hk].
      + rewrite elem_of_cons, elem_of_app, list_elem_of_singleton in Hk.
        destruct Hk as [Hk|[Hk|Hk]]; [discriminate|exact Hk|discriminate]. }
  clear Hk. change LIST_PAGE_SIZE with 100%nat in Hloop.
  apply for_enumerate_event in Hloop.
  destruct Hloop as (j & item & now' & s' & Hj & Hin).
  apply lookup_take_Some in Hj. destruct Hj as [Hj Hlt].
  assert (Hallowed : mime_allowed (item_mimeType item) = true).
  { destruct (mime_allowed (item_mimeType item)) eqn:Hal; [reflexivity|].
    unfold process_item in Hin. rewrite Hal in Hin. inversion Hin. }
  destruct (item_run_shape w _ _ _ _ _ _
              (process_item_outcome w (length (take 100 (drive_files w))) (1 + j) item now' s'))
    as [Hnil|(tail & Hev & Htail)].
  { rewrite Hnil in Hin. inversion Hin. }
  rewrite Hev in Hin. apply elem_of_cons in Hin. destruct Hin as [Heq|Hin].
  - injection Heq as -> -> ->.
    assert (Hlen : (j < length (take 100 (drive_files w)))%nat).
    { rewrite length_take. apply lookup_lt_Some in Hj. lia. }
    split; [reflexivity|]. split; [lia|].
    exists item. replace (S j - 1)%nat with j by lia.
    split; [exact Hj|]. split; [reflexivity|exact Hallowed].
  - exfalso. rewrite Forall_forall in Htail.
    now apply (tail_event_not_progress _ idx total file_name (Htail _ Hin)).
Qed.

(** The memo is the third of the four files of the sample world. *)
Lemma progress_lines_number_the_page_witness :
  exists item : Item,
    drive_files (sample_world 1) !! 2%nat = Some item
    /\ "memo"%string = item_file_name item.
Proof.
  destruct (progress_lines_number_the_page (sample_world 1) 0%nat ∅ 6%nat 3%nat 4%nat
              "memo"%string) as (_ & _ & item & Hitem & Hname & _).
  - vm_compute. reflexivity.
  - exists item. split; [exact Hitem|exact Hname].
Defined.

Lemma len_append (a b : string) : len (a +:+ b) = (len a + len b)%nat.
Proof.
  induction a as [|c a IH]; [reflexivity|].
  rewrite append_cons. unfold len in *. simpl. now rewrite IH.
Qed.

(** ** Queries and prompts *)

(** X12. [search_qdrant] queries the vector store only with the
    vector the embedding service returned for the query, only when
    that vector is not all zeros (so never after a failed embedding,
    and never with an empty vector), with [limit = top_k], and right
    after the one embedding call. *)
Theorem search_is_guarded
    {F : Type} `{Float F} (w : World F) (query : string) (top_k now : nat)
    (s : Store F) (k : nat) (v : list F) (limit : nat) :
  events (search_qdrant w query top_k now s) !! k = Some (EvSearch v limit) ->
  k = 1%nat
  /\ limit = top_k
  /\ events (search_qdrant w query top_k now s) !! 0%nat = Some (EvEmbed query)
  /\ embed_content w now query = Some v
  /\ np_all_zero v = false
  /\ (v = [] -> False).
Proof.
  rewrite search_qdrant_run.
  destruct (embed_content w now query) as [v'|].
  - destruct (np_all_zero v') eqn:Hz.
    + intros Hk. destruct k as [|[|[|k]]]; discriminate.
    + destruct (qdrant_search w (S now) s v' top_k); cbn [events]; intros Hk;
        (destruct k as [|[|[|k]]]; try discriminate; injection Hk as <- <-;
         repeat split; try reflexivity; try exact Hz; intros ->; discriminate).
  - intros Hk. destruct k as [|[|[|k]]]; discriminate.
Qed.

(** The query of the sample world is searched with the vector of threes. *)
Lemma search_is_guarded_witness :
  np_all_zero (repeat 3%Q VECTOR_SIZE) = false.
Proof.
  destruct (search_is_guarded (sample_world 1) "What is this document about?" 2%nat 0%nat ∅
              1%nat (repeat 3%Q VECTOR_SIZE) 2%nat) as (_ & _ & _ & _ & Hz & _).
  - vm_compute. reflexivity.
  - exact Hz.
Defined.

(** X13. The prompt of [generate_answer] has exactly
    [185 + min(len(context), 8000) + len(query)] characters and starts
    with the fixed instructions: the context is cut, the query is
    not. *)
Theorem prompt_length (query context : string) :
  Z.of_nat (len (build_prompt query context))
  = 185 + Z.min (Z.of_nat (len context)) 8000 + Z.of_nat (len query)
  /\ exists rest : string, build_prompt query context = (PROMPT_HEAD +:+ rest)%string.
Proof.
  unfold build_prompt. split; [|eauto].
  rewrite !len_append. unfold slice. rewrite len_substring.
  change (len PROMPT_HEAD) with 172%nat. change (len PROMPT_MID) with 12%nat.
  change (len nl) with 1%nat. unfold MAX_CONTEXT. lia.
Qed.

(** ** The command-line driver *)

Section QuestionRuns.

Context {F : Type} `{Float F}.
Variable w : World F.

Lemma search_qdrant_returns (query : string) (top_k now : nat) (s : Store F) :
  exists (results : list (ScoredPoint F)) (evs : list (Event F)),
    search_qdrant w query top_k now s
    = {| res := Ret results; events := evs; store_after := s |}
    /\ Forall (fun e => question_event e = true) evs
    /\ (count_events is_embed evs = 1)%nat
    /\ (results <> [] -> exists v, evs = [EvEmbed query; EvSearch v top_k]).
Proof.
  rewrite search_qdrant_run.
  destruct (embed_content w now query) as [v|].
  - destruct (np_all_zero v).
    + eexists _, _. split; [reflexivity|].
      split; [repeat constructor|]. split; [reflexivity|]. congruence.
    + destruct (qdrant_search w (S now) s v top_k) as [matches|].
      * eexists _, _. split; [reflexivity|].
        split; [repeat constructor|]. split; [reflexivity|]. intros _. now exists v.
      * eexists _, _. split; [reflexivity|].
        split; [repeat constructor|]. split; [reflexivity|]. congruence.
  - eexists _, _. split; [reflexivity|].
    split; [repeat constructor|]. split; [reflexivity|]. congruence.
Qed.

Lemma generate_answer_returns (query context : string) (now : nat) (s : Store F) :
  exists (answer : string) (evs : list (Event F)),
    generate_answer w query context now s
    = {| res := Ret answer; events := evs; store_after := s |}
    /\ (evs = [EvGenerate (build_prompt query context)]
        \/ evs = [EvGenerate (build_prompt query context); EvPrint MsgErrorGenerating]).
Proof.
  rewrite generate_answer_run. cbv zeta.
  destruct (generate_content w now (build_prompt query context)) as [[| |t]|];
    eexists _, _; (split; [reflexivity|]); auto.
Qed.

End QuestionRuns.

Section LoopFacts.

Context {F : Type} `{Float F}.
Variable w : World F.
Variable inputs : nat -> Input.
Variable interrupts : nat -> option nat.

Lemma source_lines_prints (results : list (ScoredPoint F)) :
  forall i, Forall (fun e => exists j name score, e = CliPrint (CliSource j name score))
                   (source_lines i results).
Proof.
  induction results as [|r rs IH]; intros i; cbn [source_lines]; constructor.
  - now eexists _, _, _.
  - apply IH.
Qed.

Lemma count_cli_app (kind : CliEvent F -> bool) (a b : list (CliEvent F)) :
  count_cli kind (a ++ b) = (count_cli kind a + count_cli kind b)%nat.
Proof. unfold count_cli. now rewrite filter_app, length_app. Qed.

Lemma count_cli_cons (kind : CliEvent F -> bool) (e : CliEvent F) (l : list (CliEvent F)) :
  count_cli kind (e :: l) = ((if kind e then 1 else 0) + count_cli kind l)%nat.
Proof.
  unfold count_cli. rewrite filter_cons.
  destruct (kind e); [rewrite decide_True by exact I|rewrite decide_False by (intros [])];
    reflexivity.
Qed.

Lemma count_cli_none (kind : CliEvent F -> bool) (l : list (CliEvent F)) :
  Forall (fun e => kind e = false) l -> count_cli kind l = 0%nat.
Proof.
  induction 1 as [|e l He _ IH]; [reflexivity|].
  rewrite count_cli_cons, He, IH. reflexivity.
Qed.

Lemma count_cli_sources (kind : CliEvent F -> bool) (results : list (ScoredPoint F)) (i : nat) :
  (forall j name score, kind (CliPrint (CliSource j name score)) = false) ->
  count_cli kind (source_lines i results) = 0%nat.
Proof.
  intros Hk. apply count_cli_none.
  eapply Forall_impl; [apply source_lines_prints|].
  intros e (j & name & score & ->). apply Hk.
Qed.

Lemma count_cli_take_sources (kind : CliEvent F -> bool)
    (results : list (ScoredPoint F)) (i m : nat) :
  (forall j name score, kind (CliPrint (CliSource j name score)) = false) ->
  count_cli kind (take m (source_lines i results)) = 0%nat.
Proof.
  intros Hk. apply count_cli_none. apply Forall_take.
  eapply Forall_impl; [apply source_lines_prints|].
  intros e (j & name & score & ->). apply Hk.
Qed.

Lemma only_questions_core (cevs : list (Event F)) :
  Forall (fun e => question_event e = true) cevs ->
  only_questions (map CliCore cevs).
Proof.
  intros Hall. apply Forall_map. eapply Forall_impl; [exact Hall|].
  intros e He c [= <-]. exact He.
Qed.

Lemma only_questions_sources (results : list (ScoredPoint F)) (i : nat) :
  only_questions (source_lines i results).
Proof.
  eapply Forall_impl; [apply source_lines_prints|].
  intros e (j & name & score & ->) c Hc. discriminate Hc.
Qed.

(** The body of the [try] after a line, as a list of explicit events
    followed by the source lines of an answer. *)
Lemma try_body_shape (raw : string) (now : nat) (st : Store F) :
  body_store (try_body w raw now st) = st
  /\ exists (head : list (CliEvent F)) (results : list (ScoredPoint F)),
       body_events (try_body w raw now st) = head ++ source_lines 1 results
       /\ only_questions head
       /\ (forall k : nat,
             count_cli is_cli_input (take k head) = 0%nat
             /\ count_cli is_cli_interrupted (take k head) = 0%nat
             /\ question_order (take k head))
       /\ (if is_quit (strip raw)
           then body_end (try_body w raw now st) = BodyBreaks
                /\ head = [CliPrint CliGoodbye] /\ results = []
           else body_end (try_body w raw now st) = BodyGoesOn
                /\ question_settled head).
Proof.
  assert (Hno : forall c : Event F, question_event c = true ->
                forall c' : Event F, CliCore c = CliCore c' -> question_event c' = true)
    by (intros c Hc c' [= <-]; exact Hc).
  assert (Hpr : forall (m : CliMsg F) (c' : Event F),
             CliPrint m = CliCore c' -> question_event c' = true)
    by (intros m c'; discriminate).
  unfold try_body. cbv zeta.
  destruct (is_quit (strip raw)) eqn:Hquit.
  { cbn [body_store body_events body_end]. split; [reflexivity|].
    exists [CliPrint CliGoodbye], []. split; [reflexivity|].
    split; [repeat constructor; apply Hpr|].
    split; [|repeat split].
    intros [|[|k]]; repeat split; vm_compute; lia. }
  destruct (strip raw) as [|c q] eqn:Hq; cbn [truthy negb].
  { cbn [body_store body_events body_end]. split; [reflexivity|].
    exists [], []. split; [reflexivity|]. split; [constructor|].
    split; [|repeat split].
    intros k. rewrite take_nil. repeat split; vm_compute; lia. }
  set (query := String c q). clearbody query. clear Hq Hquit c q.
  unfold search_qdrant_default. rewrite search_qdrant_run.
  destruct (embed_content w now query) as [v|];
    [destruct (np_all_zero v);
     [|destruct (qdrant_search w (S now) st v DEFAULT_TOP_K) as [[|r rs]|]]|];
    cbn [res events store_after map app length].
  3: { rewrite generate_answer_run. cbv zeta.
       set (p := build_prompt query (cli_context (r :: rs))). clearbody p.
       destruct (generate_content w (now + 2) p) as [[| |t]|];
         cbn [res events store_after map app length body_store body_events body_end];
         (split; [reflexivity|]);
         [ exists [CliCore (EvEmbed query); CliCore (EvSearch v DEFAULT_TOP_K);
                   CliPrint CliSearching; CliCore (EvGenerate p);
                   CliPrint (CliAnswer FALLBACK_ANSWER); CliPrint CliSources],
                  (r :: rs)
         | exists [CliCore (EvEmbed query); CliCore (EvSearch v DEFAULT_TOP_K);
                   CliPrint CliSearching; CliCore (EvGenerate p);
                   CliCore (EvPrint MsgErrorGenerating);
                   CliPrint (CliAnswer ERROR_ANSWER); CliPrint CliSources],
                  (r :: rs)
         | exists [CliCore (EvEmbed query); CliCore (EvSearch v DEFAULT_TOP_K);
                   CliPrint CliSearching; CliCore (EvGenerate p);
                   CliPrint (CliAnswer (if truthy (strip t) then strip t
                                        else FALLBACK_ANSWER));
                   CliPrint CliSources],
                  (r :: rs)
         | exists [CliCore (EvEmbed query); CliCore (EvSearch v DEFAULT_TOP_K);
                   CliPrint CliSearching; CliCore (EvGenerate p);
                   CliCore (EvPrint MsgErrorGenerating);
                   CliPrint (CliAnswer ERROR_ANSWER); CliPrint CliSources],
                  (r :: rs) ];
         (split; [reflexivity|]);
         (split; [repeat (constructor; [first [apply Hpr | apply Hno; reflexivity]|]);
                  constructor|]);
         (split; [|split; [reflexivity|repeat split; vm_compute; lia]]);
         intros k; do 8 (try destruct k as [|k]); repeat split; vm_compute; lia. }
  all: cbn [body_store body_events body_end]; (split; [reflexivity|]).
  all: eexists _, []; rewrite app_nil_r; (split; [reflexivity|]).
  all: (split; [repeat (constructor; [first [apply Hpr | apply Hno; reflexivity]|]);
                constructor|]).
  all: (split; [|split; [reflexivity|repeat split; vm_compute; lia]]).
  all: intros k; do 6 (try destruct k as [|k]); repeat split; vm_compute; lia.
Qed.


(** What a prefix of the body, and the whole body, add to the counts. *)
Lemma try_body_prefix (raw : string) (now : nat) (st : Store F) (k : nat) :
  only_questions (take k (body_events (try_body w raw now st)))
  /\ count_cli is_cli_input (take k (body_events (try_body w raw now st))) = 0%nat
  /\ count_cli is_cli_interrupted (take k (body_events (try_body w raw now st))) = 0%nat
  /\ question_order (take k (body_events (try_body w raw now st))).
Proof.
  destruct (try_body_shape raw now st) as (_ & head & results & -> & Hq & Hk & _).
  destruct (Hk k) as (Hin & Hint & Hord).
  rewrite take_app. split.
  { apply Forall_app. split; [now apply Forall_take|].
    apply Forall_take, only_questions_sources. }
  unfold question_order in *.
  rewrite !count_cli_app, !count_cli_take_sources by reflexivity.
  rewrite !Nat.add_0_r. auto.
Qed.

Lemma try_body_whole (raw : string) (now : nat) (st : Store F) :
  is_quit (strip raw) = false ->
  body_end (try_body w raw now st) = BodyGoesOn
  /\ question_settled (body_events (try_body w raw now st)).
Proof.
  intros Hquit.
  destruct (try_body_shape raw now st) as (_ & head & results & -> & _ & _ & Hend).
  rewrite Hquit in Hend. destruct Hend as [Hend Hset]. split; [exact Hend|].
  unfold question_settled in *.
  rewrite !count_cli_app, !count_cli_sources by reflexivity.
  rewrite !Nat.add_0_r. exact Hset.
Qed.

Lemma take_all {A : Type} (l : list A) : take (length l) l = l.
Proof. apply firstn_all. Qed.

(** An iteration that does not leave the loop: the read, the events
    of a whole body or the error line, and the rest of the loop on the
    same store. *)
Lemma main_loop_goes_on (fuel next now : nat) (st : Store F) :
  leaves_loop (inputs next) (interrupts next) = false ->
  exists (evs : list (CliEvent F)) (now' : nat),
    main_loop w inputs interrupts (S fuel) next now st
    = and_then (CliInput :: evs) (main_loop w inputs interrupts fuel (S next) now' st)
    /\ only_questions evs
    /\ count_cli is_cli_input evs = 0%nat
    /\ count_cli is_cli_interrupted evs = 0%nat
    /\ question_order evs
    /\ question_settled evs.
Proof.
  intros Hgo. cbn [main_loop].
  destruct (inputs next) as [raw| |] eqn:Hin; cbn [leaves_loop] in Hgo.
  - apply orb_false_iff in Hgo. destruct Hgo as [Hquit Hint].
    destruct (interrupts next); [discriminate|].
    destruct (try_body_shape raw now st) as (Hst & _).
    destruct (try_body_whole raw now st Hquit) as [Hend Hset].
    destruct (try_body_prefix raw now st (length (body_events (try_body w raw now st))))
      as (Hq & Hi & Hx & Hord).
    rewrite take_all in *. rewrite Hend, Hst.
    eexists _, _. split; [reflexivity|]. auto.
  - discriminate.
  - exists [CliPrint CliErrorOccurred], now. split; [reflexivity|].
    split; [repeat constructor; discriminate|].
    repeat split; vm_compute; lia.
Qed.

(** An iteration that leaves the loop: the read, what the body did
    before the interrupt, if any, and the goodbye. *)
Lemma main_loop_leaves (fuel next now : nat) (st : Store F) :
  leaves_loop (inputs next) (interrupts next) = true ->
  exists evs : list (CliEvent F),
    main_loop w inputs interrupts (S fuel) next now st
    = {| main_end := SaidGoodbye;
         main_events := CliInput :: evs
                        ++ [CliPrint (goodbye_line (inputs next) (interrupts next))];
         main_store := st; inputs_read := S next |}
    /\ only_questions evs
    /\ count_cli is_cli_input evs = 0%nat
    /\ count_cli is_cli_interrupted evs = 0%nat
    /\ question_order evs
    /\ (interrupts next = None -> evs = []).
Proof.
  intros Hleave. cbn [main_loop].
  destruct (inputs next) as [raw| |] eqn:Hin; cbn [leaves_loop goodbye_line] in *.
  - destruct (try_body_shape raw now st) as (Hst & head & results & Hev & _ & _ & Hend).
    destruct (interrupts next) as [k|].
    + destruct (try_body_prefix raw now st k) as (Hq & Hi & Hx & Hord).
      rewrite Hst. eexists. split; [reflexivity|].
      split; [exact Hq|]. split; [exact Hi|]. split; [exact Hx|].
      split; [exact Hord|]. discriminate.
    + rewrite orb_false_r in Hleave. rewrite Hleave in Hend.
      destruct Hend as (Hend & -> & ->). rewrite Hev, Hend, Hst.
      exists []. split; [reflexivity|]. split; [constructor|].
      repeat split; vm_compute; lia.
  - exists []. split; [reflexivity|]. split; [constructor|].
    repeat split; vm_compute; lia.
  - discriminate.
Qed.

(** Every property of traces that holds of the empty trace and of an
    iteration that leaves the loop, and that an iteration in front
    preserves, holds of the loop. *)
Lemma main_loop_events (P : list (CliEvent F) -> Prop) :
  P [] ->
  (forall (evs : list (CliEvent F)) (m : CliMsg F),
      only_questions evs -> count_cli is_cli_input evs = 0%nat ->
      count_cli is_cli_interrupted evs = 0%nat -> question_order evs ->
      m = CliGoodbye \/ m = CliGoodbyeInterrupted ->
      (m = CliGoodbye -> evs = []) ->
      P (CliInput :: evs ++ [CliPrint m])) ->
  (forall evs rest : list (CliEvent F),
      only_questions evs -> count_cli is_cli_input evs = 0%nat ->
      count_cli is_cli_interrupted evs = 0%nat -> question_order evs ->
      question_settled evs ->
      P rest -> P ((CliInput :: evs) ++ rest)) ->
  forall fuel next now st,
    P (main_events (main_loop w inputs interrupts fuel next now st)).
Proof.
  intros Hnil Hbye Hturn. induction fuel as [|fuel IH]; intros next now st.
  - exact Hnil.
  - destruct (leaves_loop (inputs next) (interrupts next)) eqn:Hleave.
    + destruct (main_loop_leaves fuel next now st Hleave)
        as (evs & -> & Hq & Hi & Hx & Hord & Hnone).
      cbn [main_events]. apply Hbye; try assumption.
      * unfold goodbye_line. destruct (inputs next), (interrupts next); auto.
      * unfold goodbye_line.
        destruct (inputs next), (interrupts next); try discriminate. auto.
    + destruct (main_loop_goes_on fuel next now st Hleave)
        as (evs & now' & -> & Hq & Hi & Hx & Hord & Hset).
      cbn [and_then main_events]. apply Hturn; try assumption. apply IH.
Qed.

Lemma main_loop_store (fuel : nat) :
  forall next now st, main_store (main_loop w inputs interrupts fuel next now st) = st.
Proof.
  induction fuel as [|fuel IH]; intros next now st; [reflexivity|].
  destruct (leaves_loop (inputs next) (interrupts next)) eqn:Hleave.
  - destruct (main_loop_leaves fuel next now st Hleave) as (evs & -> & _). reflexivity.
  - destruct (main_loop_goes_on fuel next now st Hleave) as (evs & now' & -> & _).
    cbn [and_then main_store]. apply IH.
Qed.

Lemma main_loop_end (fuel : nat) :
  forall next now st,
    main_end (main_loop w inputs interrupts fuel next now st) = SaidGoodbye
    \/ main_end (main_loop w inputs interrupts fuel next now st) = StillAsking.
Proof.
  induction fuel as [|fuel IH]; intros next now st; [now right|].
  destruct (leaves_loop (inputs next) (interrupts next)) eqn:Hleave.
  - destruct (main_loop_leaves fuel next now st Hleave) as (evs & -> & _). now left.
  - destruct (main_loop_goes_on fuel next now st Hleave) as (evs & now' & -> & _).
    cbn [and_then main_end]. apply IH.
Qed.

End LoopFacts.

Lemma count_cli_host {F : Type} (kind : CliEvent F -> bool) (evs : list HostEvent) :
  (forall e, kind (CliHost e) = false) ->
  count_cli kind (map CliHost evs) = 0%nat.
Proof.
  intros Hk. apply count_cli_none. apply Forall_map.
  apply Forall_forall. intros e _. apply Hk.
Qed.

Lemma count_cli_no_core {F : Type} (kind : CliEvent F -> bool) (evs : list (Event F)) :
  (forall e, kind (CliCore e) = false) ->
  count_cli kind (map CliCore evs) = 0%nat.
Proof.
  intros Hk. apply count_cli_none. apply Forall_map.
  apply Forall_forall. intros e _. apply Hk.
Qed.

(** ** White space and case *)

Lemma isspace_lower (c : ascii) : isspace c = true -> lower_char c = c.
Proof.
  destruct c as [[] [] [] [] [] [] [] []]; vm_compute; intros Hs;
    first [discriminate Hs | reflexivity].
Qed.

Lemma lstrip_blank (l s : string) : blank l = true -> lstrip (l +:+ s) = lstrip s.
Proof.
  induction l as [|c l IH]; [reflexivity|].
  cbn [blank]. intros [Hc Hl]%andb_prop.
  rewrite append_cons. cbn [lstrip]. rewrite Hc. now apply IH.
Qed.

Lemma rstrip_blank (r : string) : blank r = true -> rstrip r = EmptyString.
Proof.
  induction r as [|c r IH]; [reflexivity|].
  cbn [blank]. intros [Hc Hr]%andb_prop.
  cbn [rstrip]. rewrite IH by exact Hr. now rewrite Hc.
Qed.

Lemma rstrip_app_blank (s r : string) : blank r = true -> rstrip (s +:+ r) = rstrip s.
Proof.
  intros Hr. induction s as [|c s IH].
  - now apply rstrip_blank.
  - rewrite append_cons. cbn [rstrip]. now rewrite IH.
Qed.

Lemma lower_letter_not_space (c d : ascii) :
  lower_char c = d -> isspace d = false -> isspace c = false.
Proof.
  intros Hl Hd. destruct (isspace c) eqn:Hc; [|reflexivity].
  pose proof (isspace_lower _ Hc) as Hsame. congruence.
Qed.

Lemma strip_word (word : string) :
  lower word = "quit"%string \/ lower word = "exit"%string -> strip word = word.
Proof.
  intros Hw.
  destruct word as [|c1 [|c2 [|c3 [|c4 [|c5 rest]]]]];
    try (destruct Hw as [Hw|Hw]; discriminate Hw).
  cbn [lower] in Hw.
  assert (H1 : isspace c1 = false).
  { destruct Hw as [Hw|Hw]; injection Hw as Hl _ _ _;
      apply (lower_letter_not_space _ _ Hl); reflexivity. }
  assert (H4 : isspace c4 = false).
  { destruct Hw as [Hw|Hw]; injection Hw as _ _ _ Hl;
      apply (lower_letter_not_space _ _ Hl); reflexivity. }
  unfold strip. cbn [lstrip]. rewrite H1. cbn [rstrip]. now rewrite H4.
Qed.

(** ** Properties of the driver *)

(** X14. [authenticate_gdrive] returns a service only with the
    credentials that [token.pickle] then holds: the build is its last
    step and no error line is printed.  When it returns [None] the
    error line is the last thing it does.  Saved credentials that are
    valid are used as they are: nothing is refreshed, no consent flow
    is run and the token file is not written.  The consent flow runs
    only right after the token was loaded, and only when the saved
    credentials are missing, or not valid and not refreshable. *)
Theorem authenticate_gdrive_outcomes (h : Host) :
  let out := authenticate_gdrive h in
  (forall s, auth_service out = Some s ->
     auth_token out = Pickled (Some (service_creds s))
     /\ last (auth_events out) = Some (HvBuild (service_creds s))
     /\ drive_build_raises h (service_creds s) = false
     /\ Forall (fun e => e <> HvPrintAuthError) (auth_events out))
  /\ (auth_service out = None -> last (auth_events out) = Some HvPrintAuthError)
  /\ (forall c, token_file h = Pickled (Some c) -> valid c = true ->
        auth_token out = token_file h
        /\ (auth_events out = [HvTokenLoad; HvBuild c]
            \/ auth_events out = [HvTokenLoad; HvBuild c; HvPrintAuthError]))
  /\ (forall k, auth_events out !! k = Some HvFlow ->
        k = (match token_file h with NoFile => 0 | _ => 1 end)%nat
        /\ forall c, token_file h = Pickled (Some c) ->
             valid c = false /\ (expired c && refresh_token c) = false).
Proof.
  unfold authenticate_gdrive, login_and_save, build_service, auth_failed, refreshable,
    load_token.
  destruct (token_file h) as [|[c|]|] eqn:Hfile; cbn [fst snd].
  all: repeat match goal with
    | |- context [valid ?c] => destruct (valid c) eqn:?
    | |- context [expired ?c] => destruct (expired c) eqn:?
    | |- context [refresh_token ?c] => destruct (refresh_token c) eqn:?
    | |- context [oauth_refresh ?h' ?c] => destruct (oauth_refresh h' c) as [?c'|] eqn:?
    | |- context [oauth_flow ?h'] => destruct (oauth_flow h') as [?c'|] eqn:?
    | |- context [token_write_raises ?h' ?c] => destruct (token_write_raises h' c) eqn:?
    | |- context [drive_build_raises ?h' ?c] => destruct (drive_build_raises h' c) eqn:?
    | _ => progress cbn [fst snd andb app auth_service auth_events auth_token]
    end.
  all: cbv zeta; cbn [auth_service auth_events auth_token service_creds].
  all: split;
    [intros s Hs;
     first [discriminate Hs
           |injection Hs as <-; cbn [service_creds];
            split; [reflexivity|split; [reflexivity|split; [assumption|]]];
            repeat constructor; discriminate]|].
  all: split; [intros Hs; first [discriminate Hs|reflexivity]|].
  all: split;
    [intros c0 Hc0 Hv;
     first [discriminate Hc0
           |injection Hc0 as <-;
            first [congruence|split; [reflexivity|auto]]]|].
  all: intros k Hk; repeat (destruct k as [|k]; try discriminate Hk);
    (split; [reflexivity|]); intros c0 Hc0;
    first [discriminate Hc0
          |injection Hc0 as <-; split; [assumption|];
           destruct (expired c), (refresh_token c); try reflexivity; congruence].
Qed.

(** X15. [main] stops before the question loop in exactly three
    cases: no Drive service (it returns), a missing or empty
    [GOOGLE_API_KEY] (it returns), and an indexing pass that raises
    (the exception leaves [main]).  In the first two nothing of the
    pipeline is called; in all three no input is read and the
    [Ready!] line is not printed. *)
Theorem main_stops_before_the_loop
    {F : Type} `{Float F} (w : World F) (inputs : nat -> Input)
    (interrupts : nat -> option nat) (h : Host) (fuel : nat) :
  let out := main w inputs interrupts h fuel in
  let auth := authenticate_gdrive h in
  let pass := process_drive_files w 0%nat ∅ in
  (main_end out = AuthenticationFailed <-> auth_service auth = None)
  /\ (main_end out = GeminiNotInitialized <->
      auth_service auth <> None /\ (api_key h = None \/ api_key h = Some EmptyString))
  /\ (forall e, main_end out = IndexingRaised e <->
      auth_service auth <> None
      /\ (exists key, api_key h = Some key /\ key <> EmptyString)
      /\ res pass = Raise e)
  /\ (main_end out = AuthenticationFailed \/ main_end out = GeminiNotInitialized ->
      count_cli is_cli_core (main_events out) = 0%nat /\ main_store out = ∅)
  /\ (main_end out <> SaidGoodbye -> main_end out <> StillAsking ->
      inputs_read out = 0%nat
      /\ count_cli is_cli_input (main_events out) = 0%nat
      /\ count_cli is_cli_ready (main_events out) = 0%nat).
Proof.
  cbv zeta. unfold main, init_gemini, init_qdrant.
  destruct (auth_service (authenticate_gdrive h)) as [service|] eqn:Hauth.
  2: { cbn [main_end main_events main_store inputs_read].
       rewrite !count_cli_app, !count_cli_host by reflexivity. split_cases. }
  destruct (api_key h) as [[|c key]|] eqn:Hkey.
  1, 3: cbn [truthy main_end main_events main_store inputs_read];
    rewrite !count_cli_app, !count_cli_host by reflexivity; split_cases.
  cbn [truthy].
  destruct (process_drive_files w 0%nat ∅) as [[[]|e] pevs pstore] eqn:Hpass;
    cbn [res events store_after].
  - cbn [and_then main_end main_events main_store inputs_read].
    destruct (main_loop_end w inputs interrupts fuel 0%nat (length pevs) pstore) as [Hend|Hend];
      rewrite Hend; split_cases.
  - cbn [main_end main_events main_store inputs_read].
    rewrite !count_cli_app, !count_cli_host by reflexivity.
    rewrite (count_cli_no_core is_cli_input), (count_cli_no_core is_cli_ready)
      by reflexivity.
    split_cases. eexists. split; [reflexivity|discriminate].
Qed.


(** X16. The question loop of [main] ends at the first iteration that
    leaves it: one whose read is an interrupt or a line reading [quit]
    or [exit] (whatever the case and the white space around it), or
    in whose body, after a line was read, an interrupt arrives.  When
    the iterations before the [k]-th do not leave the loop and the
    [k]-th does, the loop has read [k + 1] inputs and no more, its
    last line is the goodbye of that iteration, and the store is as
    it was. *)
Theorem loop_ends_at_first_goodbye
    {F : Type} `{Float F} (w : World F) (inputs : nat -> Input)
    (interrupts : nat -> option nat) (k fuel next now : nat) (st : Store F) :
  (forall j, (j < k)%nat ->
             leaves_loop (inputs (next + j)%nat) (interrupts (next + j)%nat) = false) ->
  leaves_loop (inputs (next + k)%nat) (interrupts (next + k)%nat) = true ->
  (k < fuel)%nat ->
  let out := main_loop w inputs interrupts fuel next now st in
  main_end out = SaidGoodbye
  /\ inputs_read out = S (next + k)
  /\ count_cli is_cli_input (main_events out) = S k
  /\ last (main_events out)
     = Some (CliPrint (goodbye_line (inputs (next + k)%nat) (interrupts (next + k)%nat)))
  /\ main_store out = st.
Proof.
  cbv zeta. revert fuel next now.
  induction k as [|k IH]; intros fuel next now Hgo Hend Hfuel.
  - destruct fuel as [|fuel]; [lia|].
    rewrite Nat.add_0_r in *.
    destruct (main_loop_leaves w inputs interrupts fuel next now st Hend)
      as (evs & -> & _ & Hi & _).
    cbn [main_end inputs_read main_events main_store].
    split; [reflexivity|]. split; [reflexivity|]. split; [|split; [|reflexivity]].
    + rewrite count_cli_cons, count_cli_app, Hi. reflexivity.
    + rewrite app_comm_cons, last_snoc. reflexivity.
  - destruct fuel as [|fuel]; [lia|].
    assert (Hfirst : leaves_loop (inputs next) (interrupts next) = false).
    { rewrite <- (Nat.add_0_r next). apply Hgo. lia. }
    destruct (main_loop_goes_on w inputs interrupts fuel next now st Hfirst)
      as (evs & now' & -> & _ & Hi & _).
    cbn [and_then main_end inputs_read main_events main_store].
    replace (next + S k)%nat with (S next + k)%nat in * by lia.
    destruct (IH fuel (S next) now') as (He & Hr & Hc & Hl & Hs).
    + intros j Hj. replace (S next + j)%nat with (next + S j)%nat by lia.
      apply Hgo. lia.
    + exact Hend.
    + lia.
    + split; [exact He|]. split; [exact Hr|].
      split; [|split; [|exact Hs]].
      * rewrite count_cli_app, count_cli_cons, Hi, Hc. reflexivity.
      * rewrite last_app, Hl. reflexivity.
Qed.

(** The sample conversation ends at its fourth read, [ Quit]; with an
    interrupt during the embedding call of the first question it ends
    at the first read, on the interrupted goodbye. *)
Lemma loop_ends_at_first_goodbye_witness :
  inputs_read (main_loop (sample_world 1) sample_inputs no_interrupts 10 0 0 ∅) = 4%nat
  /\ inputs_read (main_loop (sample_world 1) sample_inputs early_interrupt 10 0 0 ∅)
     = 1%nat
  /\ last (main_events (main_loop (sample_world 1) sample_inputs early_interrupt 10 0 0 ∅))
     = Some (CliPrint CliGoodbyeInterrupted).
Proof.
  split.
  - destruct (loop_ends_at_first_goodbye (sample_world 1) sample_inputs no_interrupts
                3 10 0 0 ∅) as (_ & Hr & _).
    + intros j Hj. destruct j as [|[|[|j]]]; [reflexivity..|lia].
    + reflexivity.
    + lia.
    + exact Hr.
  - destruct (loop_ends_at_first_goodbye (sample_world 1) sample_inputs early_interrupt
                0 10 0 0 ∅) as (_ & Hr & _ & Hl & _).
    + intros j Hj. lia.
    + reflexivity.
    + lia.
    + split; [exact Hr|exact Hl].
Defined.

(** X17. Only an iteration that leaves the loop ends it: as long as no
    read is an interrupt or a [quit] or [exit] line and no interrupt
    arrives in a body, the loop is still asking after any number of
    iterations, one read each.  Reads that fail, as at the end of the
    input, are among them: the handler prints and the loop reads
    again. *)
Theorem loop_goes_on_without_goodbye
    {F : Type} `{Float F} (w : World F) (inputs : nat -> Input)
    (interrupts : nat -> option nat) (fuel next now : nat) (st : Store F) :
  (forall j, (j < fuel)%nat ->
             leaves_loop (inputs (next + j)%nat) (interrupts (next + j)%nat) = false) ->
  let out := main_loop w inputs interrupts fuel next now st in
  main_end out = StillAsking
  /\ inputs_read out = (next + fuel)%nat
  /\ count_cli is_cli_input (main_events out) = fuel
  /\ count_cli is_cli_interrupted (main_events out) = 0%nat.
Proof.
  cbv zeta. revert next now.
  induction fuel as [|fuel IH]; intros next now Hgo.
  - cbn [main_loop main_end inputs_read main_events]. rewrite Nat.add_0_r. repeat split.
  - assert (Hfirst : leaves_loop (inputs next) (interrupts next) = false).
    { rewrite <- (Nat.add_0_r next). apply Hgo. lia. }
    destruct (main_loop_goes_on w inputs interrupts fuel next now st Hfirst)
      as (evs & now' & -> & _ & Hi & Hx & _).
    cbn [and_then main_end inputs_read main_events].
    destruct (IH (S next) now') as (He & Hr & Hc & Hn).
    + intros j Hj. replace (S next + j)%nat with (next + S j)%nat by lia.
      apply Hgo. lia.
    + split; [exact He|]. split; [rewrite Hr; lia|].
      rewrite !count_cli_app, !count_cli_cons, Hi, Hx, Hc, Hn. split; reflexivity.
Qed.

(** At the end of the input the loop goes on. *)
Lemma loop_goes_on_without_goodbye_witness :
  main_end (main_loop (sample_world 1) (fun _ => InputFails) no_interrupts 5 0 0 ∅)
  = StillAsking.
Proof.
  destruct (loop_goes_on_without_goodbye (sample_world 1) (fun _ => InputFails)
              no_interrupts 5 0 0 ∅) as (He & _).
  - intros j Hj. reflexivity.
  - exact He.
Defined.

(** X18. Questions never change the index: the question loop
    leaves the store as it found it and asks the pipeline only to
    embed, search, generate and print; so when [main] reached the
    loop, its store is the one the indexing pass left on the empty
    store. *)
Theorem questions_leave_the_index_alone
    {F : Type} `{Float F} (w : World F) (inputs : nat -> Input)
    (interrupts : nat -> option nat) (h : Host) (fuel next now : nat)
    (st : Store F) :
  main_store (main_loop w inputs interrupts fuel next now st) = st
  /\ Forall (fun e => forall c, e = CliCore c -> question_event c = true)
            (main_events (main_loop w inputs interrupts fuel next now st))
  /\ (main_end (main w inputs interrupts h fuel) = SaidGoodbye
      \/ main_end (main w inputs interrupts h fuel) = StillAsking ->
      res (process_drive_files w 0%nat ∅) = Ret tt
      /\ main_store (main w inputs interrupts h fuel)
         = store_after (process_drive_files w 0%nat ∅)).
Proof.
  split; [apply main_loop_store|]. split.
  - apply (main_loop_events w inputs interrupts only_questions).
    + constructor.
    + intros evs m Hq _ _ _ _ _. constructor; [discriminate|].
      apply Forall_app. split; [exact Hq|]. constructor; [discriminate|constructor].
    + intros evs rest Hq _ _ _ _ Hrest. apply Forall_app. split; [|exact Hrest].
      constructor; [discriminate|exact Hq].
  - unfold main, init_qdrant.
    destruct (auth_service (authenticate_gdrive h)); [|cbn [main_end]; split_cases].
    destruct (init_gemini h); [|cbn [main_end]; split_cases].
    destruct (process_drive_files w 0%nat ∅) as [[[]|e] pevs pstore];
      cbn [res events store_after]; [|cbn [main_end]; split_cases].
    intros _. split; [reflexivity|].
    cbn [and_then main_store]. apply main_loop_store.
Qed.

(** X19. In the question loop the steps of a question come in order:
    the embedding, the search, the [Searching] line, the generation,
    the answer.  Every embedded question gets exactly one reaction,
    the [No relevant information found.] line or an answer, and every
    generation call its answer, except the question of the iteration
    in which an interrupt arrived, if any: there is at most one
    interrupted goodbye, and the counts differ by at most it.  A read
    embeds at most one question. *)
Theorem answers_follow_results
    {F : Type} `{Float F} (w : World F) (inputs : nat -> Input)
    (interrupts : nat -> option nat) (fuel next now : nat) (st : Store F) :
  let evs := main_events (main_loop w inputs interrupts fuel next now st) in
  let cut := count_cli is_cli_interrupted evs in
  (cut <= 1)%nat
  /\ (count_cli is_cli_answer evs <= count_cli is_cli_generate evs)%nat
  /\ (count_cli is_cli_generate evs <= count_cli is_cli_searching evs)%nat
  /\ (count_cli is_cli_searching evs <= count_cli is_cli_answer evs + cut)%nat
  /\ (count_cli is_cli_searching evs <= count_cli is_cli_search evs)%nat
  /\ (count_cli is_cli_search evs <= count_cli is_cli_embed evs)%nat
  /\ (count_cli is_cli_embed evs <= count_cli is_cli_input evs)%nat
  /\ (count_cli is_cli_no_relevant evs + count_cli is_cli_answer evs
      <= count_cli is_cli_embed evs)%nat
  /\ (count_cli is_cli_embed evs
      <= count_cli is_cli_no_relevant evs + count_cli is_cli_answer evs + cut)%nat.
Proof.
  cbv zeta.
  apply (main_loop_events w inputs interrupts
           (fun evs =>
              (count_cli is_cli_interrupted evs <= 1)%nat
              /\ (count_cli is_cli_answer evs <= count_cli is_cli_generate evs)%nat
              /\ (count_cli is_cli_generate evs <= count_cli is_cli_searching evs)%nat
              /\ (count_cli is_cli_searching evs
                  <= count_cli is_cli_answer evs + count_cli is_cli_interrupted evs)%nat
              /\ (count_cli is_cli_searching evs <= count_cli is_cli_search evs)%nat
              /\ (count_cli is_cli_search evs <= count_cli is_cli_embed evs)%nat
              /\ (count_cli is_cli_embed evs <= count_cli is_cli_input evs)%nat
              /\ (count_cli is_cli_no_relevant evs + count_cli is_cli_answer evs
                  <= count_cli is_cli_embed evs)%nat
              /\ (count_cli is_cli_embed evs
                  <= count_cli is_cli_no_relevant evs + count_cli is_cli_answer evs
                     + count_cli is_cli_interrupted evs)%nat)).
  - repeat split; vm_compute; lia.
  - intros evs m _ Hi Hx (O1 & O2 & O3 & O4 & O5 & O6) [-> | ->] Hnil.
    + rewrite (Hnil eq_refl). repeat split; vm_compute; lia.
    + rewrite !count_cli_cons, !count_cli_app, !count_cli_cons.
      cbn [is_cli_interrupted is_cli_answer is_cli_generate is_cli_searching
           is_cli_search is_cli_embed is_cli_input is_cli_no_relevant].
      assert (Hz : forall kind : CliEvent F -> bool, count_cli kind [] = 0%nat)
        by reflexivity.
      rewrite !Hz, ?Hi, ?Hx. repeat split; lia.
  - intros evs rest _ Hi Hx (O1 & O2 & O3 & O4 & O5 & O6) (S1 & S2 & S3)
           (R0 & R1 & R2 & R3 & R4 & R5 & R6 & R7 & R8).
    rewrite !count_cli_app, !count_cli_cons.
    cbn [is_cli_interrupted is_cli_answer is_cli_generate is_cli_searching
         is_cli_search is_cli_embed is_cli_input is_cli_no_relevant].
    rewrite ?Hi, ?Hx. repeat split; lia.
Qed.

(** X20. The goodbye of the question loop ignores case and
    padding: a line made of white space, a word that lowers to [quit]
    or [exit], and white space again is stripped to that word and
    ends the loop. *)
Theorem goodbye_ignores_case_and_padding (l word r : string) :
  blank l = true ->
  blank r = true ->
  lower word = "quit"%string \/ lower word = "exit"%string ->
  strip (l +:+ word +:+ r) = word
  /\ ends_loop (Line (l +:+ word +:+ r)) = true.
Proof.
  intros Hl Hr Hw.
  assert (Hs : strip (l +:+ word +:+ r) = word).
  { pose proof (strip_word word Hw) as Hword. unfold strip in *.
    rewrite lstrip_blank by exact Hl.
    destruct word as [|c1 word']; [destruct Hw; discriminate|].
    assert (H1 : isspace c1 = false).
    { cbn [lstrip] in Hword. destruct (isspace c1) eqn:Hc; [|reflexivity].
      exfalso. pose proof (len_rstrip (lstrip word')) as L1.
      pose proof (len_lstrip word') as L2. rewrite Hword in L1.
      unfold len in *. cbn [String.length] in L1. lia. }
    rewrite append_cons. cbn [lstrip] in *. rewrite H1 in *.
    rewrite <- append_cons. rewrite rstrip_app_blank by exact Hr. exact Hword. }
  split; [exact Hs|].
  cbn [ends_loop]. rewrite Hs. unfold is_quit.
  destruct Hw as [-> | ->]; reflexivity.
Qed.

(** [  QuIt] followed by a line feed ends the loop. *)
Lemma goodbye_ignores_case_and_padding_witness :
  ends_loop (Line ("  " +:+ "QuIt" +:+ nl)) = true.
Proof.
  destruct (goodbye_ignores_case_and_padding "  " "QuIt" nl) as (_ & He).
  - reflexivity.
  - reflexivity.
  - left. reflexivity.
  - exact He.
Defined.

(** ** The Streamlit page *)

Section PageFacts.

Context {F : Type} `{Float F}.
Variable w : World F.

Lemma count_ui_app (kind : UiEvent F -> bool) (a b : list (UiEvent F)) :
  count_ui kind (a ++ b) = (count_ui kind a + count_ui kind b)%nat.
Proof. unfold count_ui. now rewrite filter_app, length_app. Qed.

Lemma count_ui_cons (kind : UiEvent F -> bool) (e : UiEvent F) (l : list (UiEvent F)) :
  count_ui kind (e :: l) = ((if kind e then 1 else 0) + count_ui kind l)%nat.
Proof.
  unfold count_ui. rewrite filter_cons.
  destruct (kind e); [rewrite decide_True by exact I|rewrite decide_False by (intros [])];
    reflexivity.
Qed.

Lemma count_ui_none (kind : UiEvent F -> bool) (l : list (UiEvent F)) :
  Forall (fun e => kind e = false) l -> count_ui kind l = 0%nat.
Proof.
  induction 1 as [|e l He _ IH]; [reflexivity|].
  rewrite count_ui_cons, He, IH. reflexivity.
Qed.

Lemma count_ui_host (kind : UiEvent F -> bool) (evs : list HostEvent) :
  (forall e, kind (UiHost e) = false) ->
  count_ui kind (map UiHost evs) = 0%nat.
Proof.
  intros Hk. apply count_ui_none. apply Forall_map.
  apply Forall_forall. intros e _. apply Hk.
Qed.

Lemma count_ui_sources (kind : UiEvent F -> bool) (results : list (ScoredPoint F)) :
  (forall j name score, kind (UiShow (UiSource j name score)) = false) ->
  forall i, count_ui kind (web_source_lines i results) = 0%nat.
Proof.
  intros Hk. induction results as [|r rs IH]; intros i; [reflexivity|].
  cbn [web_source_lines]. rewrite count_ui_cons, Hk, IH. reflexivity.
Qed.

Lemma count_ui_questions (kind : UiEvent F -> bool) (evs : list (Event F)) :
  (forall e, question_event e = true -> kind (UiCore e) = false) ->
  Forall (fun e => question_event e = true) evs ->
  count_ui kind (map UiCore evs) = 0%nat.
Proof.
  intros Hk Hall. apply count_ui_none. apply Forall_map.
  eapply Forall_impl; [exact Hall|]. intros e He. now apply Hk.
Qed.

(** The search part returns, leaves the store as it is, and makes no
    call of the indexing pass. *)
Lemma search_part_run (query : string) (now : nat) (st : Store F) :
  part_res (search_part w query now st) = Ret tt
  /\ part_store (search_part w query now st) = st
  /\ count_ui is_ui_indexing (part_events (search_part w query now st)) = 0%nat
  /\ count_ui is_ui_logout_button (part_events (search_part w query now st)) = 0%nat
  /\ count_ui is_ui_host (part_events (search_part w query now st)) = 0%nat
  /\ (query = EmptyString -> part_events (search_part w query now st) = []).
Proof.
  assert (Hq : forall kind : UiEvent F -> bool,
             kind = is_ui_indexing \/ kind = is_ui_logout_button \/ kind = is_ui_host ->
             forall e : Event F, question_event e = true -> kind (UiCore e) = false).
  { intros kind [-> | [-> | ->]] e He; destruct e; try discriminate He; reflexivity. }
  assert (Hsrc : forall kind : UiEvent F -> bool,
             kind = is_ui_indexing \/ kind = is_ui_logout_button \/ kind = is_ui_host ->
             forall j name score, kind (UiShow (UiSource j name score)) = false).
  { intros kind [-> | [-> | ->]] j name score; reflexivity. }
  unfold search_part. destruct query as [|c q]; cbn [truthy negb].
  { repeat split. }
  assert (Hne : String c q <> EmptyString) by discriminate.
  set (query := String c q) in *. clearbody query.
  destruct (search_qdrant_returns w query DEFAULT_TOP_K now st)
    as (results & evs & Hs & Hall & _).
  fold (search_qdrant_default w query) in Hs. rewrite Hs. cbn [res events store_after].
  destruct results as [|r rs].
  - cbn [part_res part_store part_events].
    rewrite !count_ui_app, !count_ui_questions by auto.
    repeat split; congruence.
  - destruct (generate_answer_returns w query (web_context (r :: rs))
                (now + length evs) st) as (answer & gevs & Hg & Hshape).
    rewrite Hg. cbn [res events store_after part_res part_store part_events].
    assert (Hgall : Forall (fun e : Event F => question_event e = true) gevs)
      by (destruct Hshape as [-> | ->]; repeat constructor).
    rewrite !count_ui_app, !count_ui_questions, !count_ui_sources by auto.
    repeat split; congruence.
Qed.

End PageFacts.

Section AccountPage.

Context {F : Type} `{Float F}.
Variable w : World F.
Variable h : Host.

Lemma tail_event_not_query (e : Event F) : tail_event e -> is_query e = false.
Proof.
  intros [[He|[fid ->]]|[[He| ->]|[He|[name [->|[->| ->]]]]]];
    try reflexivity; destruct e; try discriminate He; reflexivity.
Qed.

(** The indexing pass asks nothing of the search nor of the
    generation model. *)
Lemma pass_makes_no_query (now : nat) (s : Store F) :
  Forall (fun e => is_query e = false) (events (process_drive_files w now s)).
Proof.
  assert (Hloop : forall total idx items now' s',
             Forall (fun e : Event F => is_query e = false)
                    (events (for_enumerate w total idx items now' s'))).
  { intros total idx items now' s'. apply Forall_forall. intros e He.
    apply for_enumerate_event in He. destruct He as (k & item & now2 & s2 & _ & He).
    destruct (item_run_shape w _ _ _ _ _ _ (process_item_outcome w total (idx + k) item now2 s2))
      as [Hnil|(tail & Hev & Htail)].
    - rewrite Hnil in He. inversion He.
    - rewrite Hev in He. apply elem_of_cons in He. destruct He as [->|He]; [reflexivity|].
      rewrite Forall_forall in Htail. apply tail_event_not_query, Htail, He. }
  rewrite process_drive_files_run.
  destruct (drive_list_raises w now); [repeat constructor|]. cbv zeta.
  destruct (res (for_enumerate w _ 1 _ (S now) s)); cbn [events].
  - constructor; [reflexivity|apply Hloop].
  - constructor; [reflexivity|]. apply Forall_app. split; [apply Hloop|repeat constructor].
Qed.

Lemma count_ui_core (kind : UiEvent F -> bool) (kind' : Event F -> bool)
    (evs : list (Event F)) :
  (forall e, kind (UiCore e) = kind' e) ->
  count_ui kind (map UiCore evs) = count_events kind' evs.
Proof.
  intros Hk. induction evs as [|e evs IH]; [reflexivity|].
  cbn [map]. rewrite count_ui_cons, count_events_cons, Hk, IH. reflexivity.
Qed.

Lemma count_ui_no_core (kind : UiEvent F -> bool) (evs : list (Event F)) :
  (forall e, kind (UiCore e) = false) ->
  count_ui kind (map UiCore evs) = 0%nat.
Proof.
  intros Hk. apply count_ui_none. apply Forall_map.
  apply Forall_forall. intros e _. apply Hk.
Qed.

(** The indexing part: nothing when the flag is set; otherwise the
    pass, with no query, no button and no call of the host. *)
Lemma index_part_run (p : Page F) (now : nat) (st : Store F) :
  (indexed p = true ->
   index_part w p now st
   = {| part_res := Ret tt; part_events := []; part_clock := now; part_store := st |})
  /\ (indexed p = false ->
      part_res (index_part w p now st) = res (indexing_pass w p now st)
      /\ part_store (index_part w p now st) = store_after (indexing_pass w p now st))
  /\ count_ui is_ui_question (part_events (index_part w p now st)) = 0%nat
  /\ count_ui is_ui_logout_button (part_events (index_part w p now st)) = 0%nat
  /\ count_ui is_ui_host (part_events (index_part w p now st)) = 0%nat
  /\ (service p = None ->
      count_ui is_ui_indexing (part_events (index_part w p now st)) = 0%nat).
Proof.
  unfold index_part. destruct (indexed p).
  { repeat split; congruence. }
  cbn [part_res part_store part_events].
  split; [discriminate|]. split; [now split|].
  rewrite !count_ui_app.
  rewrite (count_ui_no_core is_ui_logout_button), (count_ui_no_core is_ui_host) by reflexivity.
  rewrite (count_ui_core is_ui_question is_query) by reflexivity.
  assert (Hq : count_events is_query (events (indexing_pass w p now st)) = 0%nat).
  { apply count_events_none. unfold indexing_pass.
    destruct (service p); [apply pass_makes_no_query|repeat constructor]. }
  rewrite Hq.
  destruct (res (indexing_pass w p now st)); repeat split;
    intros Hs; unfold indexing_pass; rewrite Hs; reflexivity.
Qed.

(** The account page without the branches that no run takes. *)
Lemma account_page_run (wd : Widgets) (now : nat) (p : Page F) :
  let indexing := index_part w p now (page_store p) in
  let asked := search_part w (query_text wd) (part_clock indexing) (part_store indexing) in
  account_page w h wd now p =
  if negb (gemini_starts h p) then
    {| run_end := Stopped;
       ui_events := [UiShow UiTitle; UiShow UiAccountInfo] ++ [UiShow UiGeminiFailed];
       session_after :=
         present {| authenticated := authenticated p; service := service p;
                    client := Some (page_store p); gemini_ready := gemini_ready p;
                    indexed := indexed p |};
       clock_after := now |}
  else
    match part_res indexing with
    | Raise _ =>
        {| run_end := Stopped;
           ui_events := [UiShow UiTitle; UiShow UiAccountInfo]
                        ++ configure_events h p ++ part_events indexing;
           session_after :=
             present {| authenticated := authenticated p; service := service p;
                        client := Some (part_store indexing); gemini_ready := true;
                        indexed := indexed p |};
           clock_after := part_clock indexing |}
    | Ret _ =>
        {| run_end := if logout_clicked wd then RerunAsked else ScriptDone;
           ui_events := ([UiShow UiTitle; UiShow UiAccountInfo]
                         ++ configure_events h p ++ part_events indexing
                         ++ [UiShow UiSearchHeader; UiShow UiQueryInput]
                         ++ part_events asked) ++ [UiShow UiLogoutButton];
           session_after :=
             if logout_clicked wd then cleared
             else present {| authenticated := authenticated p; service := service p;
                             client := Some (part_store indexing); gemini_ready := true;
                             indexed := true |};
           clock_after := part_clock asked |}
    end.
Proof.
  cbv zeta. unfold account_page, gemini_starts, configure_events, init_gemini, init_qdrant,
    page_store.
  set (st := match client p with Some c => c | None => ∅ end).
  destruct (gemini_ready p); cbn [orb negb].
  - destruct (part_res (index_part w p now st)) as [[]|e]; [|reflexivity].
    destruct (search_part_run w (query_text wd) (part_clock (index_part w p now st))
                (part_store (index_part w p now st))) as (-> & -> & _).
    destruct (logout_clicked wd); reflexivity.
  - destruct (api_key h) as [[|c key]|]; cbn [truthy negb]; try reflexivity.
    destruct (part_res (index_part w p now st)) as [[]|e]; [|reflexivity].
    destruct (search_part_run w (query_text wd) (part_clock (index_part w p now st))
                (part_store (index_part w p now st))) as (-> & -> & _).
    destruct (logout_clicked wd); reflexivity.
Qed.

End AccountPage.

(** ** Properties of the page *)

(** X21. A run of the page for a session that is not authenticated
    only authenticates: it calls nothing of the pipeline, shows no
    logout button, leaves the store, the Gemini flag and the indexing
    flag as they were, and sets [is_authenticated] exactly when the
    login button was clicked and [authenticate_gdrive] returned a
    service, which it stores.  Without a click it calls nothing at
    all. *)
Theorem login_run_only_authenticates
    {F : Type} `{Float F} (w : World F) (h : Host) (wd : Widgets) (now : nat)
    (sess : SessionState F) :
  authenticated (initialize sess) = false ->
  let out := script w h wd now sess in
  let p := initialize sess in
  run_end out = ScriptDone
  /\ clock_after out = now
  /\ count_ui is_ui_core (ui_events out) = 0%nat
  /\ count_ui is_ui_logout_button (ui_events out) = 0%nat
  /\ qdrant_client (session_after out) = Some (client p)
  /\ gemini_initialized (session_after out) = Some (gemini_ready p)
  /\ files_indexed (session_after out) = Some (indexed p)
  /\ (is_authenticated (session_after out) = Some true <->
      login_clicked wd = true
      /\ exists s, auth_service (authenticate_gdrive h) = Some s
                   /\ drive_service (session_after out) = Some (Some s))
  /\ (login_clicked wd = false ->
      count_ui is_ui_host (ui_events out) = 0%nat /\ session_after out = present p).
Proof.
  intros Hno. cbv zeta. unfold script. rewrite Hno. unfold login_page.
  destruct (login_clicked wd).
  - destruct (auth_service (authenticate_gdrive h)) as [s|];
      cbn [run_end clock_after ui_events session_after present is_authenticated
           drive_service qdrant_client gemini_initialized files_indexed
           authenticated service client gemini_ready indexed];
      rewrite !count_ui_app, !count_ui_host by reflexivity.
    + repeat split; try discriminate. exists s. now split.
    + rewrite Hno. repeat split; try discriminate.
      intros (_ & s & Hs & _). discriminate Hs.
  - cbn [run_end clock_after ui_events session_after present is_authenticated
         drive_service qdrant_client gemini_initialized files_indexed
         authenticated service client gemini_ready indexed].
    rewrite Hno. repeat split; try discriminate. intros (Hc & _). discriminate Hc.
Qed.

(** The first click on the login button, on a new session. *)
Lemma login_run_only_authenticates_witness :
  is_authenticated
    (session_after
       (script (sample_world 1) sample_host
          {| login_clicked := true; query_text := "hello"; logout_clicked := true |}
          0 cleared))
  = Some true.
Proof.
  destruct (login_run_only_authenticates (sample_world 1) sample_host
              {| login_clicked := true; query_text := "hello"; logout_clicked := true |}
              0 cleared) as (_ & _ & _ & _ & _ & _ & _ & Hin & _).
  - reflexivity.
  - apply Hin. split; [reflexivity|].
    exists {| service_creds := sample_creds |}. split; reflexivity.
Defined.

(** X22. The page indexes once per login: Drive is listed or read
    and the store written to only in a run of an authenticated session whose
    [files_indexed] flag is not set, that holds a service and got
    past the Gemini initialization; once the flag is set a run makes
    no such call and leaves the store in the session as it was,
    unless it clears the session. *)
Theorem page_indexes_once
    {F : Type} `{Float F} (w : World F) (h : Host) (wd : Widgets) (now : nat)
    (sess : SessionState F) :
  let out := script w h wd now sess in
  let p := initialize sess in
  (count_ui is_ui_indexing (ui_events out) <> 0%nat ->
   authenticated p = true /\ indexed p = false /\ gemini_starts h p = true
   /\ service p <> None)
  /\ (authenticated p = true -> indexed p = true ->
      count_ui is_ui_indexing (ui_events out) = 0%nat
      /\ (session_after out = cleared
          \/ qdrant_client (session_after out) = Some (Some (page_store p))
             /\ files_indexed (session_after out) = Some true)).
Proof.
  cbv zeta. unfold script.
  destruct (authenticated (initialize sess)) eqn:Hauth.
  2: { split; [|discriminate]. intros Hc. exfalso. apply Hc. unfold login_page.
       destruct (login_clicked wd); [destruct (auth_service (authenticate_gdrive h))|];
         cbn [ui_events]; rewrite ?count_ui_app, ?count_ui_host by reflexivity;
         reflexivity. }
  set (p := initialize sess) in *.
  rewrite account_page_run. cbv zeta.
  destruct (index_part_run w p now (page_store p)) as (Hdone & Hrun & _ & _ & _ & Hnone).
  set (idx := index_part w p now (page_store p)) in *.
  destruct (search_part_run w (query_text wd) (part_clock idx) (part_store idx))
    as (_ & _ & Hasked & _).
  assert (Hconf : count_ui is_ui_indexing (configure_events h p) = 0%nat).
  { unfold configure_events. destruct (gemini_ready p); [reflexivity|].
    destruct (api_key h); reflexivity. }
  assert (Hflag : indexed p = true ->
                  part_res idx = Ret tt /\ part_events idx = []
                  /\ part_store idx = page_store p).
  { intros Hidx. rewrite (Hdone Hidx). repeat split. }
  destruct (gemini_starts h p) eqn:Hgem; cbn [negb].
  - split.
    + intros Hc. split; [reflexivity|].
      destruct (indexed p) eqn:Hidx.
      * exfalso. apply Hc. destruct (Hflag eq_refl) as (-> & Hev & _).
        cbn [ui_events]. rewrite !count_ui_app, Hconf, Hasked, Hev. reflexivity.
      * split; [reflexivity|]. split; [reflexivity|].
        intros Hs. apply Hc. specialize (Hnone Hs).
        destruct (part_res idx); cbn [ui_events];
          rewrite !count_ui_app, ?Hconf, ?Hasked, Hnone; reflexivity.
    + intros _ Hidx. destruct (Hflag Hidx) as (-> & Hev & Hst).
      cbn [ui_events]. rewrite !count_ui_app, Hconf, Hasked, Hev.
      split; [reflexivity|].
      destruct (logout_clicked wd); [now left|right].
      cbn [session_after present qdrant_client files_indexed client indexed].
      rewrite Hst. now split.
  - cbn [ui_events session_after]. split.
    + intros Hc. exfalso. apply Hc. reflexivity.
    + intros _ Hidx. split; [reflexivity|]. right.
      cbn [present qdrant_client files_indexed client indexed]. rewrite Hidx. now split.
Qed.

(** X23. The session is cleared exactly by the runs that end in a
    rerun, which are the runs of an authenticated session that got
    past the Gemini initialization and the indexing with the logout
    button clicked; only those runs show the logout button.  The run
    that follows on the cleared session, without a click on the login
    button, shows the login page, calls nothing and fills in the five
    defaults. *)
Theorem logout_clears_the_session
    {F : Type} `{Float F} (w : World F) (h : Host) (wd : Widgets) (now : nat)
    (sess : SessionState F) :
  let out := script w h wd now sess in
  let p := initialize sess in
  let reached :=
    authenticated p = true /\ gemini_starts h p = true
    /\ part_res (index_part w p now (page_store p)) = Ret tt in
  (session_after out = cleared <-> run_end out = RerunAsked)
  /\ (run_end out = RerunAsked <-> reached /\ logout_clicked wd = true)
  /\ (count_ui is_ui_logout_button (ui_events out) <> 0%nat <-> reached)
  /\ (forall (wd' : Widgets) (now' : nat),
        login_clicked wd' = false ->
        script w h wd' now' cleared
        = {| run_end := ScriptDone;
             ui_events := [UiShow UiTitle; UiShow UiLoginHeader; UiShow UiLoginButton];
             session_after :=
               present {| authenticated := false; service := None; client := None;
                          gemini_ready := false; indexed := false |};
             clock_after := now' |}).
Proof.
  cbv zeta. split; [|split; [|split]].
  4: { intros wd' now' Hc. unfold script, login_page. cbn. rewrite Hc. reflexivity. }
  all: unfold script; destruct (authenticated (initialize sess)) eqn:Hauth.
  all: try (unfold login_page;
            destruct (login_clicked wd); [destruct (auth_service (authenticate_gdrive h))|];
            cbn [run_end session_after ui_events];
            rewrite ?count_ui_app, ?count_ui_host by reflexivity;
            split; try discriminate; try (intros ((? & _) & _); discriminate);
            try (intros (? & _); discriminate); intros Hc; now destruct Hc).
  all: set (p := initialize sess) in *; rewrite account_page_run; cbv zeta;
    destruct (index_part_run w p now (page_store p)) as (_ & _ & _ & Hidx & _);
    set (idx := index_part w p now (page_store p)) in *;
    destruct (search_part_run w (query_text wd) (part_clock idx) (part_store idx))
      as (_ & _ & _ & Hasked & _);
    assert (Hconf : count_ui is_ui_logout_button (configure_events h p) = 0%nat)
      by (unfold configure_events; destruct (gemini_ready p); [reflexivity|];
          destruct (api_key h); reflexivity);
    destruct (gemini_starts h p) eqn:Hgem; cbn [negb];
    [destruct (part_res idx) as [[]|e] eqn:Hres|];
    cbn [run_end session_after ui_events];
    rewrite ?count_ui_app, ?Hconf, ?Hidx, ?Hasked.
  all: try (destruct (logout_clicked wd)).
  all: split; try discriminate; try reflexivity; try tauto;
    try (intros ((_ & _ & ?) & _); discriminate);
    try (intros ((_ & ? & _) & _); discriminate);
    try (intros (_ & ?); discriminate);
    try (intros (_ & _ & ?); discriminate);
    try (intros (_ & ? & _); discriminate);
    try (intros Hc; now destruct Hc);
    try (intros _; repeat split; discriminate).
Qed.

(** X24. When the Gemini initialization or the indexing fails in
    an authenticated session, the run stops there: no search, no
    answer, no logout button, and the session stays authenticated
    with its indexing flag as it was.  After a failed initialization
    nothing of the pipeline was called.  After a failed indexing the
    store keeps what the pass wrote before it raised, and the next run
    is the account page on that store with the indexing still to
    do. *)
Theorem failed_start_stops_the_page
    {F : Type} `{Float F} (w : World F) (h : Host) (wd : Widgets) (now : nat)
    (sess : SessionState F) :
  authenticated (initialize sess) = true ->
  gemini_starts h (initialize sess) = false
  \/ (exists e, part_res (index_part w (initialize sess) now
                            (page_store (initialize sess))) = Raise e) ->
  let out := script w h wd now sess in
  let p := initialize sess in
  let pass := indexing_pass w p now (page_store p) in
  run_end out = Stopped
  /\ is_authenticated (session_after out) = Some true
  /\ files_indexed (session_after out) = Some (indexed p)
  /\ count_ui is_ui_logout_button (ui_events out) = 0%nat
  /\ count_ui is_ui_question (ui_events out) = 0%nat
  /\ (gemini_starts h p = false ->
      count_ui is_ui_core (ui_events out) = 0%nat
      /\ clock_after out = now
      /\ gemini_initialized (session_after out) = Some false
      /\ qdrant_client (session_after out) = Some (Some (page_store p)))
  /\ (gemini_starts h p = true ->
      indexed p = false
      /\ gemini_initialized (session_after out) = Some true
      /\ qdrant_client (session_after out) = Some (Some (store_after pass))
      /\ script w h wd (clock_after out) (session_after out)
         = account_page w h wd (now + length (events pass))%nat
             {| authenticated := true; service := service p;
                client := Some (store_after pass); gemini_ready := true;
                indexed := false |}).
Proof.
  intros Hauth Hfail. cbv zeta. unfold script. rewrite Hauth.
  set (p := initialize sess) in *. rewrite account_page_run. cbv zeta.
  destruct (index_part_run w p now (page_store p)) as (Hdone & Hrun & Hq & Hb & _).
  set (idx := index_part w p now (page_store p)) in *.
  assert (Hconf : forall kind : UiEvent F -> bool,
             (forall e, kind (UiHost e) = false) ->
             count_ui kind (configure_events h p) = 0%nat).
  { intros kind Hk. unfold configure_events. destruct (gemini_ready p); [reflexivity|].
    destruct (api_key h); [|reflexivity]. rewrite count_ui_cons, Hk. reflexivity. }
  destruct (gemini_starts h p) eqn:Hgem; cbn [negb].
  - destruct Hfail as [Hfail|(e & Hres)]; [discriminate|]. rewrite Hres.
    assert (Hidx : indexed p = false).
    { destruct (indexed p) eqn:Hidx; [|reflexivity].
      rewrite (Hdone eq_refl) in Hres. discriminate Hres. }
    destruct (Hrun Hidx) as (_ & Hstore).
    assert (Hclock : part_clock idx = (now + length (events (indexing_pass w p now (page_store p))))%nat).
    { subst idx. unfold index_part. rewrite Hidx. reflexivity. }
    cbn [run_end session_after ui_events clock_after present is_authenticated
         files_indexed gemini_initialized qdrant_client authenticated indexed
         gemini_ready client].
    rewrite !count_ui_app, !Hconf, Hq, Hb by reflexivity.
    rewrite Hauth, Hstore, Hclock, Hidx.
    repeat split; try discriminate.
  - cbn [run_end session_after ui_events clock_after present is_authenticated
         files_indexed gemini_initialized qdrant_client authenticated indexed
         gemini_ready client].
    assert (Hready : gemini_ready p = false).
    { unfold gemini_starts in Hgem. now destruct (gemini_ready p). }
    rewrite Hauth, Hready. repeat split; discriminate.
Qed.

(** Without an API key the page stops, also when logout was clicked. *)
Lemma failed_start_stops_the_page_witness :
  run_end
    (script (sample_world 1) keyless_host
       {| login_clicked := false; query_text := "hello"; logout_clicked := true |}
       0 logged_in_session)
  = Stopped.
Proof.
  destruct (failed_start_stops_the_page (sample_world 1) keyless_host
              {| login_clicked := false; query_text := "hello"; logout_clicked := true |}
              0 logged_in_session) as (He & _).
  - reflexivity.
  - left. reflexivity.
  - exact He.
Defined.

(** X25. The script keeps the session coherent: authenticated only
    with a service, a store only when authenticated, the Gemini flag
    only with a store, the indexing flag only with the Gemini flag.
    So in such a session the indexing of the page is
    [process_drive_files] itself. *)
Theorem session_stays_coherent
    {F : Type} `{Float F} (w : World F) (h : Host) (wd : Widgets) (now : nat)
    (sess : SessionState F) :
  coherent (initialize sess) ->
  coherent (initialize (session_after (script w h wd now sess)))
  /\ (authenticated (initialize sess) = true ->
      indexing_pass w (initialize sess) now (page_store (initialize sess))
      = process_drive_files w now (page_store (initialize sess))).
Proof.
  intros (Hserv & Hcli & Hgem & Hidx). split.
  2: { intros Hauth. unfold indexing_pass.
       destruct (service (initialize sess)); [reflexivity|]. now destruct (Hserv Hauth). }
  unfold script. destruct (authenticated (initialize sess)) eqn:Hauth.
  - set (p := initialize sess) in *. rewrite account_page_run. cbv zeta.
    destruct (gemini_starts h p) eqn:Hstart; cbn [negb].
    + destruct (part_res (index_part w p now (page_store p))) as [[]|e];
        [destruct (logout_clicked wd)|];
        cbn [session_after]; unfold coherent;
        cbn [initialize present cleared or_default is_authenticated drive_service
             qdrant_client gemini_initialized files_indexed authenticated service
             client gemini_ready indexed];
        rewrite ?Hauth; repeat split; try discriminate; auto.
    + cbn [session_after]. unfold coherent.
      cbn [initialize present or_default is_authenticated drive_service
           qdrant_client gemini_initialized files_indexed authenticated service
           client gemini_ready indexed].
      rewrite Hauth. repeat split; try discriminate; auto.
  - set (p := initialize sess) in *. unfold login_page.
    destruct (login_clicked wd); [destruct (auth_service (authenticate_gdrive h))|];
      cbn [session_after]; unfold coherent;
      cbn [initialize present or_default is_authenticated drive_service
           qdrant_client gemini_initialized files_indexed authenticated service
           client gemini_ready indexed];
      repeat split; try discriminate; auto;
      try (rewrite Hauth; discriminate);
      try (intros Hc; apply Hcli in Hc; discriminate Hc).
Qed.

(** The session after a login is coherent, and stays so. *)
Lemma session_stays_coherent_witness :
  coherent
    (initialize
       (session_after
          (script (sample_world 1) sample_host
             {| login_clicked := false; query_text := ""; logout_clicked := false |}
             0 logged_in_session))).
Proof.
  destruct (session_stays_coherent (sample_world 1) sample_host
              {| login_clicked := false; query_text := ""; logout_clicked := false |}
              0 logged_in_session) as (Hc & _).
  - repeat split; cbn; intros Hx; first [discriminate Hx | now destruct Hx].
  - exact Hc.
Defined.
